(** * Shared GitHub Actions: label reconcilers, status resolver, labeler,
      auto-merge controller and Slack notifier

    A shallow embedding of the JavaScript actions under [.github/actions]:
    - [build-status-labeler.js]  (QA label reconciler; Slack notifier: main
                                  flow, Web API client, message sending,
                                  timestamp comment, reactions, status line)
    - [pr-status-labeler.js]     (PR status label reconciler)
    - [pr-review-checker.js]     (approval check, QA status resolution)
    - [pr-labeler] script        (conventional-commit labeler)
    - [auto-merge-manager.js]    (auto-merge controller)

    A string is the Rocq string of its UTF-8 encoding, arrays are lists,
    [async] functions that talk to GitHub or Slack are computations in a
    small monad over a trace of the requests issued, the other side being
    a function that says how each request completes.  [console.log] output does not influence control
    flow and is only kept where a property speaks about it (the auto-merge
    controller); the optional delays read from the environment
    ([WAIT_TIME], [REACTION_DELAY_MS], [VERIFICATION_DELAY_MS]) change no
    request and are left out. *)

From Stdlib Require Import Ascii.
From stdpp Require Import base list strings gmap pretty.

(** ** JavaScript primitives *)

Module JS.

(** Truthiness of a string value: only the empty string is falsy. *)
Definition truthy (s : string) : bool := negb (String.eqb s "").

(** [Array.prototype.includes] on an array of strings. *)
Definition includes (l : list string) (x : string) : bool :=
  bool_decide (x ∈ l).

(** [String.prototype.includes]: [needle] occurs somewhere in [hay]. *)
Fixpoint str_includes (hay needle : string) : bool :=
  String.prefix needle hay ||
  match hay with
  | EmptyString => false
  | String _ rest => str_includes rest needle
  end.

(** How a call completes: with a value, or by throwing an [Error] whose
    [message] is the carried string. *)
Inductive Completion (A : Type) : Type :=
| Return (a : A)
| Throw (message : string).
Arguments Return {A} a.
Arguments Throw {A} message.

End JS.

(** ** The GitHub REST client, restricted to the label endpoints *)

Module Octokit.
Import JS.

Inductive Call : Type :=
| ListLabelsOnIssue
| RemoveLabel (name : string)
| AddLabels (labels : list string).

(** One issued request and whether it failed (with which message). *)
Record Event : Type := mkEvent { ev_call : Call; ev_error : option string }.

(** The labels currently on the pull request and the requests issued so
    far, oldest first. *)
Record World : Type := mkWorld { pr_labels : list string; trace : list Event }.

(** The behaviour of the remote side: given the requests so far and the
    next request, either it succeeds ([None]) or it is rejected with an
    error message. *)
Definition Oracle : Type := list Event → Call → option string.

Definition M (A : Type) : Type := World → Completion A * World.

Definition ret {A} (a : A) : M A := λ w, (Return a, w).

Definition bind {A B} (m : M A) (k : A → M B) : M B := λ w,
  match m w with
  | (Return a, w') => k a w'
  | (Throw e, w') => (Throw e, w')
  end.

(** [try { body } catch (error) { handler }] *)
Definition try_catch {A} (body : M A) (handler : string → M A) : M A := λ w,
  match body w with
  | (Return a, w') => (Return a, w')
  | (Throw e, w') => handler e w'
  end.

#[global] Instance M_ret : MRet M := @ret.
#[global] Instance M_bind : MBind M := λ A B k m, bind m k.

(** [for (const x of xs) { body }] *)
Fixpoint for_of {X} (xs : list X) (body : X → M unit) : M unit :=
  match xs with
  | [] => ret tt
  | x :: rest => body x ;; for_of rest body
  end.

(** Adding labels is a set union on the server: names already on the
    issue are not duplicated. *)
Definition add_names (current names : list string) : list string :=
  foldl (λ acc n, if includes acc n then acc else acc ++ [n]) current names.

(** Removing a label takes the name off the issue. *)
Definition remove_name (current : list string) (name : string) : list string :=
  filter (λ l, l ≠ name) current.

Section Client.
Variable api : Oracle.

(** Issue [c]; on success the response is computed from the labels on
    the issue, which are replaced by the second component. *)
Definition request {A} (c : Call)
    (respond : list string → A * list string) : M A := λ w,
  match api (trace w) c with
  | None =>
      let '(a, labels') := respond (pr_labels w) in
      (Return a, mkWorld labels' (trace w ++ [mkEvent c None]))
  | Some msg =>
      (Throw msg, mkWorld (pr_labels w) (trace w ++ [mkEvent c (Some msg)]))
  end.

(** [github.rest.issues.listLabelsOnIssue], mapped to the label names;
    the response is taken to carry every label of the issue. *)
Definition listLabelsOnIssue : M (list string) :=
  request ListLabelsOnIssue (λ ls, (ls, ls)).

(** [github.rest.issues.removeLabel] *)
Definition removeLabel (name : string) : M unit :=
  request (RemoveLabel name) (λ ls, (tt, remove_name ls name)).

(** [github.rest.issues.addLabels] *)
Definition addLabels (labels : list string) : M unit :=
  request (AddLabels labels) (λ ls, (tt, add_names ls labels)).
End Client.

(** The write requests of a trace. *)
Definition is_write (c : Call) : bool :=
  match c with
  | ListLabelsOnIssue => false
  | RemoveLabel _ | AddLabels _ => true
  end.

Definition succeeded (e : Event) : Prop := ev_error e = None.

(** A remote side that accepts every request. *)
Definition always_ok : Oracle := λ _ _, None.

End Octokit.

(** ** build-status-labeler.js: QA label reconciler *)

Module BuildStatusLabeler.
Import JS Octokit.

Definition QA_LABEL_NAMES : list string :=
  ["qa:pending"; "qa:running"; "qa:success"; "qa:failed"].

(** The [switch (workflowStatus)] at the head of
    [updateBuildStatusLabel]; [""] when no case applies. *)
Definition desiredLabel (workflowStatus : string) : string :=
  if String.eqb workflowStatus "pending" then "qa:pending"
  else if String.eqb workflowStatus "running" then "qa:running"
  else if String.eqb workflowStatus "success" then "qa:success"
  else if String.eqb workflowStatus "failure" then "qa:failed"
  else if String.eqb workflowStatus "cancelled" then "qa:failed"
  else "".

(** The statuses that have a [case] in the switch. *)
Definition recognized : list string :=
  ["pending"; "running"; "success"; "failure"; "cancelled"].

Section WithClient.
Variable api : Oracle.

Definition updateBuildStatusLabel (workflowStatus : string) : M unit :=
  let desiredLabel := desiredLabel workflowStatus in
  if negb (truthy desiredLabel) then ret tt
  else
    currentLabelNames ← listLabelsOnIssue api;
    let currentQaLabels :=
      filter (λ l, l ∈ QA_LABEL_NAMES) currentLabelNames in
    if bool_decide (length currentQaLabels = 1)
       && bool_decide (currentQaLabels !! 0 = Some desiredLabel)
    then ret tt
    else
      let labelsToRemove := filter (λ l, l ≠ desiredLabel) currentQaLabels in
      let needsToAdd := negb (includes currentQaLabels desiredLabel) in
      for_of labelsToRemove (λ label,
        try_catch (removeLabel api label) (λ _, ret tt));;
      (if needsToAdd
       then try_catch (addLabels api [desiredLabel]) (λ _, ret tt)
       else ret tt).
End WithClient.

End BuildStatusLabeler.

(** ** pr-status-labeler.js: PR status label reconciler *)

Module PrStatusLabeler.
Import JS Octokit.

Definition STATUS_LABEL_NAMES : list string :=
  ["status:draft"; "status:ready-for-review"; "status:approved";
   "status:mergeable"; "status:merged"; "status:abandoned"].

(** The [if]/[else if] chain that assigns [desiredLabel]. *)
Definition desiredLabel (isDraft hasApproval : bool) (qaStatus : string)
    (isMerged isAbandoned : bool) : string :=
  if isMerged then "status:merged"
  else if isAbandoned then "status:abandoned"
  else if isDraft then "status:draft"
  else if hasApproval && String.eqb qaStatus "success" then "status:mergeable"
  else if hasApproval then "status:approved"
  else "status:ready-for-review".

Section WithClient.
Variable api : Oracle.

Definition updatePRStatusLabel (isDraft hasApproval : bool)
    (qaStatus : string) (isMerged isAbandoned : bool) : M unit :=
  let desiredLabel :=
    desiredLabel isDraft hasApproval qaStatus isMerged isAbandoned in
  currentLabelNames ← listLabelsOnIssue api;
  let currentStatusLabels :=
    filter (λ l, l ∈ STATUS_LABEL_NAMES) currentLabelNames in
  if bool_decide (length currentStatusLabels = 1)
     && bool_decide (currentStatusLabels !! 0 = Some desiredLabel)
  then ret tt
  else
    let labelsToRemove :=
      filter (λ l, l ≠ desiredLabel) currentStatusLabels in
    let needsToAdd := negb (includes currentStatusLabels desiredLabel) in
    for_of labelsToRemove (λ label,
      try_catch (removeLabel api label) (λ _, ret tt));;
    (if needsToAdd && truthy desiredLabel
     then try_catch (addLabels api [desiredLabel]) (λ _, ret tt)
     else ret tt).
End WithClient.

(** The priority chain in the words of the design: an ordered list of
    (condition, label) rows, the first row whose condition holds wins,
    and [status:ready-for-review] is the default. *)
Definition priority_chain (isDraft hasApproval : bool) (qaStatus : string)
    (isMerged isAbandoned : bool) : list (bool * string) :=
  [ (isMerged, "status:merged");
    (isAbandoned, "status:abandoned");
    (isDraft, "status:draft");
    (hasApproval && bool_decide (qaStatus = "success"), "status:mergeable");
    (hasApproval, "status:approved") ].

Fixpoint first_match (rows : list (bool * string)) (default : string) : string :=
  match rows with
  | [] => default
  | (true, label) :: _ => label
  | (false, _) :: rest => first_match rest default
  end.

End PrStatusLabeler.

(** ** The convergence procedure common to both reconcilers

    After the desired label is known, [updateBuildStatusLabel] and
    [updatePRStatusLabel] run the same steps over their own label group.
    [reconcile] is that procedure with the group as a parameter; the two
    functions are shown to agree with it before anything is proved about
    them. *)

Module Reconciler.
Import JS Octokit.

Section WithClient.
Variable api : Oracle.

Definition remove_all (labelsToRemove : list string) : M unit :=
  for_of labelsToRemove (λ label,
    try_catch (removeLabel api label) (λ _, ret tt)).

Definition add_one (desired : string) : M unit :=
  try_catch (addLabels api [desired]) (λ _, ret tt).

Definition reconcile (group : list string) (desired : string) : M unit :=
  currentLabelNames ← listLabelsOnIssue api;
  let current := filter (λ l, l ∈ group) currentLabelNames in
  if bool_decide (current = [desired]) then ret tt
  else
    remove_all (filter (λ l, l ≠ desired) current);;
    (if includes current desired then ret tt else add_one desired).
End WithClient.

(** The requests a run has added to the trace [before]. *)
Definition issued (before : list Event) (after : World) : list Event :=
  drop (length before) (trace after).

End Reconciler.

(** ** pr-review-checker.js: approval and QA status resolution *)

Module PrReviewChecker.
Import JS.

(** A review as returned by [pulls.listReviews]: the fields the checker
    reads are [review.state] and [review.user.login].  [review.user] is
    [null] when the account of the reviewer no longer exists. *)
Record User : Type := mkUser { login : string }.

Record Review : Type := mkReview { state : string; user : option User }.

(** The message of the [TypeError] that reading [login] of [null]
    raises. *)
Definition NULL_LOGIN : string :=
  "Cannot read properties of null (reading 'login')".

(** The test of the filter,
    [review.state === "APPROVED" && review.user.login !== prAuthor]:
    [review.user.login] is only evaluated for an approving review. *)
Definition approves (prAuthor : string) (review : Review) : Completion bool :=
  if bool_decide (state review = "APPROVED") then
    match user review with
    | Some u => Return (bool_decide (login u ≠ prAuthor))
    | None => Throw NULL_LOGIN
    end
  else Return false.

(** [reviews.filter(test)] for a test that may throw: the elements are
    tested in order and the first exception ends the call. *)
Fixpoint filter_reviews (test : Review → Completion bool)
    (reviews : list Review) : Completion (list Review) :=
  match reviews with
  | [] => Return []
  | review :: rest =>
      match test review with
      | Throw e => Throw e
      | Return keep =>
          match filter_reviews test rest with
          | Throw e => Throw e
          | Return kept => Return (if keep then review :: kept else kept)
          end
      end
  end.

(** [listReviews] is the completion of the [pulls.listReviews] request. *)
Definition checkApproval (listReviews : Completion (list Review))
    (prAuthor : string) : Completion bool :=
  match listReviews with
  | Throw e => Throw e
  | Return reviews =>
      match filter_reviews (approves prAuthor) reviews with
      | Throw e => Throw e
      | Return approvals =>
          let hasApproval := bool_decide (0 < length approvals) in
          Return hasApproval
      end
  end.

(** [!qaResult] for an input that is a string or [undefined]. *)
Definition not_given (v : option string) : bool :=
  match v with
  | None => true
  | Some s => negb (truthy s)
  end.

(** [pulls_get] is the completion of the [pulls.get] request, mapped to
    the names of [pr.labels]; it is only consulted for review events. *)
Definition determineQAStatus (pulls_get : Completion (list string))
    (eventName : string) (qaResult secretScanningResult : option string)
    : Completion string :=
  if String.eqb eventName "pull_request_review" then
    match pulls_get with
    | Throw e => Throw e
    | Return labels =>
        let qaStatus :=
          if includes labels "qa:success" then "success"
          else if includes labels "qa:failed" then "failed"
          else if includes labels "qa:running" then "running"
          else if includes labels "qa:pending" then "pending"
          else "pending" in
        Return qaStatus
    end
  else
    let qaStatus :=
      if bool_decide (qaResult = Some "success") then "success"
      else if bool_decide (qaResult = Some "failure")
              || bool_decide (qaResult = Some "cancelled") then "failed"
      else if bool_decide (qaResult = Some "skipped") || not_given qaResult
      then "pending"
      else "failed" in
    Return qaStatus.

(** The label precedence of the review path in the words of the design:
    rows of (label, status) tried in order, [pending] when none is on
    the pull request. *)
Definition label_precedence : list (string * string) :=
  [ ("qa:success", "success"); ("qa:failed", "failed");
    ("qa:running", "running"); ("qa:pending", "pending") ].

Fixpoint read_back (rows : list (string * string)) (labels : list string)
    : string :=
  match rows with
  | [] => "pending"
  | (label, status) :: rest =>
      if bool_decide (label ∈ labels) then status else read_back rest labels
  end.

End PrReviewChecker.

(** ** Regular expressions, as far as the labeler's patterns need them *)

Module Regex.

Inductive regex : Type :=
| Lit (s : string)              (* a run of literal characters *)
| Dot                           (* [.] *)
| Cat (r1 r2 : regex)
| Alt (r1 r2 : regex)           (* [r1|r2], left alternative first *)
| Opt (r : regex)               (* [r?], greedy *)
| Plus (r : regex)              (* [r+], greedy *)
| Group (n : nat) (r : regex).  (* capturing group number [n] *)

(** [t1|t2|...|tn] over literal alternatives, tried left to right. *)
Definition alt_of (first : string) (others : list string) : regex :=
  foldl (λ acc l, Alt acc (Lit l)) (Lit first) others.

Definition captures : Type := list (nat * string).

Fixpoint capture (n : nat) (caps : captures) : option string :=
  match caps with
  | [] => None
  | (m, text) :: rest => if m =? n then Some text else capture n rest
  end.

(** The two line terminators beyond ASCII, U+2028 and U+2029, as they
    stand in a text: by the three bytes of their UTF-8 encoding. *)
Definition LINE_SEPARATOR : string :=
  String "226"%char (String "128"%char (String "168"%char EmptyString)).

Definition PARAGRAPH_SEPARATOR : string :=
  String "226"%char (String "128"%char (String "169"%char EmptyString)).

(** Whether the input starts with a line terminator: a line feed, a
    carriage return, U+2028 or U+2029. *)
Definition is_line_terminator (s : string) : bool :=
  String.prefix (String "010"%char EmptyString) s
  || String.prefix (String "013"%char EmptyString) s
  || String.prefix LINE_SEPARATOR s
  || String.prefix PARAGRAPH_SEPARATOR s.

Fixpoint drop_chars (n : nat) (s : string) : string :=
  match n, s with
  | S n', String _ rest => drop_chars n' rest
  | _, _ => s
  end.

(** The text between position [s] and the later position [s']. *)
Definition consumed (s s' : string) : string :=
  String.substring 0 (String.length s - String.length s') s.

(** Backtracking matcher in continuation-passing style: [run r s caps k]
    matches [r] at the front of [s] and hands the rest of the input and
    the captures to [k]; when [k] fails the next way of matching [r] is
    tried, in the order of the ECMAScript semantics. *)
Fixpoint run (r : regex) (s : string) (caps : captures)
    (k : string → captures → option captures) : option captures :=
  match r with
  | Lit l =>
      if String.prefix l s then k (drop_chars (String.length l) s) caps
      else None
  | Dot =>
      match s with
      | String c rest => if is_line_terminator s then None else k rest caps
      | EmptyString => None
      end
  | Cat r1 r2 => run r1 s caps (λ s' caps', run r2 s' caps' k)
  | Alt r1 r2 =>
      match run r1 s caps k with
      | Some c => Some c
      | None => run r2 s caps k
      end
  | Opt r1 =>
      match run r1 s caps (λ s' caps',
              if String.length s' =? String.length s then None
              else k s' caps') with
      | Some c => Some c
      | None => k s caps
      end
  | Plus r1 =>
      (fix iterate (fuel : nat) (first : bool) (s : string) (caps : captures)
           {struct fuel} : option captures :=
         run r1 s caps (λ s' caps',
           if negb first && (String.length s' =? String.length s) then None
           else
             match
               match fuel with
               | S fuel' => iterate fuel' false s' caps'
               | O => None
               end
             with
             | Some c => Some c
             | None => k s' caps'
             end))
        (S (String.length s)) true s caps
  | Group n r1 =>
      run r1 s caps (λ s' caps', k s' ((n, consumed s s') :: caps'))
  end.

(** [str.match(/^r/)] for a pattern anchored at the start and without
    flags: the captures of the first successful match, or [None] for
    [null]. *)
Definition match_anchored (r : regex) (str : string) : option captures :=
  run r str [] (λ _ caps, Some caps).

End Regex.

(** ** pr-labeler: conventional-commit labeler *)

Module PrLabeler.
Import JS Regex.

(** [/^(chore|fix|build)\(deps\):/] *)
Definition DEPS_RE : regex :=
  Cat (Group 1 (alt_of "chore" ["fix"; "build"])) (Lit "(deps):").

Definition conventional_types : regex :=
  alt_of "feat"
    ["fix"; "docs"; "style"; "refactor"; "perf"; "test"; "build"; "ci"; "revert"].

(** [(\(.+\))?] *)
Definition optional_scope : regex :=
  Opt (Group 2 (Cat (Lit "(") (Cat (Plus Dot) (Lit ")")))).

(** [/^(feat|fix|docs|style|refactor|perf|test|build|ci|revert)(\(.+\))?:/] *)
Definition TYPE_RE : regex :=
  Cat (Group 1 conventional_types) (Cat optional_scope (Lit ":")).

(** [/^(feat|fix|docs|style|refactor|perf|test|build|ci|revert)(\(.+\))?!:/] *)
Definition BREAKING_RE : regex :=
  Cat (Group 1 conventional_types) (Cat optional_scope (Lit "!:")).

(** The array [labelsToAdd] that [analyzePRAndApplyLabels] hands to its one
    [issues.addLabels] request; [pr_draft] is the [draft] flag of the
    pull request fetched by [pulls.get]. *)
Definition analyzePRAndApplyLabels (prTitle prBody : string) (pr_draft : bool)
    : list string :=
  let labelsToAdd := [] in
  let labelsToAdd :=
    if bool_decide (is_Some (match_anchored DEPS_RE prTitle)) then
      labelsToAdd ++ ["dependencies"]
    else
      let typeMatch := match_anchored TYPE_RE prTitle in
      match typeMatch with
      | Some caps => labelsToAdd ++ [default "" (capture 1 caps)]
      | None => labelsToAdd ++ ["chore"]
      end in
  let labelsToAdd :=
    if bool_decide (is_Some (match_anchored BREAKING_RE prTitle))
       || str_includes prBody "BREAKING CHANGE:"
    then labelsToAdd ++ ["breaking"]
    else labelsToAdd in
  let labelsToAdd :=
    if pr_draft then labelsToAdd ++ ["status:draft"]
    else labelsToAdd ++ ["status:ready-for-review"] in
  labelsToAdd.

End PrLabeler.

(** ** auto-merge-manager.js: auto-merge controller *)

Module AutoMergeManager.
Import JS.

(** What a property read on [mergeMethodMap] can give: the string of one of
    its three own keys, or, for a name that every object inherits from
    [Object.prototype], the inherited function or object, which is not a
    string. *)
Inductive MergeMethod : Type :=
| Enum (value : string)
| Inherited (name : string).

(** The property names of [Object.prototype]. *)
Definition OBJECT_PROTOTYPE : list string :=
  [ "constructor"; "__defineGetter__"; "__defineSetter__"; "hasOwnProperty";
    "__lookupGetter__"; "__lookupSetter__"; "isPrototypeOf";
    "propertyIsEnumerable"; "toString"; "valueOf"; "__proto__";
    "toLocaleString" ].

(** [mergeMethodMap[mergeMethod]], [None] standing for [undefined]. *)
Definition mergeMethodMap (mergeMethod : string) : option MergeMethod :=
  if String.eqb mergeMethod "merge" then Some (Enum "MERGE")
  else if String.eqb mergeMethod "squash" then Some (Enum "SQUASH")
  else if String.eqb mergeMethod "rebase" then Some (Enum "REBASE")
  else if includes OBJECT_PROTOTYPE mergeMethod
  then Some (Inherited mergeMethod)
  else None.

(** [mergeMethodMap[mergeMethod] || "SQUASH"]: every value a read can give
    is truthy, so the default stands in for [undefined] only. *)
Definition mergeMethodSent (mergeMethod : string) : MergeMethod :=
  default (Enum "SQUASH") (mergeMethodMap mergeMethod).

(** The remote side: the completion of [pulls.get] (carrying [pr.node_id])
    and of the [enablePullRequestAutoMerge] mutation for a node id and the
    value given as merge method. *)
Record Remote : Type := mkRemote {
  pulls_get : Completion string;
  graphql : string → MergeMethod → Completion unit
}.

(** What the [catch (error)] block prints for [error.message]. *)
Definition handle_error (message : string) : string :=
  if str_includes message "Auto-merge is not enabled" then
    "ℹ️ Auto-merge is already disabled"
  else if str_includes message "already enabled" then
    "ℹ️ Auto-merge is already enabled"
  else if str_includes message "Auto-merge is not allowed" then
    "⚠️ Auto-merge is not allowed for this repository. Please enable it in repository settings."
  else if str_includes message "Pull request is in clean status" then
    "ℹ️ PR is already up to date with base branch"
  else if str_includes message "Pull request is in dirty status" then
    "⚠️ PR has conflicts that need to be resolved"
  else "❌ Error managing auto-merge: " +:+ message.

(** The body of the [try] block: its completion and the lines printed. *)
Definition try_block (remote : Remote) (prNumber : string)
    (hasApproval : bool) (qaStatus : string) (isDraft : bool)
    (mergeMethod : string) (isMergeable : bool)
    : Completion unit * list string :=
  if isMergeable then
    let line1 := "Enabling auto-merge for PR #" +:+ prNumber
                   +:+ " with method: " +:+ mergeMethod in
    match pulls_get remote with
    | Throw e => (Throw e, [line1])
    | Return node_id =>
        match graphql remote node_id (mergeMethodSent mergeMethod) with
        | Throw e => (Throw e, [line1])
        | Return _ =>
            (Return tt,
             [line1; "✅ Auto-merge enabled for PR #" +:+ prNumber])
        end
    end
  else
    let reasons := [] in
    let reasons := if negb hasApproval then reasons ++ ["no approval"] else reasons in
    let reasons :=
      if negb (String.eqb qaStatus "success")
      then reasons ++ ["QA status is " +:+ qaStatus] else reasons in
    let reasons := if isDraft then reasons ++ ["PR is a draft"] else reasons in
    (Return tt,
     ["PR #" +:+ prNumber +:+ " is not ready for auto-merge";
      "Reasons: " +:+ String.concat ", " reasons]).

(** [manageAutoMerge]: how the call completes and the [console.log] lines
    from the bot check onwards ([prNumber] is given by its decimal
    digits). *)
Definition manageAutoMerge (remote : Remote) (prNumber prAuthor prAuthorType : string)
    (hasApproval : bool) (qaStatus : string) (isDraft : bool)
    (mergeMethod : string) : Completion unit * list string :=
  if String.eqb prAuthorType "Bot" then
    (Return tt, ["Skipping auto-merge for bot PR from " +:+ prAuthor])
  else
    let isMergeable :=
      hasApproval && String.eqb qaStatus "success" && negb isDraft in
    let line0 := "PR #" +:+ prNumber +:+ " is "
                   +:+ (if isMergeable then "mergeable" else "not mergeable") in
    match try_block remote prNumber hasApproval qaStatus isDraft mergeMethod
                    isMergeable with
    | (Return _, lines) => (Return tt, line0 :: lines)
    | (Throw message, lines) =>
        (Return tt, line0 :: lines ++ [handle_error message])
    end.

End AutoMergeManager.

(** ** Slack notifier: selection of the reactions to show *)

Module SlackNotifier.
Import JS.

(** A label object of the pull request; only [name] is read. *)
Record Label : Type := mkLabel { name : string }.

(** The two exclusivity groups, an object with the keys [qa] and
    [status] in this order. *)
Record ExclusiveGroups : Type := mkGroups {
  qa : list string;
  status : list string
}.

(** [Object.entries(exclusiveGroups)] *)
Definition entries (g : ExclusiveGroups) : list (string * list string) :=
  [("qa", qa g); ("status", status g)].

(** The tables built by [manageReactionsEfficiently]. *)
Definition statusReactions : gmap string string :=
  list_to_map
    [ ("qa:pending", "hourglass_flowing_sand");
      ("qa:running", "runner");
      ("qa:success", "white_check_mark");
      ("qa:failed", "x");
      ("status:ready-for-review", "eyes");
      ("status:approved", "thumbsup");
      ("status:mergeable", "rocket") ].

Definition exclusiveGroups : ExclusiveGroups :=
  {| qa := ["hourglass_flowing_sand"; "runner"; "white_check_mark"; "x"];
     status := ["eyes"; "thumbsup"; "rocket"] |}.

Definition groupPriority : gmap string (list string) :=
  list_to_map
    [ ("qa", ["qa:failed"; "qa:success"; "qa:running"; "qa:pending"]);
      ("status", ["status:merged"; "status:mergeable"; "status:approved";
                  "status:ready-for-review"]) ].

(** [labels.some((l) => l.name === n)] *)
Definition has_label (labels : list Label) (n : string) : bool :=
  existsb (λ l, String.eqb (name l) n) labels.

(** A property read [table[key]] tested for truthiness: the string when
    it is an own, non-empty entry. *)
Definition truthy_entry (table : gmap string string) (key : string)
    : option string :=
  match table !! key with
  | Some r => if truthy r then Some r else None
  | None => None
  end.

(** The inner loop over [priorityOrder] with its [break]. *)
Fixpoint select (labels : list Label) (statusReactions : gmap string string)
    (priorityOrder : list string) : option string :=
  match priorityOrder with
  | [] => None
  | priorityLabel :: rest =>
      if has_label labels priorityLabel then
        match truthy_entry statusReactions priorityLabel with
        | Some selectedReaction => Some selectedReaction
        | None => select labels statusReactions rest
        end
      else select labels statusReactions rest
  end.

Definition calculateDesiredReactions (labels : list Label) (isPRMerged : bool)
    (statusReactions : gmap string string) (exclusiveGroups : ExclusiveGroups)
    : list string :=
  let isMerged := has_label labels "status:merged" || isPRMerged in
  if isMerged then []
  else
    let mappedReactions :=
      foldl (λ (acc : list string) (label : Label),
               match truthy_entry statusReactions (name label) with
               | Some r => acc ++ [r]
               | None => acc
               end) [] labels in
    let finalReactions :=
      foldl (λ (acc : list string) (entry : string * list string),
               let priorityOrder := default [] (groupPriority !! fst entry) in
               match select labels statusReactions priorityOrder with
               | Some selectedReaction =>
                   if includes mappedReactions selectedReaction
                   then acc ++ [selectedReaction] else acc
               | None => acc
               end) [] (entries exclusiveGroups) in
    let hasQaInProgress :=
      existsb (λ l, String.eqb (name l) "qa:running"
                    || String.eqb (name l) "qa:pending") labels in
    if hasQaInProgress
    then filter (λ r, r ∈ qa exclusiveGroups) finalReactions
    else finalReactions.

End SlackNotifier.

(** ** Slack notifier: set difference and text escaping *)

Module SlackText.
Import JS.

(** The object [{ add, remove }] returned by [calculateDelta]. *)
Record Delta : Type := mkDelta { add : list string; remove : list string }.

Definition calculateDelta (current desired : list string) : Delta :=
  let currentSet : gset string := list_to_set current in
  let desiredSet : gset string := list_to_set desired in
  let toAdd := filter (λ item, item ∉ currentSet) desired in
  let toRemove := filter (λ item, item ∉ desiredSet) current in
  {| add := toAdd; remove := toRemove |}.

(** [text.replace(/c/g, by)] for a pattern that is the single character
    [c] and a replacement without [$] patterns. *)
Fixpoint replace_all (c : Ascii.ascii) (by_ : string) (text : string) : string :=
  match text with
  | EmptyString => EmptyString
  | String x rest =>
      if Ascii.eqb x c then by_ +:+ replace_all c by_ rest
      else String x (replace_all c by_ rest)
  end.

Definition escapeText (text : string) : string :=
  replace_all ">" "&gt;" (replace_all "<" "&lt;" (replace_all "&" "&amp;" text)).

(** The reading of an escaped text: an entity stands for its character,
    every other character for itself. *)
Fixpoint unescape (text : string) : string :=
  match text with
  | String "&" (String "a" (String "m" (String "p" (String ";" rest)))) =>
      String "&" (unescape rest)
  | String "&" (String "l" (String "t" (String ";" rest))) =>
      String "<" (unescape rest)
  | String "&" (String "g" (String "t" (String ";" rest))) =>
      String ">" (unescape rest)
  | String x rest => String x (unescape rest)
  | EmptyString => EmptyString
  end.

End SlackText.

(** ** Repository labels: the three [ensure...LabelsExist] functions *)

Module RepoLabels.
Import JS.

(** A label definition of the scripts' tables. *)
Record LabelDef : Type :=
  mkDef { name : string; color : string; description : string }.

(** A label of the repository as the listing returns it; its description
    may be [null]. *)
Record RepoLabel : Type :=
  mkRepoLabel { rl_name : string; rl_color : string;
                rl_description : option string }.

#[global] Instance LabelDef_eq_dec : EqDecision LabelDef.
Proof. solve_decision. Defined.

#[global] Instance RepoLabel_eq_dec : EqDecision RepoLabel.
Proof. solve_decision. Defined.

(** The repository label a definition asks for. *)
Definition canonical (d : LabelDef) : RepoLabel :=
  mkRepoLabel (name d) (color d) (Some (description d)).

Inductive Call : Type :=
| ListLabelsForRepo
| CreateLabel (label : LabelDef)
| UpdateLabel (label : LabelDef).

Record Event : Type := mkEvent { ev_call : Call; ev_error : option string }.

(** The labels of the repository and the requests issued so far. *)
Record World : Type :=
  mkWorld { repo_labels : list RepoLabel; trace : list Event }.

Definition Oracle : Type := list Event → Call → option string.

Definition M (A : Type) : Type := World → Completion A * World.

Definition ret {A} (a : A) : M A := λ w, (Return a, w).

Definition bind {A B} (m : M A) (k : A → M B) : M B := λ w,
  match m w with
  | (Return a, w') => k a w'
  | (Throw e, w') => (Throw e, w')
  end.

Definition try_catch {A} (body : M A) (handler : string → M A) : M A := λ w,
  match body w with
  | (Return a, w') => (Return a, w')
  | (Throw e, w') => handler e w'
  end.

Fixpoint for_of {X} (xs : list X) (body : X → M unit) : M unit :=
  match xs with
  | [] => ret tt
  | x :: rest => bind (body x) (λ _, for_of rest body)
  end.

(** Creating a label puts it at the end of the repository's labels;
    updating gives the label of that name the new colour and description. *)
Definition created (labels : list RepoLabel) (d : LabelDef) : list RepoLabel :=
  labels ++ [canonical d].

Definition updated (labels : list RepoLabel) (d : LabelDef) : list RepoLabel :=
  map (λ l, if bool_decide (rl_name l = name d) then canonical d else l) labels.

Section Client.
Variable api : Oracle.

Definition request {A} (c : Call)
    (respond : list RepoLabel → A * list RepoLabel) : M A := λ w,
  match api (trace w) c with
  | None =>
      let '(a, labels') := respond (repo_labels w) in
      (Return a, mkWorld labels' (trace w ++ [mkEvent c None]))
  | Some msg =>
      (Throw msg, mkWorld (repo_labels w) (trace w ++ [mkEvent c (Some msg)]))
  end.

(** [github.paginate(github.rest.issues.listLabelsForRepo, ...)] *)
Definition listLabelsForRepo : M (list RepoLabel) :=
  request ListLabelsForRepo (λ ls, (ls, ls)).

(** [github.rest.issues.createLabel] *)
Definition createLabel (label : LabelDef) : M unit :=
  request (CreateLabel label) (λ ls, (tt, created ls label)).

(** [github.rest.issues.updateLabel] *)
Definition updateLabel (label : LabelDef) : M unit :=
  request (UpdateLabel label) (λ ls, (tt, updated ls label)).

(** The body of the loop, the same in the three functions: create the
    label when the listing has none of that name, update it when its
    colour or description differs, and leave it alone otherwise. *)
Definition ensure_label (existingLabels : list RepoLabel) (label : LabelDef)
    : M unit :=
  let existingLabel :=
    snd <$> list_find (λ l, rl_name l = name label) existingLabels in
  match existingLabel with
  | None => try_catch (createLabel label) (λ _, ret tt)
  | Some existingLabel =>
      if bool_decide (rl_color existingLabel ≠ color label)
         || bool_decide (rl_description existingLabel ≠ Some (description label))
      then try_catch (updateLabel label) (λ _, ret tt)
      else ret tt
  end.

(** The listing followed by the loop over a table of definitions. *)
Definition ensure_table (table : list LabelDef) : M unit :=
  bind listLabelsForRepo (λ existingLabels,
    for_of table (ensure_label existingLabels)).
End Client.

Definition succeeded (e : Event) : Prop := ev_error e = None.

Definition issued (before : list Event) (after : World) : list Event :=
  drop (length before) (trace after).

Definition always_ok : Oracle := λ _ _, None.

(** [QA_LABELS] of build-status-labeler.js *)
Definition QA_LABELS : list LabelDef :=
  [ mkDef "qa:pending" "CEE0F5" "QA workflow needs to run";
    mkDef "qa:running" "FFA500" "QA workflow is currently running";
    mkDef "qa:success" "22863A" "QA workflow passed successfully";
    mkDef "qa:failed" "CB2431" "QA workflow failed" ].

(** [STATUS_LABELS] of pr-status-labeler.js *)
Definition STATUS_LABELS : list LabelDef :=
  [ mkDef "status:draft" "848484" "Pull request is in draft status";
    mkDef "status:ready-for-review" "FBCA04" "Pull request is ready for review";
    mkDef "status:approved" "28A745" "Pull request has been approved";
    mkDef "status:mergeable" "0E8A16"
          "Pull request is approved, tests pass, and ready to merge";
    mkDef "status:merged" "6F42C1" "Pull request has been merged";
    mkDef "status:abandoned" "C0C0C0" "Pull request was closed without merging" ].

(** [Object.entries(LABEL_DEFINITIONS)] of the PR labeler, in insertion
    order. *)
Definition LABEL_DEFINITIONS : list LabelDef :=
  [ mkDef "feat" "0E8A16" "New feature";
    mkDef "fix" "B60205" "Bug fix";
    mkDef "docs" "0075CA" "Documentation changes";
    mkDef "style" "C5DEF5" "Code style changes (formatting, etc)";
    mkDef "refactor" "FBF2C4" "Code refactoring";
    mkDef "perf" "FF6B6B" "Performance improvements";
    mkDef "test" "795AA0" "Test additions or modifications";
    mkDef "build" "727272" "Build system changes";
    mkDef "ci" "4A5568" "CI/CD configuration changes";
    mkDef "revert" "CF222E" "Revert previous commits";
    mkDef "chore" "F9C0C7" "Maintenance tasks";
    mkDef "dependencies" "FF9500" "Dependency updates";
    mkDef "breaking" "D93F0B" "Breaking changes";
    mkDef "status:draft" "848484" "Pull request is in draft status";
    mkDef "status:ready-for-review" "FBCA04" "Pull request is ready for review";
    mkDef "status:approved" "28A745" "Pull request has been approved";
    mkDef "status:mergeable" "0E8A16"
          "Pull request is approved, tests pass, and ready to merge";
    mkDef "status:merged" "6F42C1" "Pull request has been merged";
    mkDef "qa:pending" "CEE0F5" "QA workflow needs to run";
    mkDef "qa:running" "FFA500" "QA workflow is currently running";
    mkDef "qa:success" "22863A" "QA workflow passed successfully";
    mkDef "qa:failed" "CB2431" "QA workflow failed" ].

(** [ensureLabelsExist] of build-status-labeler.js *)
Definition ensureLabelsExist (api : Oracle) : M unit :=
  ensure_table api QA_LABELS.

(** [ensureStatusLabelsExist] of pr-status-labeler.js *)
Definition ensureStatusLabelsExist (api : Oracle) : M unit :=
  ensure_table api STATUS_LABELS.

(** [ensureLabelsExist] of the PR labeler *)
Definition ensureAllLabelsExist (api : Oracle) : M unit :=
  ensure_table api LABEL_DEFINITIONS.

(** The write a definition calls for, given the listing: a creation when
    no label has its name, an update when the first label of that name
    differs, nothing otherwise. *)
Definition planned (existing : list RepoLabel) (d : LabelDef) : list Call :=
  match snd <$> list_find (λ l, rl_name l = name d) existing with
  | None => [CreateLabel d]
  | Some l => if bool_decide (l = canonical d) then [] else [UpdateLabel d]
  end.

(** The effect of a successful write on the labels of the repository. *)
Definition apply_call (labels : list RepoLabel) (c : Call) : list RepoLabel :=
  match c with
  | ListLabelsForRepo => labels
  | CreateLabel d => created labels d
  | UpdateLabel d => updated labels d
  end.

(** The three tables the scripts maintain. *)
Definition tables : list (list LabelDef) :=
  [QA_LABELS; STATUS_LABELS; LABEL_DEFINITIONS].

End RepoLabels.

(** ** Slack notifier: the retrying Web API client *)

Module SlackClient.
Import JS.

Section Client.
(** What a response carries besides [ok], [error] and [retry_after]. *)
Variable Payload : Type.

(** The parsed body of a response. *)
Record Data : Type :=
  mkData { ok : bool; error : string; retry_after : option N;
           payload : Payload }.

(** One [fetch] with [response.json()]: a body, or an exception with its
    message. *)
Inductive Outcome : Type :=
| Responded (data : Data)
| Failed (message : string).

(** What a call does besides returning: the requests it sends and the
    two kinds of [setTimeout] waits, in milliseconds. *)
Inductive Effect : Type :=
| Fetch (attempt : nat)
| Backoff (ms : N)
| RateLimitWait (ms : N).

(** [Math.min(1000 * Math.pow(2, attempt - 1), 10000)] *)
Definition backoffTime (attempt : nat) : N :=
  N.min (1000 * 2 ^ N.of_nat (attempt - 1)) 10000.

(** [data.retry_after || 60] *)
Definition retryAfter (data : Data) : N :=
  match retry_after data with
  | Some (Npos p) => Npos p
  | Some N0 | None => 60
  end.

Definition is_network_error (message : string) : bool :=
  str_includes message "fetch failed" || str_includes message "ECONNRESET".

(** How one round of the loop ends: the call completes, or the loop goes
    on with the given [lastError]. *)
Inductive Step : Type :=
| Done (r : Completion Data)
| Continue (lastError : option string).

(** The [catch (error)] block of the loop body. *)
Definition catch_block (maxRetries attempt : nat) (message : string) : Step :=
  if is_network_error message then
    if attempt =? maxRetries then Done (Throw message)
    else Continue (Some message)
  else Done (Throw message).

(** The [try] block for a parsed body. *)
Definition on_response (maxRetries attempt : nat) (lastError : option string)
    (data : Data) : Step * list Effect :=
  if ok data then (Done (Return data), [])
  else
    let thrown := "Slack API error: " +:+ error data in
    if String.eqb (error data) "missing_scope" then
      (catch_block maxRetries attempt thrown, [])
    else if String.eqb (error data) "not_in_channel" then
      (catch_block maxRetries attempt thrown, [])
    else if String.eqb (error data) "channel_not_found" then
      (catch_block maxRetries attempt thrown, [])
    else if String.eqb (error data) "rate_limited" && (attempt <? maxRetries) then
      let retryAfter := retryAfter data in
      (Continue lastError, [RateLimitWait (retryAfter * 1000)])
    else if attempt =? maxRetries then
      (catch_block maxRetries attempt thrown, [])
    else (Continue (Some thrown), []).

(** One round of the loop for the attempt's outcome. *)
Definition round (net : nat → Outcome) (maxRetries attempt : nat)
    (lastError : option string) : Step * list Effect :=
  let before := if 0 <? attempt then [Backoff (backoffTime attempt)] else [] in
  match net attempt with
  | Responded data =>
      let '(step, after) := on_response maxRetries attempt lastError data in
      (step, before ++ Fetch attempt :: after)
  | Failed message =>
      (catch_block maxRetries attempt message, before ++ [Fetch attempt])
  end.

(** The [for] loop with [remaining] rounds to go, and the [throw] after
    it. *)
Fixpoint rounds (net : nat → Outcome) (maxRetries remaining attempt : nat)
    (lastError : option string) : Completion Data * list Effect :=
  match remaining with
  | O =>
      (Throw (default ("Failed after " +:+ pretty maxRetries +:+ " retries")
                      lastError), [])
  | S remaining' =>
      match round net maxRetries attempt lastError with
      | (Done r, effects) => (r, effects)
      | (Continue lastError', effects) =>
          let '(r, later) :=
            rounds net maxRetries remaining' (S attempt) lastError' in
          (r, effects ++ later)
      end
  end.

(** [slackApi(method, params, maxRetries)], where [net] gives the outcome
    of each attempt's request. *)
Definition slackApi (net : nat → Outcome) (maxRetries : nat)
    : Completion Data * list Effect :=
  rounds net maxRetries (S maxRetries) 0 None.

(** An outcome after which the loop tries again when attempts are left:
    a body with [ok] false and an error other than the three permission
    and channel errors, or a network exception. *)
Definition retryable (o : Outcome) : bool :=
  match o with
  | Responded data =>
      negb (ok data)
      && negb (bool_decide (error data ∈
                 ["missing_scope"; "not_in_channel"; "channel_not_found"]))
  | Failed message => is_network_error message
  end.

(** What the call completes with when the given outcome decides it. *)
Definition verdict (o : Outcome) : Completion Data :=
  match o with
  | Responded data =>
      if ok data then Return data
      else Throw ("Slack API error: " +:+ error data)
  | Failed message => Throw message
  end.

(** The effects of one attempt that is followed by another. *)
Definition retried (net : nat → Outcome) (attempt : nat) : list Effect :=
  (if 0 <? attempt then [Backoff (backoffTime attempt)] else [])
  ++ Fetch attempt
  :: match net attempt with
     | Responded data =>
         if String.eqb (error data) "rate_limited" then
           [RateLimitWait (retryAfter data * 1000)]
         else []
     | Failed _ => []
     end.

(** The effects of the attempt that decides the call. *)
Definition decided (attempt : nat) : list Effect :=
  (if 0 <? attempt then [Backoff (backoffTime attempt)] else [])
  ++ [Fetch attempt].

(** The attempts sent and the backoff waits among some effects. *)
Definition fetches (effects : list Effect) : list nat :=
  omap (λ e, match e with Fetch a => Some a | _ => None end) effects.

Definition backoffs (effects : list Effect) : list N :=
  omap (λ e, match e with Backoff ms => Some ms | _ => None end) effects.

End Client.

Arguments mkData {Payload} ok error retry_after payload.
Arguments ok {Payload} d.
Arguments error {Payload} d.
Arguments retry_after {Payload} d.
Arguments retryAfter {Payload} data.
Arguments payload {Payload} d.
Arguments Responded {Payload} data.
Arguments Failed {Payload} message.
Arguments Done {Payload} r.
Arguments Continue {Payload} lastError.
Arguments catch_block {Payload} maxRetries attempt message.
Arguments on_response {Payload} maxRetries attempt lastError data.
Arguments round {Payload} net maxRetries attempt lastError.
Arguments rounds {Payload} net maxRetries remaining attempt lastError.
Arguments slackApi {Payload} net maxRetries.
Arguments retryable {Payload} o.
Arguments verdict {Payload} o.
Arguments retried {Payload} net attempt.

End SlackClient.

(** ** Regular expressions: the repetition loop and the groups of a
    pattern, for reasoning about the matcher *)

Module RegexLoop.
Import Regex.

Section Loop.
(** The matcher of the repeated expression and the continuation of the
    repetition. *)
Variable inner :
  string → captures → (string → captures → option captures) → option captures.
Variable k : string → captures → option captures.

(** The loop [run] enters for [Plus]. *)
Fixpoint iterate (fuel : nat) (first : bool) (s : string) (caps : captures)
    {struct fuel} : option captures :=
  inner s caps (λ s' caps',
    if negb first && (String.length s' =? String.length s) then None
    else
      match
        match fuel with
        | S fuel' => iterate fuel' false s' caps'
        | O => None
        end
      with
      | Some c => Some c
      | None => k s' caps'
      end).
End Loop.

(** The numbers of the capturing groups of a pattern. *)
Fixpoint groups (r : regex) : list nat :=
  match r with
  | Lit _ | Dot => []
  | Cat r1 r2 | Alt r1 r2 => groups r1 ++ groups r2
  | Opt r1 | Plus r1 => groups r1
  | Group n r1 => n :: groups r1
  end.

(** A text [.+] can run over: no line terminator (line feed, carriage
    return, U+2028, U+2029) starts anywhere in it. *)
Fixpoint one_line (s : string) : bool :=
  match s with
  | EmptyString => true
  | String c rest => negb (is_line_terminator s) && one_line rest
  end.

End RegexLoop.

(** ** The labeler's vocabulary *)

Module LabelerVocabulary.

(** The types of the type pattern, in the order of its alternatives. *)
Definition type_names : list string :=
  ["feat"; "fix"; "docs"; "style"; "refactor"; "perf"; "test"; "build";
   "ci"; "revert"].

(** The types of the dependency pattern. *)
Definition dependency_types : list string := ["chore"; "fix"; "build"].

(** The draft-or-ready label. *)
Definition draft_label (pr_draft : bool) : string :=
  if pr_draft then "status:draft" else "status:ready-for-review".

End LabelerVocabulary.

(** ** Slack notifier: reconciling the reactions on the message *)

Module SlackReactions.
Import JS SlackNotifier SlackText.

(** A reaction of a message: its emoji and the users who gave it, a field
    that may be missing. *)
Record Reaction : Type :=
  mkReaction { r_name : string; users : option (list string) }.

(** A message of the channel history; [reactions] may be missing. *)
Record Message : Type := mkMessage { reactions : option (list Reaction) }.

(** The calls the reaction manager makes through [slackApi]. *)
Inductive Call : Type :=
| ConversationsHistory
| ReactionsRemove (name : string)
| ReactionsAdd (name : string).

(** [slackApi] as the reaction manager receives it: given the calls made
    so far and the next call, the call returns a response, of which only
    the field [messages] is read, or throws. *)
Definition SlackApi : Type :=
  list Call → Call → Completion (option (list Message)).

(** A computation over the list of calls made. *)
Definition M (A : Type) : Type := list Call → Completion A * list Call.

Definition ret {A} (a : A) : M A := λ calls, (Return a, calls).

Definition bind {A B} (m : M A) (k : A → M B) : M B := λ calls,
  match m calls with
  | (Return a, calls') => k a calls'
  | (Throw e, calls') => (Throw e, calls')
  end.

Definition try_catch {A} (body : M A) (handler : string → M A) : M A :=
  λ calls,
    match body calls with
    | (Return a, calls') => (Return a, calls')
    | (Throw e, calls') => handler e calls'
    end.

(** [array.sort()] on strings: ascending by character code. *)
Fixpoint insert_sorted (x : string) (l : list string) : list string :=
  match l with
  | [] => [x]
  | y :: rest =>
      if String.leb x y then x :: l else y :: insert_sorted x rest
  end.

Definition sort (l : list string) : list string := foldr insert_sorted [] l.

(** [r.users && r.users.length > 0] *)
Definition has_users (r : Reaction) : bool :=
  match users r with
  | Some (_ :: _) => true
  | Some [] | None => false
  end.

(** [(message.reactions || []).filter(...).map((r) => r.name)] *)
Definition reaction_names (message : Message) : list string :=
  map r_name (filter (λ r, has_users r) (default [] (reactions message))).

(** [new Set(Object.values(statusReactions))] *)
Definition allStatusReactions : gset string :=
  list_to_set (snd <$> map_to_list statusReactions).

Section WithApi.
Variable slackApi : SlackApi.

Definition call (c : Call) : M (option (list Message)) := λ calls,
  (slackApi calls c, calls ++ [c]).

(** The loop over [delta.remove] with the counters it updates. *)
Fixpoint remove_loop (toRemove : list string) (changesMade : nat)
    (errors : list string) : M (nat * list string) :=
  match toRemove with
  | [] => ret (changesMade, errors)
  | reaction :: rest =>
      bind (try_catch
              (bind (call (ReactionsRemove reaction)) (λ _,
                 ret (S changesMade, errors)))
              (λ message,
                 if str_includes message "no_reaction"
                 then ret (changesMade, errors)
                 else ret (changesMade,
                           errors ++ ["Failed to remove " +:+ reaction
                                        +:+ ": " +:+ message])))
           (λ '(changesMade, errors), remove_loop rest changesMade errors)
  end.

(** The loop over [delta.add]. *)
Fixpoint add_loop (toAdd : list string) (changesMade : nat)
    (errors : list string) : M (nat * list string) :=
  match toAdd with
  | [] => ret (changesMade, errors)
  | reaction :: rest =>
      bind (try_catch
              (bind (call (ReactionsAdd reaction)) (λ _,
                 ret (S changesMade, errors)))
              (λ message,
                 if str_includes message "already_reacted"
                 then ret (changesMade, errors)
                 else ret (changesMade,
                           errors ++ ["Failed to add " +:+ reaction
                                        +:+ ": " +:+ message])))
           (λ '(changesMade, errors), add_loop rest changesMade errors)
  end.

(** The two loops of the full reset, whose errors are only printed. *)
Fixpoint reset_loop (mk : string → Call) (names : list string) : M unit :=
  match names with
  | [] => ret tt
  | reaction :: rest =>
      bind (try_catch (bind (call (mk reaction)) (λ _, ret tt))
                      (λ _, ret tt))
           (λ _, reset_loop mk rest)
  end.

Definition verifySanity (desiredReactions : list string) : M unit :=
  try_catch
    (bind (call ConversationsHistory) (λ messages,
       match messages with
       | None | Some [] => ret tt
       | Some (message :: _) =>
           let actualReactions := reaction_names message in
           let actualManagedReactions :=
             filter (λ r, r ∈ allStatusReactions) actualReactions in
           (* both arrays are sorted in place *)
           let desiredReactions := sort desiredReactions in
           let actualManagedReactions := sort actualManagedReactions in
           if bool_decide (desiredReactions = actualManagedReactions)
           then ret tt
           else
             bind (reset_loop ReactionsRemove actualManagedReactions) (λ _,
               reset_loop ReactionsAdd desiredReactions)
       end))
    (λ _, ret tt).

Definition manageReactionsEfficiently (labels : list Label)
    (isPRMerged : bool) : M unit :=
  try_catch
    (bind (call ConversationsHistory) (λ messages,
       match messages with
       | None | Some [] => ret tt
       | Some (message :: _) =>
           let currentReactions := reaction_names message in
           let desiredReactions :=
             calculateDesiredReactions labels isPRMerged statusReactions
               exclusiveGroups in
           let currentManagedReactions :=
             filter (λ r, r ∈ allStatusReactions) currentReactions in
           let delta := calculateDelta currentManagedReactions desiredReactions in
           bind (remove_loop (remove delta) 0 []) (λ '(changesMade, errors),
             bind (add_loop (add delta) changesMade errors)
               (λ '(changesMade, errors),
                  if (0 <? changesMade) || (0 <? length errors)
                  then verifySanity desiredReactions
                  else ret tt))
       end))
    (λ _, ret tt).
End WithApi.

(** The seven emoji the notifier manages. *)
Definition managed : list string :=
  ["hourglass_flowing_sand"; "runner"; "white_check_mark"; "x";
   "eyes"; "thumbsup"; "rocket"].

(** Whether a write of the first pass ends in the one error the manager
    takes for a lost race: [no_reaction] on removing, [already_reacted] on
    adding.  Such a write counts neither as a change nor as an error. *)
Definition benign (slackApi : SlackApi) (done : list Call) (c : Call) : bool :=
  match c, slackApi done c with
  | ReactionsRemove _, Throw message => str_includes message "no_reaction"
  | ReactionsAdd _, Throw message => str_includes message "already_reacted"
  | _, _ => false
  end.

(** Whether every call of [phase], issued in turn after [done], is benign. *)
Fixpoint all_benign (slackApi : SlackApi) (done phase : list Call) : bool :=
  match phase with
  | [] => true
  | c :: rest =>
      benign slackApi done c && all_benign slackApi (done ++ [c]) rest
  end.

End SlackReactions.

(** ** Slack notifier: the timestamp kept in a pull-request comment *)

Module SlackTimestamp.
Import JS Regex.

(** [[0-9.]]: one of eleven characters. *)
Definition TS_CHAR : regex :=
  alt_of "0" ["1"; "2"; "3"; "4"; "5"; "6"; "7"; "8"; "9"; "."].

(** [/<!-- slack-ts:([0-9.]+) -->/] *)
Definition SLACK_TS_RE : regex :=
  Cat (Lit "<!-- slack-ts:") (Cat (Group 1 (Plus TS_CHAR)) (Lit " -->")).

(** [str.match(/r/)] for a pattern without anchor and flags: the match is
    tried at every position from left to right. *)
Fixpoint search (r : regex) (str : string) : option captures :=
  match match_anchored r str with
  | Some caps => Some caps
  | None =>
      match str with
      | String _ rest => search r rest
      | EmptyString => None
      end
  end.

(** [const match = body.match(...); if (match) slackTs = match[1]]: the
    timestamp read from a comment, [None] when [slackTs] keeps its
    [null]. *)
Definition readSlackTs (body : string) : option string :=
  match search SLACK_TS_RE body with
  | Some caps => capture 1 caps
  | None => None
  end.

(** The marker by which a comment is taken to hold the timestamp. *)
Definition TS_MARKER : string := "<!-- slack-ts:".

(** The body of the lock comment. *)
Definition LOCK_BODY : string := "<!-- slack-creating-lock -->".

Definition newline : string := String "010"%char EmptyString.

(** The body the lock comment is given once the message is sent. *)
Definition commentBody (ts : string) : string :=
  ("<!-- slack-ts:" +:+ ts +:+ " -->") +:+ newline
    +:+ ("To view in Slack, search for: " +:+ ts).

(** A text made of digits and dots only. *)
Definition is_ts_char (c : Ascii.ascii) : bool :=
  bool_decide (String c EmptyString
                 ∈ ["0"; "1"; "2"; "3"; "4"; "5"; "6"; "7"; "8"; "9"; "."]).

Fixpoint ts_text (s : string) : bool :=
  match s with
  | EmptyString => true
  | String c rest => is_ts_char c && ts_text rest
  end.

End SlackTimestamp.

(** ** Slack notifier: the main flow *)

Module SlackPrNotifier.
Import JS SlackNotifier SlackTimestamp.

(** A comment of the pull request; [body] may be missing. *)
Record Comment : Type := mkComment { id : N; body : option string }.

(** What is read of the response to [chat.postMessage]. *)
Record Posted : Type := mkPosted { ts : option string }.

(** The environment variables that decide what the notifier does; a
    variable that is not set is [None]. *)
Record Env : Type := mkEnv {
  SLACK_BOT_TOKEN : option string;
  SLACK_CHANNEL_ID : option string;
  PR_AUTHOR_TYPE : option string;
  IS_ABANDONED : option string
}.

(** Truthiness of a value that is a string, [undefined] or [null]. *)
Definition given (v : option string) : bool :=
  match v with
  | Some s => truthy s
  | None => false
  end.

(** [c.body && c.body.includes("<!-- slack-ts:")] *)
Definition has_marker (c : Comment) : bool :=
  match body c with
  | Some b => truthy b && str_includes b TS_MARKER
  | None => false
  end.

(** The timestamp a comment with a body holds, if the pattern matches. *)
Definition comment_ts (c : Comment) : option string :=
  match body c with
  | Some b => readSlackTs b
  | None => None
  end.

(** The timestamp found in the comments: that of the first comment with
    the marker, when the pattern matches it. *)
Definition existingSlackTs (comments : list Comment) : option string :=
  match find has_marker comments with
  | Some slackComment => comment_ts slackComment
  | None => None
  end.

Section Notifier.
(** The block layout of a message, which the flow only passes on. *)
Variable Blocks : Type.

(** The requests to GitHub and to Slack, and the waits between two
    attempts to send the message. *)
Inductive Call : Type :=
| ReposGet
| ListLabelsOnIssue
| PullsGet
| ListComments
| CreateComment (body : string)
| DeleteComment (comment_id : N)
| UpdateComment (comment_id : N) (body : string)
| ChatPostMessage (blocks : Blocks)
| ChatUpdate (ts : option string) (blocks : Blocks)
| Reaction (ts : string) (c : SlackReactions.Call)
| Wait (ms : N).

(** The other side: how each request completes, given the calls made
    before it.  [repos_get] gives [repo.private], [listLabelsOnIssue] the
    labels ([None] when the response is not an array), [pulls_get] whether
    [pr.merged === true], [createComment] the id of the new comment. *)
Record Remote : Type := mkRemote {
  repos_get : list Call → Completion bool;
  listLabelsOnIssue : list Call → Completion (option (list Label));
  pulls_get : list Call → Completion bool;
  listComments : list Call → Completion (list Comment);
  createComment : list Call → string → Completion N;
  deleteComment : list Call → N → Completion unit;
  updateComment : list Call → N → string → Completion unit;
  chat : list Call → Call → Completion Posted;
  reactions : list Call → string → SlackReactions.Call
              → Completion (option (list SlackReactions.Message))
}.

Definition M (A : Type) : Type := list Call → Completion A * list Call.

Definition ret {A} (a : A) : M A := λ calls, (Return a, calls).

Definition throw {A} (message : string) : M A := λ calls,
  (Throw message, calls).

Definition bind {A B} (m : M A) (k : A → M B) : M B := λ calls,
  match m calls with
  | (Return a, calls') => k a calls'
  | (Throw e, calls') => (Throw e, calls')
  end.

Definition try_catch {A} (body : M A) (handler : string → M A) : M A :=
  λ calls,
    match body calls with
    | (Return a, calls') => (Return a, calls')
    | (Throw e, calls') => handler e calls'
    end.

(** One request: it is recorded and completes as the other side says. *)
Definition request {A} (c : Call) (answer : list Call → Completion A) : M A :=
  λ calls, (answer calls, calls ++ [c]).

(** [await new Promise((resolve) => setTimeout(resolve, ms))] *)
Definition wait (ms : N) : M unit := λ calls, (Return tt, calls ++ [Wait ms]).

Variable remote : Remote.

(** *** [sendMessage] *)

Section SendMessage.
(** The variables of the enclosing function that [sendMessage] reads. *)
Variable messageBlocks simplifiedBlocks : Blocks.
Variable isMerged isAbandoned : bool.
Variable slackTs : option string.

(** The request of one attempt and the [result] it leaves. *)
Definition send (isNew : bool) (blocks : Blocks) : M (option Posted) :=
  if isNew then
    bind (request (ChatPostMessage blocks)
            (λ calls, chat remote calls (ChatPostMessage blocks)))
         (λ result, ret (Some result))
  else
    bind (request (ChatUpdate slackTs blocks)
            (λ calls, chat remote calls (ChatUpdate slackTs blocks)))
         (λ _, ret None).

Definition maxRetries : nat := 2.

Definition fallbackBlocks : Blocks :=
  if isMerged || isAbandoned then messageBlocks else simplifiedBlocks.

(** The [while] loop; [fuel] bounds the number of rounds. *)
Fixpoint send_loop (fuel : nat) (isNew : bool) (retryCount : nat)
    : M (option Posted) :=
  match fuel with
  | O => ret None
  | S fuel' =>
      if retryCount <=? maxRetries then
        try_catch (send isNew messageBlocks)
          (λ message,
             if str_includes message "invalid_blocks"
                && (retryCount <? maxRetries)
             then
               let retryCount := S retryCount in
               bind (wait (1000 * N.of_nat retryCount)) (λ _,
                 send_loop fuel' isNew retryCount)
             else if str_includes message "invalid_blocks" then
               send isNew fallbackBlocks
             else throw message)
      else ret None
  end.

Definition sendMessage (isNew : bool) : M (option Posted) :=
  send_loop (S maxRetries) isNew 0.
End SendMessage.

(** *** The exported function *)

(** The blocks built from the labels and the state of the pull request. *)
Variable buildBlocks :
  bool → bool → bool → option string → list Label → Blocks.
Variable simplifiedBlocks : Blocks.

(** [manageReactionsEfficiently] with the [slackApi] of this run. *)
Definition manageReactions (slackTs : string) (labels : list Label)
    (isPRMerged : bool) : M unit := λ calls,
  let slackApi : SlackReactions.SlackApi := λ done c,
    reactions remote (calls ++ map (Reaction slackTs) done) slackTs c in
  let '(completion, done) :=
    SlackReactions.manageReactionsEfficiently slackApi labels isPRMerged [] in
  (completion, calls ++ map (Reaction slackTs) done).

(** The branch [if (!slackTs)]: creating the message under a lock
    comment.  The result is the value of [slackTs] afterwards. *)
Definition createMessage (messageBlocks : Blocks) (isMerged isAbandoned : bool)
    (slackTs : option string) : M (option string) :=
  bind (request (CreateComment LOCK_BODY)
          (λ calls, createComment remote calls LOCK_BODY)) (λ lockId,
  bind (request ListComments (listComments remote)) (λ currentComments,
  match find (λ c, has_marker c && negb (id c =? lockId)%N) currentComments with
  | Some existingComment =>
      bind (request (DeleteComment lockId)
              (λ calls, deleteComment remote calls lockId)) (λ _,
        match comment_ts existingComment with
        | Some found => ret (Some found)
        | None => ret slackTs
        end)
  | None =>
      bind (sendMessage messageBlocks simplifiedBlocks isMerged isAbandoned
              slackTs true) (λ result,
        let cleanUp :=
          bind (try_catch
                  (request (DeleteComment lockId)
                     (λ calls, deleteComment remote calls lockId))
                  (λ _, ret tt)) (λ _, ret slackTs) in
        match result with
        | Some posted =>
            match ts posted with
            | Some sent =>
                if truthy sent then
                  bind (request (UpdateComment lockId (commentBody sent))
                          (λ calls, updateComment remote calls lockId
                                      (commentBody sent))) (λ _,
                    ret (Some sent))
                else cleanUp
            | None => cleanUp
            end
        | None => cleanUp
        end)
  end)).

(** The exported function from its first [try] on, after the four
    reads: the three early returns, then the message and its reactions. *)
Definition proceed (env : Env) (isPrivateRepo : bool) (labels : list Label)
    (isPRMerged : bool) (comments : list Comment) : M unit :=
  let slackTs := existingSlackTs comments in
  if bool_decide (PR_AUTHOR_TYPE env = Some "Bot") then ret tt
  else if has_label labels "status:draft" then ret tt
  else if negb (given slackTs)
          && (has_label labels "status:merged" || isPRMerged)
  then ret tt
  else
    let isMerged := has_label labels "status:merged" || isPRMerged in
    let isAbandoned := bool_decide (IS_ABANDONED env = Some "true") in
    let messageBlocks :=
      buildBlocks isMerged isAbandoned isPrivateRepo slackTs labels in
    bind (if negb (given slackTs)
          then createMessage messageBlocks isMerged isAbandoned slackTs
          else
            bind (sendMessage messageBlocks simplifiedBlocks isMerged
                    isAbandoned slackTs false) (λ _, ret slackTs))
      (λ slackTs,
         match slackTs with
         | Some found =>
             if truthy found
             then manageReactions found labels isPRMerged
             else ret tt
         | None => ret tt
         end).

(** The [catch] of the exported function. *)
Definition handler (message : string) : M unit :=
  if str_includes message "not_authed" then ret tt else throw message.

Definition notify (env : Env) : M unit :=
  if negb (given (SLACK_BOT_TOKEN env)) || negb (given (SLACK_CHANNEL_ID env))
  then ret tt
  else
    try_catch
      (bind (request ReposGet (repos_get remote)) (λ isPrivateRepo,
       bind (request ListLabelsOnIssue (listLabelsOnIssue remote)) (λ data,
       let labels := default [] data in
       bind (try_catch (request PullsGet (pulls_get remote))
                       (λ _, ret false)) (λ isPRMerged,
       bind (request ListComments (listComments remote)) (λ comments,
       proceed env isPrivateRepo labels isPRMerged comments)))))
      handler.

End Notifier.

Arguments ReposGet {Blocks}.
Arguments ListLabelsOnIssue {Blocks}.
Arguments PullsGet {Blocks}.
Arguments ListComments {Blocks}.
Arguments CreateComment {Blocks} body.
Arguments DeleteComment {Blocks} comment_id.
Arguments UpdateComment {Blocks} comment_id body.
Arguments ChatPostMessage {Blocks} blocks.
Arguments ChatUpdate {Blocks} ts blocks.
Arguments Reaction {Blocks} ts c.
Arguments Wait {Blocks} ms.

Arguments repos_get {Blocks} r calls.
Arguments listLabelsOnIssue {Blocks} r calls.
Arguments pulls_get {Blocks} r calls.
Arguments listComments {Blocks} r calls.
Arguments createComment {Blocks} r calls body.
Arguments deleteComment {Blocks} r calls comment_id.
Arguments updateComment {Blocks} r calls comment_id body.
Arguments chat {Blocks} r calls c.
Arguments reactions {Blocks} r calls ts c.
Arguments ret {Blocks A} a calls.
Arguments throw {Blocks A} message calls.
Arguments bind {Blocks A B} m k calls.
Arguments try_catch {Blocks A} body handler calls.
Arguments request {Blocks A} c answer calls.
Arguments wait {Blocks} ms calls.
Arguments send {Blocks} remote slackTs isNew blocks calls.
Arguments fallbackBlocks {Blocks} messageBlocks simplifiedBlocks
  isMerged isAbandoned.
Arguments send_loop {Blocks} remote messageBlocks simplifiedBlocks
  isMerged isAbandoned slackTs fuel isNew retryCount calls.
Arguments sendMessage {Blocks} remote messageBlocks simplifiedBlocks
  isMerged isAbandoned slackTs isNew calls.
Arguments manageReactions {Blocks} remote slackTs labels isPRMerged calls.
Arguments createMessage {Blocks} remote simplifiedBlocks messageBlocks
  isMerged isAbandoned slackTs calls.
Arguments proceed {Blocks} remote buildBlocks simplifiedBlocks env
  isPrivateRepo labels isPRMerged comments calls.
Arguments handler {Blocks} message calls.
Arguments notify {Blocks} remote buildBlocks simplifiedBlocks env calls.

(** The four reads every run with credentials starts with. *)
Definition reads {Blocks} : list (Call Blocks) :=
  [ReposGet; ListLabelsOnIssue; PullsGet; ListComments].

End SlackPrNotifier.

(** ** Slack notifier: the status line *)

Module SlackStatusLine.
Import JS SlackNotifier.

(** An entry [{ label, text }] of the three mapping tables. *)
Record Mapping : Type := mkMapping { label : string; text : string }.

Definition statusLabels : list Mapping :=
  [ mkMapping "status:draft" ":pencil2: Draft";
    mkMapping "status:ready-for-review" ":mag: Ready for Review";
    mkMapping "status:in-review" ":eyes: In Review";
    mkMapping "qa:running" ":hourglass_flowing_sand: QA Running";
    mkMapping "qa:failed" ":x: QA Failed";
    mkMapping "qa:success" ":white_check_mark: QA Passed";
    mkMapping "status:changes-requested" ":warning: Changes Requested";
    mkMapping "status:approved" ":white_check_mark: Approved";
    mkMapping "status:on-hold" ":pause_button: On Hold";
    mkMapping "status:blocked" ":octagonal_sign: Blocked";
    mkMapping "status:ready-to-merge" ":rocket: Ready to Merge";
    mkMapping "status:merged" ":tada: Merged" ].

Definition priorityLabels : list Mapping :=
  [ mkMapping "priority:critical" ":rotating_light:";
    mkMapping "priority:high" ":arrow_up:";
    mkMapping "priority:medium" ":arrow_right:";
    mkMapping "priority:low" ":arrow_down:" ].

Definition categoryLabels : list Mapping :=
  [ mkMapping "type:bug" ":bug:";
    mkMapping "type:feature" ":sparkles:";
    mkMapping "type:refactor" ":recycle:";
    mkMapping "type:test" ":test_tube:";
    mkMapping "type:docs" ":books:";
    mkMapping "type:chore" ":wrench:";
    mkMapping "type:style" ":art:";
    mkMapping "type:perf" ":zap:";
    mkMapping "type:security" ":shield:";
    mkMapping "type:breaking" ":boom:" ].

(** [labels.some((l) => l.name === m.label)] as the test of [find] and
    [filter]. *)
Definition active (labels : list Label) (m : Mapping) : bool :=
  has_label labels (label m).

(** [if (found) statusTexts.push(found.text)] *)
Definition pushed (found : option Mapping) : list string :=
  match found with
  | Some m => [text m]
  | None => []
  end.

Definition statusTexts (labels : list Label) : list string :=
  pushed (List.find (active labels) statusLabels)
    ++ pushed (List.find (active labels) priorityLabels)
    ++ map text (List.filter (active labels) categoryLabels).

Definition statusString (labels : list Label) : string :=
  if 0 <? length (statusTexts labels)
  then String.concat " " (statusTexts labels) +:+ " "
  else "".

End SlackStatusLine.

(** * Properties *)

Import JS.

(** Closed decidable statements are settled by evaluating their decision
    procedure. *)
Ltac by_computation := apply (bool_decide_unpack _); vm_compute; exact I.

(** ** Shared facts about the JavaScript primitives *)

Lemma includes_true l x : includes l x = true ↔ x ∈ l.
Proof. unfold includes. apply bool_decide_eq_true. Qed.

Lemma includes_false l x : includes l x = false ↔ x ∉ l.
Proof. unfold includes. apply bool_decide_eq_false. Qed.

Lemma string_eqb_decide (a b : string) : String.eqb a b = bool_decide (a = b).
Proof.
  destruct (String.eqb_spec a b) as [->|Hne].
  - by rewrite bool_decide_eq_true_2.
  - by rewrite bool_decide_eq_false_2.
Qed.

(** ** PR status label: the priority chain *)

Section StatusChain.
Import PrStatusLabeler.

(** C1.  For every input tuple the label chosen by [updatePRStatusLabel]
    is the first match of the priority chain merged, abandoned, draft,
    approved-and-QA-success, approved, with [status:ready-for-review] as
    the default. *)
Theorem desiredLabel_first_match
    (isDraft hasApproval : bool) (qaStatus : string) (isMerged isAbandoned : bool) :
  desiredLabel isDraft hasApproval qaStatus isMerged isAbandoned
  = first_match
      (priority_chain isDraft hasApproval qaStatus isMerged isAbandoned)
      "status:ready-for-review".
Proof.
  unfold desiredLabel, priority_chain. rewrite string_eqb_decide.
  destruct isMerged, isAbandoned, isDraft, hasApproval; simpl;
    try reflexivity; by case_bool_decide.
Qed.

Example draft_scenario :
  desiredLabel true false "pending" false false = "status:draft".
Proof. reflexivity. Qed.

Example mergeable_scenario :
  desiredLabel false true "success" false false = "status:mergeable".
Proof. reflexivity. Qed.
End StatusChain.

(** ** Review checker *)

Section ReviewChecker.
Import PrReviewChecker.




(** A review that does not approve is never asked for its user. *)
Example approval_beside_ghost_comment :
  checkApproval
    (Return [ mkReview "COMMENTED" None;
              mkReview "APPROVED" (Some (mkUser "hubot")) ]) "octocat"
  = Return true.
Proof. reflexivity. Qed.


Lemma read_back_label_precedence labels :
  read_back label_precedence labels
  = if includes labels "qa:success" then "success"
    else if includes labels "qa:failed" then "failed"
    else if includes labels "qa:running" then "running"
    else if includes labels "qa:pending" then "pending"
    else "pending".
Proof. reflexivity. Qed.

Lemma includes_without_qa labels l :
  l ∈ map fst label_precedence →
  includes (filter (λ x, x ∉ map fst label_precedence) labels) l = false.
Proof.
  intros Hl. apply includes_false. rewrite list_elem_of_filter. tauto.
Qed.

(** C7.  On a [pull_request_review] event the status is read back from
    the labels of the pull request with the precedence success, failed,
    running, pending (which decides when several QA labels are present),
    and is [pending] when no QA label is present. *)
Theorem determineQAStatus_review (labels : list string)
    (qaResult secretScanningResult : option string) :
  determineQAStatus (Return labels) "pull_request_review"
                    qaResult secretScanningResult
  = Return (read_back label_precedence labels)
  ∧ determineQAStatus
      (Return (filter (λ x, x ∉ map fst label_precedence) labels))
      "pull_request_review" qaResult secretScanningResult
    = Return "pending".
Proof.
  split; [reflexivity|].
  unfold determineQAStatus. simpl String.eqb. cbv iota.
  rewrite !includes_without_qa; [done|..]; simpl; set_solver.
Qed.

Example several_qa_labels :
  determineQAStatus (Return ["qa:pending"; "qa:failed"; "bug"; "qa:success"])
                    "pull_request_review" None None = Return "success"
  ∧ determineQAStatus (Return ["qa:pending"; "qa:running"; "qa:failed"])
                      "pull_request_review" None None = Return "failed".
Proof. split; reflexivity. Qed.
End ReviewChecker.

(** ** Conventional-commit labeler *)

Section Labeler.
Import Regex PrLabeler.

Example title_fix_scope :
  analyzePRAndApplyLabels "fix(api): handle nulls" "" false
  = ["fix"; "status:ready-for-review"].
Proof. reflexivity. Qed.

Example title_deps :
  analyzePRAndApplyLabels "chore(deps): bump lodash" "" false
  = ["dependencies"; "status:ready-for-review"].
Proof. reflexivity. Qed.

Example title_scope_bang :
  analyzePRAndApplyLabels "feat(api)!: new flow" "" false
  = ["chore"; "breaking"; "status:ready-for-review"].
Proof. reflexivity. Qed.

(** [.] does not run over U+2028 or U+2029: a scope that holds one is no
    scope, with or without the [!]. *)
Example title_line_separator :
  analyzePRAndApplyLabels ("feat(a" +:+ Regex.LINE_SEPARATOR +:+ "b): x")
    "" false
  = ["chore"; "status:ready-for-review"]
  ∧ analyzePRAndApplyLabels
      ("feat(a" +:+ Regex.PARAGRAPH_SEPARATOR +:+ "b)!: x") "" false
    = ["chore"; "status:ready-for-review"].
Proof. split; reflexivity. Qed.

(** C4.  What the labeler computes for the title [feat!: new flow]: the
    type pattern requires the colon right after the type or the scope, so
    the [!] makes it fail and the type label falls back to [chore]; the
    breaking pattern matches and adds [breaking].  The label [feat] is not
    among the labels, whatever the body and the draft flag are. *)
Theorem feat_bang_labels (prBody : string) (pr_draft : bool) :
  analyzePRAndApplyLabels "feat!: new flow" prBody pr_draft
  = ["chore"; "breaking";
     if pr_draft then "status:draft" else "status:ready-for-review"]
  ∧ "feat" ∉ analyzePRAndApplyLabels "feat!: new flow" prBody pr_draft.
Proof.
  assert (Hd : match_anchored DEPS_RE "feat!: new flow" = None)
    by reflexivity.
  assert (Ht : match_anchored TYPE_RE "feat!: new flow" = None)
    by reflexivity.
  assert (Hb : match_anchored BREAKING_RE "feat!: new flow"
               = Some [(1, "feat")]) by reflexivity.
  assert (Heq : analyzePRAndApplyLabels "feat!: new flow" prBody pr_draft
                = ["chore"; "breaking";
                   if pr_draft then "status:draft"
                   else "status:ready-for-review"]).
  { unfold analyzePRAndApplyLabels. rewrite Hd, Ht, Hb.
    by destruct pr_draft. }
  split; [exact Heq|]. rewrite Heq.
  destruct pr_draft; by_computation.
Qed.
End Labeler.

(** ** Reaction selection *)

Section Reactions.
Import SlackNotifier.

Lemma has_label_true labels n :
  has_label labels n = true ↔ n ∈ map name labels.
Proof.
  unfold has_label. rewrite existsb_exists, list_elem_of_In, in_map_iff.
  split.
  - intros (l & Hin & Heq). apply String.eqb_eq in Heq. eauto.
  - intros (l & Heq & Hin). exists l. split; [done|]. by apply String.eqb_eq.
Qed.

(** C5.  When the pull request is merged, by the flag or by carrying
    [status:merged], no reaction is wanted, whatever else is labelled. *)
Theorem merged_no_reactions (labels : list Label) (isPRMerged : bool)
    (table : gmap string string) (groups : ExclusiveGroups) :
  isPRMerged = true ∨ "status:merged" ∈ map name labels →
  calculateDesiredReactions labels isPRMerged table groups = [].
Proof.
  intros Hm. unfold calculateDesiredReactions.
  assert (has_label labels "status:merged" || isPRMerged = true) as ->;
    [|done].
  destruct Hm as [->|Hin]; [apply orb_true_r|].
  apply has_label_true in Hin. by rewrite Hin.
Qed.

Lemma merged_no_reactions_witness :
  calculateDesiredReactions
    [mkLabel "qa:success"; mkLabel "status:merged"; mkLabel "status:approved"]
    false statusReactions exclusiveGroups = [].
Proof.
  apply merged_no_reactions. right.
  by_computation.
Defined.

Lemma qa_in_progress labels :
  "qa:running" ∈ map name labels ∨ "qa:pending" ∈ map name labels →
  existsb (λ l, String.eqb (name l) "qa:running"
                || String.eqb (name l) "qa:pending") labels = true.
Proof.
  intros H. apply existsb_exists.
  destruct H as [H|H]; apply list_elem_of_In, in_map_iff in H
    as (l & Heq & Hin); exists l; (split; [done|]); rewrite Heq;
    reflexivity.
Qed.

(** C6.  While [qa:running] or [qa:pending] is on the pull request every
    wanted reaction is taken from the QA group; with the tables of the
    notifier none of [eyes], [thumbsup], [rocket] is wanted, even when
    status labels are present. *)
Theorem in_progress_only_qa (labels : list Label) (isPRMerged : bool)
    (table : gmap string string) (groups : ExclusiveGroups) :
  "qa:running" ∈ map name labels ∨ "qa:pending" ∈ map name labels →
  Forall (λ r, r ∈ qa groups)
         (calculateDesiredReactions labels isPRMerged table groups)
  ∧ Forall (λ r, r ∈ ["hourglass_flowing_sand"; "runner";
                      "white_check_mark"; "x"]
                 ∧ r ∉ ["eyes"; "thumbsup"; "rocket"])
           (calculateDesiredReactions labels isPRMerged
              statusReactions exclusiveGroups).
Proof.
  intros Hq. apply qa_in_progress in Hq.
  assert (Hgen : ∀ t g, Forall (λ r, r ∈ qa g)
            (calculateDesiredReactions labels isPRMerged t g)).
  { intros t g. unfold calculateDesiredReactions.
    destruct (has_label labels "status:merged" || isPRMerged);
      [constructor|].
    rewrite Hq. apply Forall_forall. intros r Hr.
    by apply list_elem_of_filter in Hr as [Hr _]. }
  split; [apply Hgen|].
  eapply Forall_impl; [apply (Hgen statusReactions exclusiveGroups)|].
  simpl. intros r Hr. split; [exact Hr|].
  repeat (apply elem_of_cons in Hr as [->|Hr]);
    [by_computation..|by apply elem_of_nil in Hr].
Qed.

Lemma in_progress_only_qa_witness :
  Forall (λ r, r ∈ ["hourglass_flowing_sand"; "runner";
                    "white_check_mark"; "x"]
               ∧ r ∉ ["eyes"; "thumbsup"; "rocket"])
    (calculateDesiredReactions
       [mkLabel "status:approved"; mkLabel "qa:running"; mkLabel "bug"]
       false statusReactions exclusiveGroups).
Proof.
  apply (in_progress_only_qa _ false statusReactions exclusiveGroups).
  left. apply (bool_decide_unpack _). vm_compute. exact I.
Defined.

Example rerun_hides_status_reaction :
  calculateDesiredReactions
    [mkLabel "status:approved"; mkLabel "qa:running"; mkLabel "bug"]
    false statusReactions exclusiveGroups = ["runner"]
  ∧ calculateDesiredReactions
      [mkLabel "status:approved"; mkLabel "qa:success"]
      false statusReactions exclusiveGroups = ["white_check_mark"; "thumbsup"].
Proof. split; vm_compute; reflexivity. Qed.
End Reactions.

(** ** Label reconciliation *)

Section Reconciliation.
Import Octokit Reconciler.

Lemma single_iff (l : list string) d :
  bool_decide (length l = 1) && bool_decide (l !! 0 = Some d)
  = bool_decide (l = [d]).
Proof.
  destruct (decide (l = [d])) as [->|Hne].
  - by rewrite !bool_decide_eq_true_2.
  - rewrite (bool_decide_eq_false_2 _ Hne). apply andb_false_iff.
    destruct l as [|x [|y l]].
    + left. by apply bool_decide_eq_false_2.
    + right. apply bool_decide_eq_false_2. simpl. intros [= ->]. by apply Hne.
    + left. apply bool_decide_eq_false_2. simpl. lia.
Qed.

Lemma issued_app tr L evs : issued tr (mkWorld L (tr ++ evs)) = evs.
Proof. unfold issued. simpl. apply drop_app_length. Qed.

Lemma filter_not_in_nil (L : list string) : filter (λ l, l ∉ []) L = L.
Proof.
  induction L as [|x L IH]; [done|].
  rewrite filter_cons_True by apply not_elem_of_nil. by rewrite IH.
Qed.

Lemma remove_name_then_rest (L xs : list string) x :
  filter (λ l, l ∉ xs) (remove_name L x) = filter (λ l, l ∉ x :: xs) L.
Proof.
  unfold remove_name. rewrite list_filter_filter.
  apply list_filter_iff. intros l. rewrite not_elem_of_cons. tauto.
Qed.

Lemma remove_all_cons api x xs w :
  remove_all api (x :: xs) w
  = match api (trace w) (RemoveLabel x) with
    | None =>
        remove_all api xs
          (mkWorld (remove_name (pr_labels w) x)
                   (trace w ++ [mkEvent (RemoveLabel x) None]))
    | Some msg =>
        remove_all api xs
          (mkWorld (pr_labels w)
                   (trace w ++ [mkEvent (RemoveLabel x) (Some msg)]))
    end.
Proof.
  unfold remove_all. simpl.
  unfold mbind, M_bind, bind, try_catch, removeLabel, request.
  by destruct (api (trace w) (RemoveLabel x)).
Qed.

(** The removal loop never throws, issues one [removeLabel] per entry in
    order, and when all of them succeed exactly the listed names are gone. *)
Lemma remove_all_run api xs w :
  ∃ evs L',
    remove_all api xs w = (Return tt, mkWorld L' (trace w ++ evs))
    ∧ map ev_call evs = map RemoveLabel xs
    ∧ (Forall succeeded evs → L' = filter (λ l, l ∉ xs) (pr_labels w)).
Proof.
  revert w. induction xs as [|x xs IH]; intros [L tr].
  - exists [], L. simpl. rewrite app_nil_r, filter_not_in_nil. done.
  - rewrite remove_all_cons. simpl.
    destruct (api tr (RemoveLabel x)) as [msg|] eqn:Hx.
    + destruct (IH (mkWorld L (tr ++ [mkEvent (RemoveLabel x) (Some msg)])))
        as (evs & L' & Hrun & Hcalls & _).
      exists (mkEvent (RemoveLabel x) (Some msg) :: evs), L'.
      rewrite Hrun. simpl. rewrite <- app_assoc. simpl.
      split; [done|]. split; [by f_equal|].
      intros Hok. apply Forall_cons in Hok as [Hbad _]. discriminate Hbad.
    + destruct (IH (mkWorld (remove_name L x)
                            (tr ++ [mkEvent (RemoveLabel x) None])))
        as (evs & L' & Hrun & Hcalls & Hlabels).
      exists (mkEvent (RemoveLabel x) None :: evs), L'.
      rewrite Hrun. simpl. rewrite <- app_assoc. simpl.
      split; [done|]. split; [by f_equal|].
      intros Hok. apply Forall_cons in Hok as [_ Hok].
      rewrite (Hlabels Hok). simpl. apply remove_name_then_rest.
Qed.

(** The guarded [addLabels] request never throws and issues one request;
    when it succeeds the label is on the pull request. *)
Lemma add_one_run api d w :
  ∃ e : option string,
    add_one api d w
    = (Return tt,
       mkWorld (match e with
                | None => add_names (pr_labels w) [d]
                | Some _ => pr_labels w
                end)
               (trace w ++ [mkEvent (AddLabels [d]) e]))
    ∧ e = api (trace w) (AddLabels [d]).
Proof.
  exists (api (trace w) (AddLabels [d])).
  unfold add_one, try_catch, addLabels, request.
  by destruct (api (trace w) (AddLabels [d])).
Qed.

(** The procedure unfolded along the outcome of the read. *)
Lemma reconcile_unfold api G d L tr :
  reconcile api G d (mkWorld L tr)
  = match api tr ListLabelsOnIssue with
    | Some msg => (Throw msg, mkWorld L (tr ++ [mkEvent ListLabelsOnIssue (Some msg)]))
    | None =>
        let w1 := mkWorld L (tr ++ [mkEvent ListLabelsOnIssue None]) in
        let current := filter (λ l, l ∈ G) L in
        if bool_decide (current = [d]) then (Return tt, w1)
        else
          match remove_all api (filter (λ l, l ≠ d) current) w1 with
          | (Return _, w2) =>
              if includes current d then (Return tt, w2)
              else add_one api d w2
          | (Throw msg, w2) => (Throw msg, w2)
          end
    end.
Proof.
  unfold reconcile, mbind, M_bind, bind, listLabelsOnIssue, request. simpl.
  destruct (api tr ListLabelsOnIssue); [done|]. simpl.
  destruct (bool_decide (filter (λ l, l ∈ G) L = [d])); [done|].
  destruct (remove_all api _ _) as [[[]|msg] w2]; [|done].
  by destruct (includes _ d).
Qed.
(** What is left of the labels [L] once every label of the group [G]
    other than [d] has been taken off. *)
Local Abbreviation outdated G d L :=
  (filter (λ l, l ≠ d) (filter (λ l, l ∈ G) L)).
Local Abbreviation kept G d L := (filter (λ l, l ∉ outdated G d L) L).

Lemma kept_group (G L : list string) d l :
  l ∈ kept G d L → l ∈ G → l = d.
Proof.
  intros [Hout Hin]%list_elem_of_filter HG.
  destruct (decide (l = d)) as [|Hne]; [done|].
  exfalso. apply Hout. apply list_elem_of_filter. split; [done|].
  by apply list_elem_of_filter.
Qed.

Lemma kept_desired (G L : list string) d : d ∈ L → d ∈ kept G d L.
Proof.
  intros Hin. apply list_elem_of_filter. split; [|done].
  intros [Hne _]%list_elem_of_filter. by apply Hne.
Qed.

Lemma kept_others (G L : list string) d :
  filter (λ l, l ∉ G) (kept G d L) = filter (λ l, l ∉ G) L.
Proof.
  rewrite list_filter_filter. apply list_filter_iff. intros l.
  split; [tauto|]. intros HG. split; [done|].
  intros [_ [HinG _]%list_elem_of_filter]%list_elem_of_filter. by apply HG.
Qed.

Lemma filter_snoc_group (G L : list string) d :
  d ∈ G → filter (λ l, l ∉ G) (L ++ [d]) = filter (λ l, l ∉ G) L.
Proof.
  intros Hd. rewrite filter_app, filter_cons_False by tauto.
  apply app_nil_r.
Qed.

(** One run in which every request succeeds: the run returns, the
    desired label is on the pull request, it is the only label of the
    group there, and labels outside the group are as before. *)
Lemma reconcile_converges api G d L tr r w' :
  d ∈ G →
  reconcile api G d (mkWorld L tr) = (r, w') →
  Forall succeeded (issued tr w') →
  r = Return tt
  ∧ d ∈ pr_labels w'
  ∧ (∀ l, l ∈ pr_labels w' → l ∈ G → l = d)
  ∧ filter (λ l, l ∉ G) (pr_labels w') = filter (λ l, l ∉ G) L
  ∧ (NoDup L → NoDup (pr_labels w')).
Proof.
  intros Hd Hrun Hok. rewrite reconcile_unfold in Hrun.
  destruct (api tr ListLabelsOnIssue) as [msg|] eqn:Hread.
  { injection Hrun as <- <-. rewrite issued_app in Hok.
    apply Forall_cons in Hok as [Hbad _]. discriminate Hbad. }
  cbv zeta in Hrun. case_bool_decide as Hcur.
  { injection Hrun as <- <-. simpl.
    assert (Hin : ∀ l, l ∈ L → l ∈ G → l = d).
    { intros l Hl HG.
      assert (l ∈ filter (λ l, l ∈ G) L) as Hf
        by by apply list_elem_of_filter.
      rewrite Hcur in Hf. by apply list_elem_of_singleton in Hf. }
    assert (d ∈ filter (λ l, l ∈ G) L) as [_ HdL]%list_elem_of_filter
      by (rewrite Hcur; left).
    done. }
  destruct (remove_all_run api (outdated G d L)
              (mkWorld L (tr ++ [mkEvent ListLabelsOnIssue None])))
    as (evs & L' & Hrem & _ & Hlabels).
  rewrite Hrem in Hrun. simpl in Hrun, Hlabels.
  destruct (includes (filter (λ l, l ∈ G) L) d) eqn:Hinc.
  - injection Hrun as <- <-. rewrite <- app_assoc, issued_app in Hok.
    apply Forall_cons in Hok as [_ Hok]. rewrite (Hlabels Hok). simpl.
    apply includes_true, list_elem_of_filter in Hinc as [_ HdL].
    split; [done|]. split; [by apply kept_desired|].
    split; [apply kept_group|]. split; [apply kept_others|].
    apply NoDup_filter.
  - destruct (add_one_run api d (mkWorld L' ((tr ++ [mkEvent ListLabelsOnIssue None]) ++ evs)))
      as (e & Hadd & _).
    rewrite Hadd in Hrun. injection Hrun as <- <-.
    rewrite <- !app_assoc, issued_app in Hok. simpl in Hok.
    apply Forall_cons in Hok as [_ Hok].
    apply Forall_app in Hok as [Hok Hadded].
    apply Forall_cons in Hadded as [He _]. unfold succeeded in He.
    simpl in He. subst e. rewrite (Hlabels Hok). cbn [pr_labels].
    split; [done|].
    destruct (includes (kept G d L) d) eqn:Hthere;
      [|apply includes_false in Hthere].
    + split; [by apply includes_true|]. split; [apply kept_group|].
      split; [apply kept_others|]. apply NoDup_filter.
    + split; [apply elem_of_app; right; left|].
      split.
      { intros l [Hl|Hl%list_elem_of_singleton]%elem_of_app HG; [|done].
        by eapply kept_group. }
      split; [by rewrite filter_snoc_group, kept_others|].
      intros Hnd. apply NoDup_app. split; [by apply NoDup_filter|].
      split; [|apply NoDup_singleton].
      by intros l Hl ->%list_elem_of_singleton.
Qed.

Lemma read_succeeded api G d L tr r w' :
  reconcile api G d (mkWorld L tr) = (r, w') →
  Forall succeeded (issued tr w') →
  api tr ListLabelsOnIssue = None.
Proof.
  intros Hrun Hok. rewrite reconcile_unfold in Hrun.
  destruct (api tr ListLabelsOnIssue) as [msg|]; [|done].
  injection Hrun as <- <-. rewrite issued_app in Hok.
  apply Forall_cons in Hok as [Hbad _]. discriminate Hbad.
Qed.

(** The requests of a run whose read went through, whatever the outcome
    of the writes: the read, one removal for each competing label in the
    order of the listing, and the addition when the desired label was not
    there.  Such a run returns. *)
Lemma reconcile_calls api G d L tr r w' :
  d ∈ G →
  api tr ListLabelsOnIssue = None →
  reconcile api G d (mkWorld L tr) = (r, w') →
  r = Return tt
  ∧ map ev_call (issued tr w')
    = ListLabelsOnIssue :: map RemoveLabel (outdated G d L)
      ++ (if bool_decide (d ∈ L) then [] else [AddLabels [d]]).
Proof.
  intros HG Hread Hrun. rewrite reconcile_unfold, Hread in Hrun.
  cbv zeta in Hrun. case_bool_decide as Hcur.
  { injection Hrun as <- <-. rewrite issued_app, Hcur.
    assert (d ∈ filter (λ l, l ∈ G) L) as [_ HdL]%list_elem_of_filter
      by (rewrite Hcur; left).
    rewrite filter_cons_False by (by intros Hne; apply Hne).
    by rewrite bool_decide_eq_true_2. }
  destruct (remove_all_run api (outdated G d L)
              (mkWorld L (tr ++ [mkEvent ListLabelsOnIssue None])))
    as (evs & L' & Hrem & Hcalls & _).
  rewrite Hrem in Hrun. simpl in Hrun.
  destruct (includes (filter (λ l, l ∈ G) L) d) eqn:Hinc.
  - injection Hrun as <- <-. rewrite <- app_assoc, issued_app.
    apply includes_true, list_elem_of_filter in Hinc as [_ HdL].
    rewrite bool_decide_eq_true_2 by done.
    simpl. by rewrite Hcalls, app_nil_r.
  - destruct (add_one_run api d
                (mkWorld L' ((tr ++ [mkEvent ListLabelsOnIssue None]) ++ evs)))
      as (e & Hadd & _).
    rewrite Hadd in Hrun. injection Hrun as <- <-.
    rewrite <- !app_assoc, issued_app.
    apply includes_false in Hinc.
    rewrite bool_decide_eq_false_2
      by (intros HdL; apply Hinc; by apply list_elem_of_filter).
    simpl. by rewrite map_app, Hcalls.
Qed.

(** From a converged state a further run only reads the labels. *)
Lemma reconcile_stable api G d L tr :
  d ∈ L → (∀ l, l ∈ L → l ∈ G → l = d) → d ∈ G →
  ∃ e, reconcile api G d (mkWorld L tr)
       = (match e with None => Return tt | Some msg => Throw msg end,
          mkWorld L (tr ++ [mkEvent ListLabelsOnIssue e])).
Proof.
  intros HdL Honly HdG. exists (api tr ListLabelsOnIssue).
  rewrite reconcile_unfold.
  destruct (api tr ListLabelsOnIssue) as [msg|]; [done|].
  cbv zeta. case_bool_decide; [done|].
  assert (outdated G d L = []) as ->.
  { destruct (outdated G d L) as [|x xs] eqn:Hout; [done|].
    assert (x ∈ outdated G d L)
      as [Hne [HG Hl]%list_elem_of_filter]%list_elem_of_filter
      by (rewrite Hout; left).
    exfalso. apply Hne. by apply Honly. }
  assert (includes (filter (λ l, l ∈ G) L) d = true) as ->.
  { apply includes_true. by apply list_elem_of_filter. }
  reflexivity.
Qed.
Lemma only_desired_in_group (G L : list string) d :
  NoDup L → d ∈ G → d ∈ L → (∀ l, l ∈ L → l ∈ G → l = d) →
  filter (λ l, l ∈ G) L = [d].
Proof.
  intros Hnd HG HL Honly.
  assert (Hall : ∀ l, l ∈ filter (λ l, l ∈ G) L → l = d)
    by (intros l [? ?]%list_elem_of_filter; by apply Honly).
  assert (Hd : d ∈ filter (λ l, l ∈ G) L) by by apply list_elem_of_filter.
  apply (NoDup_filter (λ l, l ∈ G)) in Hnd.
  destruct (filter (λ l, l ∈ G) L) as [|x [|y f]].
  - by apply elem_of_nil in Hd.
  - f_equal. apply Hall. left.
  - exfalso. apply NoDup_cons in Hnd as [Hx _]. apply Hx.
    rewrite (Hall x) by left. rewrite <- (Hall y) at 1 by (right; left).
    left.
Qed.

(** *** The two reconcilers are instances of the common procedure *)

Import BuildStatusLabeler PrStatusLabeler.

Lemma desiredLabel_unrecognized ws :
  ws ∉ recognized → BuildStatusLabeler.desiredLabel ws = "".
Proof.
  intros Hws. unfold BuildStatusLabeler.desiredLabel.
  repeat match goal with
         | |- context [String.eqb ws ?s] =>
             destruct (String.eqb_spec ws s) as [->|_];
             [exfalso; apply Hws; by_computation|]
         end.
  reflexivity.
Qed.

Lemma desiredLabel_recognized ws :
  ws ∈ recognized →
  truthy (BuildStatusLabeler.desiredLabel ws) = true
  ∧ BuildStatusLabeler.desiredLabel ws ∈ QA_LABEL_NAMES.
Proof.
  intros Hws. unfold recognized in Hws.
  repeat (apply elem_of_cons in Hws as [->|Hws]);
    [split; [reflexivity|by_computation]..|by apply elem_of_nil in Hws].
Qed.

Lemma status_desiredLabel_in_group isDraft hasApproval qaStatus isMerged isAbandoned :
  let d := PrStatusLabeler.desiredLabel isDraft hasApproval qaStatus
             isMerged isAbandoned in
  truthy d = true ∧ d ∈ STATUS_LABEL_NAMES.
Proof.
  unfold PrStatusLabeler.desiredLabel.
  destruct isMerged, isAbandoned, isDraft, hasApproval; simpl;
    try (split; [reflexivity|by_computation]);
    destruct (String.eqb qaStatus "success");
    (split; [reflexivity|by_computation]).
Qed.

Lemma updateBuildStatusLabel_reconcile api ws w :
  updateBuildStatusLabel api ws w
  = if truthy (BuildStatusLabeler.desiredLabel ws)
    then reconcile api QA_LABEL_NAMES (BuildStatusLabeler.desiredLabel ws) w
    else (Return tt, w).
Proof.
  unfold updateBuildStatusLabel, reconcile.
  destruct (truthy _); simpl; [|done].
  unfold mbind, M_bind, bind.
  destruct (listLabelsOnIssue api w) as [[names|msg] w1]; [|done].
  rewrite single_iff. destruct (bool_decide _); [done|].
  unfold remove_all, add_one.
  destruct (for_of _ _ w1) as [[[]|msg] w2]; [|done].
  by destruct (includes _ _).
Qed.

Lemma updatePRStatusLabel_reconcile api isDraft hasApproval qaStatus
    isMerged isAbandoned w :
  updatePRStatusLabel api isDraft hasApproval qaStatus isMerged isAbandoned w
  = reconcile api STATUS_LABEL_NAMES
      (PrStatusLabeler.desiredLabel isDraft hasApproval qaStatus
         isMerged isAbandoned) w.
Proof.
  unfold updatePRStatusLabel, reconcile.
  destruct (status_desiredLabel_in_group isDraft hasApproval qaStatus
              isMerged isAbandoned) as [Ht _].
  cbv zeta in Ht |- *. rewrite Ht.
  unfold mbind, M_bind, bind.
  destruct (listLabelsOnIssue api w) as [[names|msg] w1]; [|done].
  rewrite single_iff. destruct (bool_decide _); [done|].
  unfold remove_all, add_one.
  destruct (for_of _ _ w1) as [[[]|msg] w2]; [|done].
  by destruct (includes _ _).
Qed.
(** *** Convergence *)

(** C2.  One run of [updateBuildStatusLabel] for a recognized status in
    which every request succeeds returns after removing each competing QA
    label and adding the desired one when it was missing; it leaves the
    desired label as the only label of the QA group on the pull request,
    with all other labels untouched.  The same holds for
    [updatePRStatusLabel] and the status group. *)
Theorem reconcilers_converge :
  (∀ api workflowStatus labels tr r w',
     workflowStatus ∈ recognized →
     updateBuildStatusLabel api workflowStatus (mkWorld labels tr) = (r, w') →
     Forall succeeded (issued tr w') →
     let d := BuildStatusLabeler.desiredLabel workflowStatus in
     r = Return tt
     ∧ d ∈ pr_labels w'
     ∧ (∀ l, l ∈ pr_labels w' → l ∈ QA_LABEL_NAMES → l = d)
     ∧ (NoDup labels → filter (λ l, l ∈ QA_LABEL_NAMES) (pr_labels w') = [d])
     ∧ filter (λ l, l ∉ QA_LABEL_NAMES) (pr_labels w')
       = filter (λ l, l ∉ QA_LABEL_NAMES) labels
     ∧ map ev_call (issued tr w')
       = ListLabelsOnIssue
         :: map RemoveLabel
              (filter (λ l, l ≠ d) (filter (λ l, l ∈ QA_LABEL_NAMES) labels))
         ++ (if bool_decide (d ∈ labels) then [] else [AddLabels [d]]))
  ∧ (∀ api isDraft hasApproval qaStatus isMerged isAbandoned labels tr r w',
       updatePRStatusLabel api isDraft hasApproval qaStatus isMerged
         isAbandoned (mkWorld labels tr) = (r, w') →
       Forall succeeded (issued tr w') →
       let d := PrStatusLabeler.desiredLabel isDraft hasApproval qaStatus
                  isMerged isAbandoned in
       r = Return tt
       ∧ d ∈ pr_labels w'
       ∧ (∀ l, l ∈ pr_labels w' → l ∈ STATUS_LABEL_NAMES → l = d)
       ∧ (NoDup labels →
          filter (λ l, l ∈ STATUS_LABEL_NAMES) (pr_labels w') = [d])
       ∧ filter (λ l, l ∉ STATUS_LABEL_NAMES) (pr_labels w')
         = filter (λ l, l ∉ STATUS_LABEL_NAMES) labels
       ∧ map ev_call (issued tr w')
         = ListLabelsOnIssue
           :: map RemoveLabel
                (filter (λ l, l ≠ d)
                        (filter (λ l, l ∈ STATUS_LABEL_NAMES) labels))
           ++ (if bool_decide (d ∈ labels) then [] else [AddLabels [d]])).
Proof.
  split.
  - intros api ws labels tr r w' Hws Hrun Hok d.
    destruct (desiredLabel_recognized ws Hws) as [Ht HG].
    rewrite updateBuildStatusLabel_reconcile, Ht in Hrun.
    destruct (reconcile_converges _ _ _ _ _ _ _ HG Hrun Hok)
      as (Hr & Hd & Honly & Hrest & Hnd).
    pose proof (read_succeeded _ _ _ _ _ _ _ Hrun Hok) as Hread.
    destruct (reconcile_calls _ _ _ _ _ _ _ HG Hread Hrun) as [_ Hcalls].
    repeat split; try done.
    intros Hnodup. by apply only_desired_in_group; auto.
  - intros api isDraft hasApproval qaStatus isMerged isAbandoned
           labels tr r w' Hrun Hok d.
    destruct (status_desiredLabel_in_group isDraft hasApproval qaStatus
                isMerged isAbandoned) as [_ HG].
    rewrite updatePRStatusLabel_reconcile in Hrun.
    destruct (reconcile_converges _ _ _ _ _ _ _ HG Hrun Hok)
      as (Hr & Hd & Honly & Hrest & Hnd).
    pose proof (read_succeeded _ _ _ _ _ _ _ Hrun Hok) as Hread.
    destruct (reconcile_calls _ _ _ _ _ _ _ HG Hread Hrun) as [_ Hcalls].
    repeat split; try done.
    intros Hnodup. by apply only_desired_in_group; auto.
Qed.

Example two_competitors :
  updateBuildStatusLabel always_ok "success"
    (mkWorld ["bug"; "qa:running"; "qa:failed"] [])
  = (Return tt,
     mkWorld ["bug"; "qa:success"]
       [ mkEvent ListLabelsOnIssue None;
         mkEvent (RemoveLabel "qa:running") None;
         mkEvent (RemoveLabel "qa:failed") None;
         mkEvent (AddLabels ["qa:success"]) None ]).
Proof. vm_compute. reflexivity. Qed.

Lemma reconcilers_converge_witness :
  filter (λ l, l ∈ QA_LABEL_NAMES) ["bug"; "qa:success"] = ["qa:success"]
  ∧ filter (λ l, l ∈ STATUS_LABEL_NAMES) ["status:approved"; "bug"]
    = ["status:approved"].
Proof.
  split.
  - refine (proj1 (proj2 (proj2 (proj2
      (proj1 reconcilers_converge always_ok "success"
         ["bug"; "qa:running"; "qa:failed"] [] (Return tt)
         (mkWorld ["bug"; "qa:success"]
            [ mkEvent ListLabelsOnIssue None;
              mkEvent (RemoveLabel "qa:running") None;
              mkEvent (RemoveLabel "qa:failed") None;
              mkEvent (AddLabels ["qa:success"]) None ])
         _ _ _)))) _).
    + by_computation.
    + vm_compute. reflexivity.
    + vm_compute. repeat constructor.
    + by_computation.
  - refine (proj1 (proj2 (proj2 (proj2
      (proj2 reconcilers_converge always_ok false true "failed" false false
         ["status:draft"; "status:approved"; "bug"; "status:mergeable"] []
         (Return tt)
         (mkWorld ["status:approved"; "bug"]
            [ mkEvent ListLabelsOnIssue None;
              mkEvent (RemoveLabel "status:draft") None;
              mkEvent (RemoveLabel "status:mergeable") None ])
         _ _)))) _).
    + vm_compute. reflexivity.
    + vm_compute. repeat constructor.
    + by_computation.
Defined.
(** *** Idempotence *)

Lemma issued_nothing w : issued (trace w) w = [].
Proof. unfold issued. apply drop_all. Qed.

Lemma second_run_reads_only api G d w r2 w2 :
  d ∈ G → d ∈ pr_labels w →
  (∀ l, l ∈ pr_labels w → l ∈ G → l = d) →
  reconcile api G d w = (r2, w2) →
  map ev_call (issued (trace w) w2) = [ListLabelsOnIssue]
  ∧ filter (λ e, is_write (ev_call e)) (issued (trace w) w2) = []
  ∧ pr_labels w2 = pr_labels w
  ∧ (Forall succeeded (issued (trace w) w2) → r2 = Return tt).
Proof.
  intros HG Hd Honly Hrun. destruct w as [L tr].
  destruct (reconcile_stable api G d L tr Hd Honly HG) as (e & Hst).
  rewrite Hst in Hrun. injection Hrun as <- <-.
  rewrite issued_app. repeat split; try done.
  intros [He _]%Forall_cons. unfold succeeded in He. simpl in He.
  by subst e.
Qed.

(** C3.  After one run in which every request succeeded, a second run
    with the same desired status issues no [removeLabel] and no
    [addLabels] request and leaves the labels as they are; for a
    recognized status (and for every PR state) its only request is the
    read of the current labels, after which it returns. *)
Theorem reconcilers_idempotent :
  (∀ api1 api2 workflowStatus labels tr r1 w1 r2 w2,
     updateBuildStatusLabel api1 workflowStatus (mkWorld labels tr) = (r1, w1) →
     Forall succeeded (issued tr w1) →
     updateBuildStatusLabel api2 workflowStatus w1 = (r2, w2) →
     filter (λ e, is_write (ev_call e)) (issued (trace w1) w2) = []
     ∧ pr_labels w2 = pr_labels w1
     ∧ (Forall succeeded (issued (trace w1) w2) → r2 = Return tt)
     ∧ (workflowStatus ∈ recognized →
        map ev_call (issued (trace w1) w2) = [ListLabelsOnIssue]))
  ∧ (∀ api1 api2 isDraft hasApproval qaStatus isMerged isAbandoned
       labels tr r1 w1 r2 w2,
       updatePRStatusLabel api1 isDraft hasApproval qaStatus isMerged
         isAbandoned (mkWorld labels tr) = (r1, w1) →
       Forall succeeded (issued tr w1) →
       updatePRStatusLabel api2 isDraft hasApproval qaStatus isMerged
         isAbandoned w1 = (r2, w2) →
       filter (λ e, is_write (ev_call e)) (issued (trace w1) w2) = []
       ∧ pr_labels w2 = pr_labels w1
       ∧ (Forall succeeded (issued (trace w1) w2) → r2 = Return tt)
       ∧ map ev_call (issued (trace w1) w2) = [ListLabelsOnIssue]).
Proof.
  split.
  - intros api1 api2 ws labels tr r1 w1 r2 w2 Hrun1 Hok Hrun2.
    destruct (decide (ws ∈ recognized)) as [Hws|Hws].
    + destruct (desiredLabel_recognized ws Hws) as [Ht HG].
      rewrite updateBuildStatusLabel_reconcile, Ht in Hrun1, Hrun2.
      destruct (reconcile_converges _ _ _ _ _ _ _ HG Hrun1 Hok)
        as (_ & Hd & Honly & _).
      destruct (second_run_reads_only _ _ _ _ _ _ HG Hd Honly Hrun2)
        as (Hcalls & Hwrites & Hlabels & Hret).
      done.
    + rewrite updateBuildStatusLabel_reconcile in Hrun2.
      rewrite (desiredLabel_unrecognized ws Hws) in Hrun2.
      simpl in Hrun2. injection Hrun2 as <- <-.
      rewrite issued_nothing. done.
  - intros api1 api2 isDraft hasApproval qaStatus isMerged isAbandoned
           labels tr r1 w1 r2 w2 Hrun1 Hok Hrun2.
    destruct (status_desiredLabel_in_group isDraft hasApproval qaStatus
                isMerged isAbandoned) as [_ HG].
    rewrite updatePRStatusLabel_reconcile in Hrun1, Hrun2.
    destruct (reconcile_converges _ _ _ _ _ _ _ HG Hrun1 Hok)
      as (_ & Hd & Honly & _).
    destruct (second_run_reads_only _ _ _ _ _ _ HG Hd Honly Hrun2)
      as (Hcalls & Hwrites & Hlabels & Hret).
    done.
Qed.

Lemma reconcilers_idempotent_witness :
  map ev_call
    (issued
       [ mkEvent ListLabelsOnIssue None;
         mkEvent (RemoveLabel "qa:running") None;
         mkEvent (RemoveLabel "qa:failed") None;
         mkEvent (AddLabels ["qa:success"]) None ]
       (mkWorld ["bug"; "qa:success"]
          [ mkEvent ListLabelsOnIssue None;
            mkEvent (RemoveLabel "qa:running") None;
            mkEvent (RemoveLabel "qa:failed") None;
            mkEvent (AddLabels ["qa:success"]) None;
            mkEvent ListLabelsOnIssue None ]))
  = [ListLabelsOnIssue].
Proof.
  refine (proj2 (proj2 (proj2
    (proj1 reconcilers_idempotent always_ok always_ok "success"
       ["bug"; "qa:running"; "qa:failed"] [] (Return tt)
       (mkWorld ["bug"; "qa:success"]
          [ mkEvent ListLabelsOnIssue None;
            mkEvent (RemoveLabel "qa:running") None;
            mkEvent (RemoveLabel "qa:failed") None;
            mkEvent (AddLabels ["qa:success"]) None ])
       (Return tt) _ _ _ _))) _).
  - vm_compute. reflexivity.
  - vm_compute. repeat constructor.
  - vm_compute. reflexivity.
  - by_computation.
Defined.

(** *** Statuses without a label *)

Import PrReviewChecker.

(** C8.  For a status outside pending, running, success, failure and
    cancelled, [updateBuildStatusLabel] returns at once: no request is
    issued and the labels are left alone.  This is the case for
    [failed], the status [determineQAStatus] reports when the QA job
    result is [failure] or [cancelled]. *)
Theorem unrecognized_status_noop :
  (∀ api workflowStatus w,
     workflowStatus ∉ recognized →
     updateBuildStatusLabel api workflowStatus w = (Return tt, w))
  ∧ (∀ api w, updateBuildStatusLabel api "failed" w = (Return tt, w))
  ∧ (∀ pulls_get secretScanningResult,
       determineQAStatus pulls_get "pull_request" (Some "failure")
                         secretScanningResult = Return "failed"
       ∧ determineQAStatus pulls_get "pull_request" (Some "cancelled")
                           secretScanningResult = Return "failed").
Proof.
  split; [|split].
  - intros api ws w Hws.
    rewrite updateBuildStatusLabel_reconcile.
    by rewrite (desiredLabel_unrecognized ws Hws).
  - reflexivity.
  - intros. split; reflexivity.
Qed.

Lemma unrecognized_status_noop_witness :
  updateBuildStatusLabel always_ok "skipped" (mkWorld ["qa:running"] [])
  = (Return tt, mkWorld ["qa:running"] []).
Proof.
  apply (proj1 unrecognized_status_noop always_ok "skipped").
  by_computation.
Defined.
End Reconciliation.

(** ** Auto-merge controller *)

Section AutoMerge.
Import AutoMergeManager.

(** The substrings the [catch] block recognizes. *)
Lemma handle_error_unknown message :
  str_includes message "Auto-merge is not enabled" = false →
  str_includes message "already enabled" = false →
  str_includes message "Auto-merge is not allowed" = false →
  str_includes message "Pull request is in clean status" = false →
  str_includes message "Pull request is in dirty status" = false →
  handle_error message = "❌ Error managing auto-merge: " +:+ message.
Proof. unfold handle_error. by intros -> -> -> -> ->. Qed.

Lemma handle_error_already_enabled message :
  str_includes message "already enabled" = true →
  handle_error message
  = if str_includes message "Auto-merge is not enabled"
    then "ℹ️ Auto-merge is already disabled"
    else "ℹ️ Auto-merge is already enabled".
Proof. unfold handle_error. by intros ->. Qed.

(** The five lines printed for the known messages. *)
Lemma handle_error_known message :
  (str_includes message "Auto-merge is not enabled" = true →
   handle_error message = "ℹ️ Auto-merge is already disabled")
  ∧ (str_includes message "Auto-merge is not enabled" = false →
     str_includes message "already enabled" = true →
     handle_error message = "ℹ️ Auto-merge is already enabled")
  ∧ (str_includes message "Auto-merge is not enabled" = false →
     str_includes message "already enabled" = false →
     str_includes message "Auto-merge is not allowed" = true →
     handle_error message
     = "⚠️ Auto-merge is not allowed for this repository. Please enable it in repository settings.")
  ∧ (str_includes message "Auto-merge is not enabled" = false →
     str_includes message "already enabled" = false →
     str_includes message "Auto-merge is not allowed" = false →
     str_includes message "Pull request is in clean status" = true →
     handle_error message = "ℹ️ PR is already up to date with base branch")
  ∧ (str_includes message "Auto-merge is not enabled" = false →
     str_includes message "already enabled" = false →
     str_includes message "Auto-merge is not allowed" = false →
     str_includes message "Pull request is in clean status" = false →
     str_includes message "Pull request is in dirty status" = true →
     handle_error message = "⚠️ PR has conflicts that need to be resolved").
Proof.
  unfold handle_error. repeat split; intros; by repeat
    match goal with H : str_includes _ _ = _ |- _ => rewrite H; clear H end.
Qed.

(** C10.  [manageAutoMerge] always returns normally.  When the pull
    request fetch or the mutation throws an error with some message, the
    error is caught and the run ends by printing the line chosen for that
    message.  For a message with one of the five known substrings this is
    the informational line of the first of them it contains, in the order
    [Auto-merge is not enabled], [already enabled],
    [Auto-merge is not allowed], [Pull request is in clean status],
    [Pull request is in dirty status], and never the error line; for every
    other message it is the error line with the message. *)
Theorem manageAutoMerge_never_raises :
  (∀ remote prNumber prAuthor prAuthorType hasApproval qaStatus isDraft
     mergeMethod,
     fst (manageAutoMerge remote prNumber prAuthor prAuthorType hasApproval
            qaStatus isDraft mergeMethod) = Return tt)
  ∧ (∀ remote prNumber prAuthor prAuthorType mergeMethod message,
       prAuthorType ≠ "Bot" →
       (pulls_get remote = Throw message
        ∨ ∃ node_id,
            pulls_get remote = Return node_id
            ∧ graphql remote node_id (mergeMethodSent mergeMethod)
              = Throw message) →
       manageAutoMerge remote prNumber prAuthor prAuthorType true "success"
         false mergeMethod
       = (Return tt,
          [ "PR #" +:+ prNumber +:+ " is mergeable";
            "Enabling auto-merge for PR #" +:+ prNumber
              +:+ " with method: " +:+ mergeMethod;
            handle_error message ]))
  ∧ (∀ message,
       str_includes message "already enabled" = true →
       handle_error message = "ℹ️ Auto-merge is already enabled"
       ∨ handle_error message = "ℹ️ Auto-merge is already disabled")
  ∧ (∀ message,
       str_includes message "Auto-merge is not enabled" = false →
       str_includes message "already enabled" = false →
       str_includes message "Auto-merge is not allowed" = false →
       str_includes message "Pull request is in clean status" = false →
       str_includes message "Pull request is in dirty status" = false →
       handle_error message = "❌ Error managing auto-merge: " +:+ message)
  ∧ (∀ message,
       handle_error message
       = match
           list_find (λ known, str_includes message known = true)
             [ "Auto-merge is not enabled"; "already enabled";
               "Auto-merge is not allowed";
               "Pull request is in clean status";
               "Pull request is in dirty status" ]
         with
         | Some (0, _) => "ℹ️ Auto-merge is already disabled"
         | Some (1, _) => "ℹ️ Auto-merge is already enabled"
         | Some (2, _) =>
             "⚠️ Auto-merge is not allowed for this repository. Please enable it in repository settings."
         | Some (3, _) => "ℹ️ PR is already up to date with base branch"
         | Some (_, _) => "⚠️ PR has conflicts that need to be resolved"
         | None => "❌ Error managing auto-merge: " +:+ message
         end)
  ∧ (∀ message,
       Exists (λ known, str_includes message known = true)
         [ "Auto-merge is not enabled"; "already enabled";
           "Auto-merge is not allowed"; "Pull request is in clean status";
           "Pull request is in dirty status" ] →
       handle_error message ≠ "❌ Error managing auto-merge: " +:+ message).
Proof.
  split; [|split; [|split; [|split; [|split]]]].
  - intros. unfold manageAutoMerge.
    destruct (String.eqb prAuthorType "Bot"); [done|].
    by destruct (try_block _ _ _ _ _ _ _) as [[[]|message] lines].
  - intros remote prNumber prAuthor prAuthorType mergeMethod message
           Hbot Hthrown.
    unfold manageAutoMerge.
    destruct (String.eqb_spec prAuthorType "Bot") as [|_]; [done|].
    simpl. unfold try_block.
    destruct Hthrown as [->|(node_id & -> & ->)]; reflexivity.
  - intros message Hinc. rewrite (handle_error_already_enabled _ Hinc).
    destruct (str_includes message "Auto-merge is not enabled"); auto.
  - apply handle_error_unknown.
  - intros message. unfold handle_error. cbn [list_find].
    repeat (case_decide as H;
            [by rewrite H
            |apply not_true_is_false in H; rewrite H; clear H;
             cbn [fmap option_fmap option_map prod_map fst snd]]).
    done.
  - intros message Hknown Heq.
    destruct (handle_error_known message) as (H1 & H2 & H3 & H4 & H5).
    destruct (str_includes message "Auto-merge is not enabled") eqn:E1;
      [rewrite H1 in Heq by done; discriminate Heq|].
    destruct (str_includes message "already enabled") eqn:E2;
      [rewrite H2 in Heq by done; discriminate Heq|].
    destruct (str_includes message "Auto-merge is not allowed") eqn:E3;
      [rewrite H3 in Heq by done; discriminate Heq|].
    destruct (str_includes message "Pull request is in clean status") eqn:E4;
      [rewrite H4 in Heq by done; discriminate Heq|].
    destruct (str_includes message "Pull request is in dirty status") eqn:E5;
      [rewrite H5 in Heq by done; discriminate Heq|].
    repeat (apply Exists_cons in Hknown as [Hk|Hknown]; [congruence|]).
    by apply Exists_nil in Hknown.
Qed.

Lemma manageAutoMerge_never_raises_witness :
  manageAutoMerge
    (mkRemote (Return "PR_node")
              (λ _ _, Throw "Auto-merge is already enabled for this pull request"))
    "12" "octocat" "User" true "success" false "squash"
  = (Return tt,
     [ "PR #12 is mergeable";
       "Enabling auto-merge for PR #12 with method: squash";
       "ℹ️ Auto-merge is already enabled" ]).
Proof.
  apply (proj1 (proj2 manageAutoMerge_never_raises)
           (mkRemote (Return "PR_node")
              (λ _ _, Throw "Auto-merge is already enabled for this pull request"))
           "12" "octocat" "User" "squash"
           "Auto-merge is already enabled for this pull request").
  - by_computation.
  - right. exists "PR_node". split; reflexivity.
Defined.

Example bot_is_skipped remote :
  manageAutoMerge remote "7" "dependabot[bot]" "Bot" true "success" false "squash"
  = (Return tt, ["Skipping auto-merge for bot PR from dependabot[bot]"]).
Proof. reflexivity. Qed.

Example not_ready remote :
  manageAutoMerge remote "7" "octocat" "User" false "pending" true "squash"
  = (Return tt,
     [ "PR #7 is not mergeable";
       "PR #7 is not ready for auto-merge";
       "Reasons: no approval, QA status is pending, PR is a draft" ]).
Proof. reflexivity. Qed.
End AutoMerge.

(** ** Set difference of reactions *)

Section Delta.
Import SlackText.

Lemma calculateDelta_add current desired x :
  x ∈ add (calculateDelta current desired) ↔ x ∈ desired ∧ x ∉ current.
Proof.
  unfold calculateDelta. simpl. rewrite list_elem_of_filter, elem_of_list_to_set.
  tauto.
Qed.

Lemma calculateDelta_remove current desired x :
  x ∈ remove (calculateDelta current desired) ↔ x ∈ current ∧ x ∉ desired.
Proof.
  unfold calculateDelta. simpl. rewrite list_elem_of_filter, elem_of_list_to_set.
  tauto.
Qed.

(** X1.  Taking the [remove] entries off the current list and putting the
    [add] entries on gives exactly the desired elements; nothing that is to
    stay is removed, nothing already there is added, and both parts keep
    the order and multiplicity of the lists they are drawn from. *)
Theorem calculateDelta_applies (current desired : list string) :
  let d := calculateDelta current desired in
  (∀ x, x ∈ filter (λ y, y ∉ remove d) current ++ add d ↔ x ∈ desired)
  ∧ (∀ x, x ∈ add d → x ∉ current)
  ∧ (∀ x, x ∈ remove d → x ∉ desired)
  ∧ add d `sublist_of` desired
  ∧ remove d `sublist_of` current.
Proof.
  intros d. split; [|split; [|split; [|split]]].
  - intros x. rewrite elem_of_app, list_elem_of_filter.
    unfold d. rewrite calculateDelta_add, calculateDelta_remove.
    destruct (decide (x ∈ current)), (decide (x ∈ desired)); tauto.
  - intros x. unfold d. rewrite calculateDelta_add. tauto.
  - intros x. unfold d. rewrite calculateDelta_remove. tauto.
  - apply sublist_filter.
  - apply sublist_filter.
Qed.

(** X2.  The delta is empty exactly when the two lists have the same
    elements, whatever their order. *)
Theorem calculateDelta_empty_iff (current desired : list string) :
  calculateDelta current desired = mkDelta [] []
  ↔ ∀ x, x ∈ current ↔ x ∈ desired.
Proof.
  split.
  - intros Heq x.
    pose proof (calculateDelta_add current desired x) as Ha.
    pose proof (calculateDelta_remove current desired x) as Hr.
    rewrite Heq in Ha, Hr. simpl in Ha, Hr.
    rewrite elem_of_nil in Ha, Hr.
    destruct (decide (x ∈ current)), (decide (x ∈ desired)); tauto.
  - intros Hsame.
    destruct (calculateDelta current desired) as [a r] eqn:Hd.
    assert (Ha : ∀ x, x ∈ a ↔ x ∈ desired ∧ x ∉ current).
    { intros x. rewrite <- calculateDelta_add. by rewrite Hd. }
    assert (Hr : ∀ x, x ∈ r ↔ x ∈ current ∧ x ∉ desired).
    { intros x. rewrite <- calculateDelta_remove. by rewrite Hd. }
    f_equal.
    + destruct a as [|x a]; [done|]. exfalso.
      destruct (proj1 (Ha x)) as [? Hn]; [left|]. apply Hn. by apply Hsame.
    + destruct r as [|x r]; [done|]. exfalso.
      destruct (proj1 (Hr x)) as [? Hn]; [left|]. apply Hn. by apply Hsame.
Qed.
End Delta.

(** ** Escaping of the title for Slack *)

Section Escaping.
Import SlackText.

(** The three passes act as one pass over the characters. *)
Lemma escapeText_cons c t :
  escapeText (String c t)
  = (if Ascii.eqb c "&" then "&amp;"
     else if Ascii.eqb c "<" then "&lt;"
     else if Ascii.eqb c ">" then "&gt;"
     else String c "") +:+ escapeText t.
Proof.
  unfold escapeText. simpl.
  destruct (Ascii.eqb_spec c "&") as [->|Hamp]; [reflexivity|]. simpl.
  destruct (Ascii.eqb_spec c "<") as [->|Hlt]; [reflexivity|]. simpl.
  destruct (Ascii.eqb_spec c ">") as [->|Hgt]; reflexivity.
Qed.

Lemma escapeText_nil : escapeText "" = "".
Proof. reflexivity. Qed.

Lemma unescape_other c rest :
  c ≠ "&"%char → unescape (String c rest) = String c (unescape rest).
Proof.
  intros Hc.
  destruct c as [[] [] [] [] [] [] [] []]; try reflexivity.
  by destruct Hc.
Qed.

(** X3.  Escaping loses nothing: reading the entities back gives the
    original text, so two different titles never escape to the same text. *)
Theorem escapeText_round_trip :
  (∀ text, unescape (escapeText text) = text)
  ∧ (∀ a b, escapeText a = escapeText b → a = b).
Proof.
  assert (Hrt : ∀ text, unescape (escapeText text) = text).
  { induction text as [|c t IH]; [reflexivity|].
    rewrite escapeText_cons.
    revert IH. generalize (escapeText t). intros e IH.
    destruct (Ascii.eqb_spec c "&") as [->|Hamp].
    { change (unescape ("&amp;" +:+ e)) with (String "&" (unescape e)).
      by rewrite IH. }
    destruct (Ascii.eqb_spec c "<") as [->|Hlt].
    { change (unescape ("&lt;" +:+ e)) with (String "<" (unescape e)).
      by rewrite IH. }
    destruct (Ascii.eqb_spec c ">") as [->|Hgt].
    { change (unescape ("&gt;" +:+ e)) with (String ">" (unescape e)).
      by rewrite IH. }
    change (String c "" +:+ e) with (String c e).
    rewrite unescape_other by done. by rewrite IH. }
  split; [exact Hrt|].
  intros a b Heq. rewrite <- (Hrt a), <- (Hrt b). by rewrite Heq.
Qed.

Lemma prefix_one_char (x c : Ascii.ascii) rest :
  String.prefix (String x "") (String c rest) = Ascii.eqb x c.
Proof.
  simpl. destruct (ascii_dec x c) as [->|Hne].
  - rewrite Ascii.eqb_refl. by destruct rest.
  - symmetry. by apply Ascii.eqb_neq.
Qed.

Lemma str_includes_char_cons (x c : Ascii.ascii) rest :
  str_includes (String c rest) (String x "")
  = Ascii.eqb x c || str_includes rest (String x "").
Proof.
  change (str_includes (String c rest) (String x ""))
    with (String.prefix (String x "") (String c rest)
          || str_includes rest (String x "")).
  by rewrite prefix_one_char.
Qed.

Lemma string_app_cons c s e : String c s +:+ e = String c (s +:+ e).
Proof. reflexivity. Qed.

Lemma string_app_nil e : "" +:+ e = e.
Proof. reflexivity. Qed.

Lemma string_app_assoc (a b c : string) : (a +:+ b) +:+ c = a +:+ (b +:+ c).
Proof.
  induction a as [|x a IH]; [done|].
  rewrite !string_app_cons. by rewrite IH.
Qed.

(** X4.  The escaped text holds neither [<] nor [>], and escaping works
    piece by piece: the escape of a concatenation is the concatenation of
    the escapes. *)
Theorem escapeText_safe :
  (∀ text, str_includes (escapeText text) "<" = false
           ∧ str_includes (escapeText text) ">" = false)
  ∧ (∀ a b, escapeText (a +:+ b) = escapeText a +:+ escapeText b).
Proof.
  split.
  - induction text as [|c t [IHlt IHgt]]; [done|].
    rewrite escapeText_cons.
    destruct (Ascii.eqb_spec c "&") as [->|Hamp].
    { rewrite !string_app_cons, string_app_nil.
      rewrite !str_includes_char_cons, IHlt, IHgt. done. }
    destruct (Ascii.eqb_spec c "<") as [->|Hlt].
    { rewrite !string_app_cons, string_app_nil.
      rewrite !str_includes_char_cons, IHlt, IHgt. done. }
    destruct (Ascii.eqb_spec c ">") as [->|Hgt].
    { rewrite !string_app_cons, string_app_nil.
      rewrite !str_includes_char_cons, IHlt, IHgt. done. }
    rewrite !string_app_cons, string_app_nil.
    rewrite !str_includes_char_cons, IHlt, IHgt.
    rewrite !orb_false_r. split; apply Ascii.eqb_neq; congruence.
  - intros a b. induction a as [|c a IH]; [done|].
    change (String c a +:+ b) with (String c (a +:+ b)).
    rewrite !escapeText_cons, IH.
    by rewrite string_app_assoc.
Qed.
End Escaping.

(** ** Repository labels *)

Section EnsureLabels.
Import RepoLabels.

Lemma repo_issued_app tr L evs : issued tr (mkWorld L (tr ++ evs)) = evs.
Proof. unfold issued. simpl. apply drop_app_length. Qed.

(** What the listing says about a definition. *)
Lemma found_label existing d l :
  snd <$> list_find (λ l, rl_name l = name d) existing = Some l →
  l ∈ existing ∧ rl_name l = name d.
Proof.
  destruct (list_find _ existing) as [[i l']|] eqn:Hf; [|done].
  simpl. intros [= ->]. apply list_find_Some in Hf as (Hi & Hn & _).
  split; [by eapply list_elem_of_lookup_2|done].
Qed.

Lemma not_found_label existing d :
  snd <$> list_find (λ l, rl_name l = name d) existing = None →
  name d ∉ map rl_name existing.
Proof.
  destruct (list_find _ existing) as [[i l']|] eqn:Hf; [done|].
  intros _. rewrite list_find_None in Hf.
  intros (l & Hl & Hin)%list_elem_of_In%in_map_iff.
  apply list_elem_of_In in Hin.
  by apply (proj1 (Forall_forall _ _) Hf l).
Qed.

Lemma stale_iff l d :
  rl_name l = name d →
  bool_decide (rl_color l ≠ color d)
  || bool_decide (rl_description l ≠ Some (description d))
  = negb (bool_decide (l = canonical d)).
Proof.
  intros Hn. destruct l as [n c ds]. simpl in *. subst n.
  unfold canonical.
  destruct (decide (c = color d)) as [->|Hc],
           (decide (ds = Some (description d))) as [->|Hd].
  - rewrite (bool_decide_eq_true_2 (_ = _)) by done.
    rewrite !bool_decide_eq_false_2 by (intros H; by apply H). done.
  - rewrite (bool_decide_eq_false_2 (_ = _)) by congruence.
    rewrite (bool_decide_eq_true_2 (ds ≠ _)) by done. apply orb_true_r.
  - rewrite (bool_decide_eq_false_2 (_ = _)) by congruence.
    by rewrite (bool_decide_eq_true_2 (c ≠ _)) by done.
  - rewrite (bool_decide_eq_false_2 (_ = _)) by congruence.
    by rewrite (bool_decide_eq_true_2 (c ≠ _)) by done.
Qed.

Lemma updated_names R d : map rl_name (updated R d) = map rl_name R.
Proof.
  unfold updated. rewrite map_map. apply map_ext. intros l.
  by case_bool_decide.
Qed.

Lemma updated_keeps R d l :
  l ∈ R → rl_name l ≠ name d → l ∈ updated R d.
Proof.
  intros Hin Hne. unfold updated. apply list_elem_of_In, in_map_iff.
  exists l. rewrite bool_decide_eq_false_2 by done.
  split; [done|]. by apply list_elem_of_In.
Qed.

Lemma updated_sets R d l :
  l ∈ R → rl_name l = name d → canonical d ∈ updated R d.
Proof.
  intros Hin Heq. unfold updated. apply list_elem_of_In, in_map_iff.
  exists l. rewrite bool_decide_eq_true_2 by done.
  split; [done|]. by apply list_elem_of_In.
Qed.

Lemma updated_others (N : list string) R d :
  name d ∈ N →
  filter (λ l, rl_name l ∉ N) (updated R d) = filter (λ l, rl_name l ∉ N) R.
Proof.
  intros HN. unfold updated. induction R as [|l R IH]; [done|]. simpl.
  case_bool_decide as Hl.
  - rewrite !filter_cons_False; [done|rewrite Hl; tauto|simpl; tauto].
  - rewrite !filter_cons. by rewrite IH.
Qed.

Lemma same_name_same_label (L : list RepoLabel) x y :
  NoDup (map rl_name L) → x ∈ L → y ∈ L → rl_name x = rl_name y → x = y.
Proof.
  induction L as [|l L IH]; simpl; intros Hnd Hx Hy Heq.
  { by apply elem_of_nil in Hx. }
  apply NoDup_cons in Hnd as [Hl Hnd].
  assert (Hin : ∀ z, z ∈ L → rl_name z ∈ map rl_name L).
  { intros z Hz. apply list_elem_of_In, in_map_iff. exists z.
    split; [done|]. by apply list_elem_of_In. }
  apply elem_of_cons in Hx as [->|Hx], Hy as [->|Hy]; [done|..].
  - exfalso. apply Hl. rewrite Heq. by apply Hin.
  - exfalso. apply Hl. rewrite <- Heq. by apply Hin.
  - by apply IH.
Qed.

(** The state reached by carrying out the plan drawn from the listing [S],
    starting from labels [R] that still hold the listed labels of the
    names to come. *)
Lemma plan_result S table :
  NoDup (map name table) →
  ∀ R, (∀ l, l ∈ S → rl_name l ∈ map name table → l ∈ R) →
  let F := foldl apply_call R (concat (map (planned S) table)) in
  (∀ d, d ∈ table → canonical d ∈ F)
  ∧ (∀ l, l ∈ R → rl_name l ∉ map name table → l ∈ F).
Proof.
  induction table as [|d0 table IH]; intros Hnd R Hkeep; simpl.
  { split; [by intros d ?%elem_of_nil|done]. }
  simpl in Hnd. apply NoDup_cons in Hnd as [Hd0 Hnd].
  rewrite foldl_app.
  set (R1 := foldl apply_call R (planned S d0)).
  assert (HR1 : (∀ l, l ∈ R → rl_name l ≠ name d0 → l ∈ R1)
                ∧ canonical d0 ∈ R1).
  { unfold R1, planned.
    destruct (snd <$> list_find _ S) as [l|] eqn:Hfind; simpl.
    - apply found_label in Hfind as [HlS Hname].
      assert (l ∈ R) as HlR by (apply Hkeep; [done|rewrite Hname; left]).
      case_bool_decide as Hcan; simpl.
      + split; [done|]. by rewrite <- Hcan.
      + split; [intros; by apply updated_keeps|by eapply updated_sets].
    - unfold created. split; [intros; apply elem_of_app; by left|].
      apply elem_of_app. right. left. }
  destruct HR1 as [Hkeep1 Hcan1].
  destruct (IH Hnd R1) as [Hall Hrest].
  { intros l HlS Hl. apply Hkeep1.
    - apply Hkeep; [done|]. by right.
    - intros Heq. apply Hd0. by rewrite <- Heq. }
  split.
  - intros d [->|Hd]%elem_of_cons; [|by apply Hall].
    by apply Hrest.
  - intros l Hl Hn. apply not_elem_of_cons in Hn as [Hne Hn].
    apply Hrest; [|done]. by apply Hkeep1.
Qed.

Lemma plan_others (N : list string) S table :
  (∀ d, d ∈ table → name d ∈ N) →
  ∀ R, filter (λ l, rl_name l ∉ N)
         (foldl apply_call R (concat (map (planned S) table)))
       = filter (λ l, rl_name l ∉ N) R.
Proof.
  induction table as [|d0 table IH]; intros HN R; [done|]. simpl.
  rewrite foldl_app, IH by (intros d Hd; apply HN; by right).
  assert (name d0 ∈ N) as Hd0 by (apply HN; left).
  unfold planned. destruct (snd <$> list_find _ S) as [l|]; simpl.
  - case_bool_decide; simpl; [done|]. by apply updated_others.
  - unfold created. rewrite filter_app, filter_cons_False by (simpl; tauto).
    apply app_nil_r.
Qed.

Lemma plan_prefix S table :
  ∀ R, map rl_name R `prefix_of`
       map rl_name (foldl apply_call R (concat (map (planned S) table))).
Proof.
  induction table as [|d0 table IH]; intros R; [done|]. simpl.
  rewrite foldl_app. etrans; [|apply IH].
  unfold planned. destruct (snd <$> list_find _ S) as [l|]; simpl.
  - case_bool_decide; simpl; [done|]. by rewrite updated_names.
  - unfold created. rewrite map_app. by apply prefix_app_r.
Qed.

Lemma plan_nodup S table :
  NoDup (map name table) →
  ∀ R, NoDup (map rl_name R) →
  (∀ d, d ∈ table → name d ∉ map rl_name S → name d ∉ map rl_name R) →
  NoDup (map rl_name (foldl apply_call R (concat (map (planned S) table)))).
Proof.
  induction table as [|d0 table IH]; intros Hnd R HR Hnew; [done|]. simpl.
  simpl in Hnd. apply NoDup_cons in Hnd as [Hd0 Hnd].
  rewrite foldl_app.
  assert (Hrest : ∀ d, d ∈ table → name d ∉ map rl_name S →
                       name d ∉ map rl_name R)
    by (intros d Hd; apply Hnew; by right).
  set (R1 := foldl apply_call R (planned S d0)).
  assert (HR1 : NoDup (map rl_name R1)
                ∧ ∀ d, d ∈ table → name d ∉ map rl_name S →
                       name d ∉ map rl_name R1).
  { unfold R1, planned.
    destruct (snd <$> list_find (λ l, rl_name l = name d0) S)
      as [l|] eqn:Hfind; simpl.
    - case_bool_decide; simpl; [done|]. by rewrite updated_names.
    - apply not_found_label in Hfind.
      unfold created. rewrite map_app. simpl. split.
      + apply NoDup_app. split; [done|]. split; [|apply NoDup_singleton].
        intros n Hn ->%list_elem_of_singleton. revert Hn.
        apply Hnew; [left|done].
      + intros d Hd HS [Hin|Heq%list_elem_of_singleton]%elem_of_app.
        * revert Hin. by apply Hrest.
        * apply Hd0. rewrite <- Heq. apply list_elem_of_In, in_map.
          by apply list_elem_of_In. }
  destruct HR1 as [Hnd1 Hnew1]. by apply IH.
Qed.

(** With distinct names in the listing, a definition whose label is there
    calls for no write. *)
Lemma planned_nothing existing d :
  NoDup (map rl_name existing) → canonical d ∈ existing →
  planned existing d = [].
Proof.
  intros Hnd Hin. unfold planned.
  destruct (snd <$> list_find _ existing) as [l|] eqn:Hfind.
  - apply found_label in Hfind as [Hl Hname].
    rewrite bool_decide_eq_true_2; [done|].
    by apply (same_name_same_label existing).
  - apply not_found_label in Hfind. exfalso. apply Hfind.
    apply list_elem_of_In, in_map_iff. exists (canonical d).
    split; [done|]. by apply list_elem_of_In.
Qed.

(** One pass of the loop body: it returns whatever the outcome of its
    write, issues the planned write, on success has its effect, and never
    takes a name away. *)
Lemma ensure_label_run api existing d w :
  ∃ evs R',
    ensure_label api existing d w = (Return tt, mkWorld R' (trace w ++ evs))
    ∧ map ev_call evs = planned existing d
    ∧ (Forall succeeded evs →
       R' = foldl apply_call (repo_labels w) (planned existing d))
    ∧ map rl_name (repo_labels w) `prefix_of` map rl_name R'.
Proof.
  destruct w as [R tr]. unfold ensure_label, planned.
  destruct (snd <$> list_find _ existing) as [l|] eqn:Hfind.
  - apply found_label in Hfind as [_ Hname].
    rewrite (stale_iff _ _ Hname).
    destruct (bool_decide (l = canonical d)); simpl.
    + exists [], R. by rewrite app_nil_r.
    + unfold try_catch, updateLabel, request. simpl.
      destruct (api tr (UpdateLabel d)) as [msg|]; simpl.
      * exists [mkEvent (UpdateLabel d) (Some msg)], R. repeat split; [|done].
        intros [Hbad _]%Forall_cons. discriminate Hbad.
      * exists [mkEvent (UpdateLabel d) None], (updated R d).
        repeat split. by rewrite updated_names.
  - unfold try_catch, createLabel, request. simpl.
    destruct (api tr (CreateLabel d)) as [msg|]; simpl.
    + exists [mkEvent (CreateLabel d) (Some msg)], R. repeat split; [|done].
      intros [Hbad _]%Forall_cons. discriminate Hbad.
    + exists [mkEvent (CreateLabel d) None], (created R d). repeat split.
      unfold created. rewrite map_app. by apply prefix_app_r.
Qed.

Lemma ensure_loop_run api existing table w :
  ∃ evs R',
    for_of table (ensure_label api existing) w
    = (Return tt, mkWorld R' (trace w ++ evs))
    ∧ map ev_call evs = concat (map (planned existing) table)
    ∧ (Forall succeeded evs →
       R' = foldl apply_call (repo_labels w)
              (concat (map (planned existing) table)))
    ∧ map rl_name (repo_labels w) `prefix_of` map rl_name R'.
Proof.
  revert w. induction table as [|d table IH]; intros w.
  - exists [], (repo_labels w). destruct w. simpl. by rewrite app_nil_r.
  - destruct (ensure_label_run api existing d w)
      as (evs1 & R1 & Hrun1 & Hcalls1 & Hlab1 & Hpre1).
    destruct (IH (mkWorld R1 (trace w ++ evs1)))
      as (evs2 & R2 & Hrun2 & Hcalls2 & Hlab2 & Hpre2).
    exists (evs1 ++ evs2), R2. simpl. unfold bind. rewrite Hrun1, Hrun2.
    simpl. rewrite <- app_assoc. split; [done|]. split; [|split].
    + by rewrite map_app, Hcalls1, Hcalls2.
    + intros [Hok1 Hok2]%Forall_app. rewrite foldl_app.
      rewrite (Hlab2 Hok2). simpl. by rewrite (Hlab1 Hok1).
    + by etrans.
Qed.

(** A run unfolded along the outcome of the listing. *)
Lemma ensure_table_run api table repo tr :
  match api tr ListLabelsForRepo with
  | None =>
      ∃ evs R',
        ensure_table api table (mkWorld repo tr)
        = (Return tt,
           mkWorld R' (tr ++ mkEvent ListLabelsForRepo None :: evs))
        ∧ map ev_call evs = concat (map (planned repo) table)
        ∧ (Forall succeeded evs →
           R' = foldl apply_call repo (concat (map (planned repo) table)))
        ∧ map rl_name repo `prefix_of` map rl_name R'
  | Some msg =>
      ensure_table api table (mkWorld repo tr)
      = (Throw msg,
         mkWorld repo (tr ++ [mkEvent ListLabelsForRepo (Some msg)]))
  end.
Proof.
  unfold ensure_table, bind, listLabelsForRepo, request. simpl.
  destruct (api tr ListLabelsForRepo) as [msg|] eqn:Hlist; [done|].
  destruct (ensure_loop_run api repo table
              (mkWorld repo (tr ++ [mkEvent ListLabelsForRepo None])))
    as (evs & R' & Hrun & Hcalls & Hlab & Hpre).
  simpl in Hrun, Hlab, Hpre. rewrite Hrun. exists evs, R'.
  by rewrite <- app_assoc.
Qed.

Lemma tables_distinct_names table :
  table ∈ tables → NoDup (map name table).
Proof.
  unfold tables. intros Ht.
  repeat (apply elem_of_cons in Ht as [->|Ht]);
    [by_computation..|by apply elem_of_nil in Ht].
Qed.

(** X5.  Whatever the outcome of the individual writes, once the listing
    went through a run returns and has issued, after the listing, exactly
    one write for each definition that needs one, in the order of the
    table: a creation when the listing has no label of that name, an
    update when the listed label differs in colour or description.  No
    name that was in the repository is lost.  When the listing fails the
    run throws and nothing is written.  The three functions are this run
    over their tables. *)
Theorem ensure_issues_planned_writes (api : Oracle) (table : list LabelDef)
    (repo : list RepoLabel) (tr : list Event) :
  (ensureLabelsExist api = ensure_table api QA_LABELS
   ∧ ensureStatusLabelsExist api = ensure_table api STATUS_LABELS
   ∧ ensureAllLabelsExist api = ensure_table api LABEL_DEFINITIONS)
  ∧ match api tr ListLabelsForRepo with
    | None =>
        ∃ w', ensure_table api table (mkWorld repo tr) = (Return tt, w')
              ∧ map ev_call (issued tr w')
                = ListLabelsForRepo :: concat (map (planned repo) table)
              ∧ map rl_name repo `prefix_of` map rl_name (repo_labels w')
    | Some msg =>
        ensure_table api table (mkWorld repo tr)
        = (Throw msg,
           mkWorld repo (tr ++ [mkEvent ListLabelsForRepo (Some msg)]))
    end.
Proof.
  split; [done|].
  pose proof (ensure_table_run api table repo tr) as Hrun.
  destruct (api tr ListLabelsForRepo) as [msg|]; [done|].
  destruct Hrun as (evs & R' & Hrun & Hcalls & _ & Hpre).
  eexists. split; [exact Hrun|]. rewrite repo_issued_app. simpl.
  by rewrite Hcalls.
Qed.

(** The state after a run in which every request succeeded: the plan
    drawn from the listing, carried out. *)
Lemma ensure_success api table repo tr r w' :
  ensure_table api table (mkWorld repo tr) = (r, w') →
  Forall succeeded (issued tr w') →
  r = Return tt
  ∧ repo_labels w' = foldl apply_call repo (concat (map (planned repo) table)).
Proof.
  intros Hrun Hok.
  pose proof (ensure_table_run api table repo tr) as Hrun'.
  destruct (api tr ListLabelsForRepo) as [msg|].
  { rewrite Hrun' in Hrun. injection Hrun as <- <-.
    rewrite repo_issued_app in Hok.
    apply Forall_cons in Hok as [Hbad _]. discriminate Hbad. }
  destruct Hrun' as (evs & R' & Hrun' & _ & Hlab & _).
  rewrite Hrun' in Hrun. injection Hrun as <- <-.
  rewrite repo_issued_app in Hok. apply Forall_cons in Hok as [_ Hok].
  simpl. by rewrite (Hlab Hok).
Qed.

(** X6.  A run over one of the three tables in which every request
    succeeds returns and leaves every label of the table in the repository
    with the table's colour and description; labels of other names are
    untouched, and names that were distinct stay distinct. *)
Theorem ensure_converges (api : Oracle) (table : list LabelDef)
    (repo : list RepoLabel) (tr : list Event) r w' :
  table ∈ tables →
  ensure_table api table (mkWorld repo tr) = (r, w') →
  Forall succeeded (issued tr w') →
  r = Return tt
  ∧ (∀ d, d ∈ table → canonical d ∈ repo_labels w')
  ∧ filter (λ l, rl_name l ∉ map name table) (repo_labels w')
    = filter (λ l, rl_name l ∉ map name table) repo
  ∧ (NoDup (map rl_name repo) → NoDup (map rl_name (repo_labels w'))).
Proof.
  intros Ht Hrun Hok. apply tables_distinct_names in Ht.
  destruct (ensure_success _ _ _ _ _ _ Hrun Hok) as [-> ->].
  split; [done|].
  destruct (plan_result repo table Ht repo) as [Hall _]; [done|].
  split; [exact Hall|]. split.
  - apply plan_others. intros d Hd.
    apply list_elem_of_In, in_map. by apply list_elem_of_In.
  - intros Hnd. by apply plan_nodup.
Qed.

Lemma ensure_converges_witness :
  Forall (λ d, canonical d ∈
      [ mkRepoLabel "bug" "D73A4A" None;
        mkRepoLabel "qa:failed" "CB2431" (Some "QA workflow failed");
        mkRepoLabel "qa:running" "FFA500" (Some "QA workflow is currently running");
        mkRepoLabel "qa:pending" "CEE0F5" (Some "QA workflow needs to run");
        mkRepoLabel "qa:success" "22863A" (Some "QA workflow passed successfully") ])
    QA_LABELS.
Proof.
  apply Forall_forall.
  refine (proj1 (proj2
    (ensure_converges always_ok QA_LABELS
       [ mkRepoLabel "bug" "D73A4A" None;
         mkRepoLabel "qa:failed" "FF0000" None;
         mkRepoLabel "qa:running" "FFA500" (Some "QA workflow is currently running") ]
       [] (Return tt)
       (mkWorld _
          [ mkEvent ListLabelsForRepo None;
            mkEvent (CreateLabel (mkDef "qa:pending" "CEE0F5" "QA workflow needs to run")) None;
            mkEvent (CreateLabel (mkDef "qa:success" "22863A" "QA workflow passed successfully")) None;
            mkEvent (UpdateLabel (mkDef "qa:failed" "CB2431" "QA workflow failed")) None ])
       _ _ _))).
  - by_computation.
  - vm_compute. reflexivity.
  - vm_compute. repeat constructor.
Defined.

(** X7.  After a run over one of the three tables in which every request
    succeeded, on a repository whose label names are distinct, a further
    run over the same table or over a table contained in it (the QA table
    is contained in the labeler's table) only lists the labels: it issues
    no creation and no update and leaves the repository as it is. *)
Theorem ensure_settles (api1 api2 : Oracle) (table1 table2 : list LabelDef)
    (repo : list RepoLabel) (tr : list Event) r1 w1 r2 w2 :
  table1 ∈ tables →
  Forall (λ d, d ∈ table1) table2 →
  NoDup (map rl_name repo) →
  ensure_table api1 table1 (mkWorld repo tr) = (r1, w1) →
  Forall succeeded (issued tr w1) →
  ensure_table api2 table2 w1 = (r2, w2) →
  map ev_call (issued (trace w1) w2) = [ListLabelsForRepo]
  ∧ repo_labels w2 = repo_labels w1
  ∧ (Forall succeeded (issued (trace w1) w2) → r2 = Return tt).
Proof.
  intros Ht Hsub Hnd Hrun1 Hok Hrun2. apply tables_distinct_names in Ht.
  destruct (ensure_success _ _ _ _ _ _ Hrun1 Hok) as [_ Hstate].
  destruct (plan_result repo table1 Ht repo) as [Hall _]; [done|].
  assert (Hnd1 : NoDup (map rl_name (repo_labels w1)))
    by (rewrite Hstate; by apply plan_nodup).
  rewrite <- Hstate in Hall.
  destruct w1 as [R1 tr1]. simpl in *.
  assert (Hplan : concat (map (planned R1) table2) = []).
  { clear Hrun2. induction table2 as [|d t IH]; [done|]. simpl.
    apply Forall_cons in Hsub as [Hd Hsub].
    rewrite (planned_nothing R1 d Hnd1 (Hall d Hd)). by apply IH. }
  pose proof (ensure_table_run api2 table2 R1 tr1) as Hrun2'.
  destruct (api2 tr1 ListLabelsForRepo) as [msg|].
  { rewrite Hrun2' in Hrun2. injection Hrun2 as <- <-.
    rewrite repo_issued_app. simpl. repeat split.
    intros [Hbad _]%Forall_cons. discriminate Hbad. }
  destruct Hrun2' as (evs & R' & Hrun2' & Hcalls & Hlab & _).
  rewrite Hrun2' in Hrun2. injection Hrun2 as <- <-.
  rewrite Hplan in Hcalls, Hlab. apply map_eq_nil in Hcalls. subst evs.
  rewrite repo_issued_app. simpl. rewrite Hlab by constructor. done.
Qed.

Lemma ensure_settles_witness :
  ∃ w1 w2,
    ensureAllLabelsExist always_ok
      (mkWorld [mkRepoLabel "bug" "D73A4A" None;
                mkRepoLabel "qa:failed" "FF0000" None] [])
    = (Return tt, w1)
    ∧ ensureLabelsExist always_ok w1 = (Return tt, w2)
    ∧ map ev_call (issued (trace w1) w2) = [ListLabelsForRepo].
Proof.
  eexists. eexists. split; [vm_compute; reflexivity|].
  split; [vm_compute; reflexivity|].
  refine (proj1
    (ensure_settles always_ok always_ok LABEL_DEFINITIONS QA_LABELS
       [mkRepoLabel "bug" "D73A4A" None; mkRepoLabel "qa:failed" "FF0000" None]
       [] (Return tt) _ (Return tt) _ _ _ _ _ _ _)).
  - by_computation.
  - by_computation.
  - by_computation.
  - vm_compute. reflexivity.
  - vm_compute. repeat constructor.
  - vm_compute. reflexivity.
Defined.
End EnsureLabels.

(** ** The retrying Slack client *)

Section SlackRetries.
Import SlackClient.
Context {Payload : Type}.
Implicit Types (net : nat → Outcome Payload) (data : Data Payload).

Lemma catch_block_last (M : nat) message :
  catch_block (Payload := Payload) M M message = Done (Throw message).
Proof.
  unfold catch_block. rewrite Nat.eqb_refl. by destruct (is_network_error _).
Qed.

(** A round whose outcome is retryable, with attempts left, goes on. *)
Lemma round_retry net M a le :
  retryable (net a) = true → a < M →
  ∃ le', round net M a le = (Continue le', retried net a).
Proof.
  intros Hr Ha. unfold round, retried.
  assert ((a <? M) = true) as Hlt by by apply Nat.ltb_lt.
  assert ((a =? M) = false) as Hne by (apply Nat.eqb_neq; lia).
  destruct (net a) as [data|message]; simpl in Hr.
  - apply andb_true_iff in Hr as [Hok Hfatal].
    apply negb_true_iff in Hok. apply negb_true_iff in Hfatal.
    apply bool_decide_eq_false in Hfatal.
    unfold on_response. rewrite Hok.
    destruct (String.eqb_spec (error data) "missing_scope") as [He|_].
    { exfalso. apply Hfatal. rewrite He. by_computation. }
    destruct (String.eqb_spec (error data) "not_in_channel") as [He|_].
    { exfalso. apply Hfatal. rewrite He. by_computation. }
    destruct (String.eqb_spec (error data) "channel_not_found") as [He|_].
    { exfalso. apply Hfatal. rewrite He. by_computation. }
    rewrite Hlt, Hne.
    destruct (String.eqb (error data) "rate_limited"); simpl; eauto.
  - unfold catch_block. rewrite Hr, Hne. eauto.
Qed.

(** A round whose outcome is not retryable, or which is the last one
    allowed, completes the call with the verdict on that outcome. *)
Lemma round_decides net M k le :
  retryable (net k) = false ∨ k = M →
  round net M k le = (Done (verdict (net k)), decided k).
Proof.
  intros Hk. unfold round, decided, verdict.
  destruct (net k) as [data|message]; simpl in Hk.
  - unfold on_response. destruct (ok data) eqn:Hok; [done|]. simpl in Hk.
    destruct (String.eqb_spec (error data) "missing_scope") as [->|H1]; [done|].
    destruct (String.eqb_spec (error data) "not_in_channel") as [->|H2]; [done|].
    destruct (String.eqb_spec (error data) "channel_not_found") as [->|H3]; [done|].
    destruct Hk as [Hk| ->].
    + apply negb_false_iff, bool_decide_eq_true in Hk.
      repeat (apply elem_of_cons in Hk as [Hk|Hk]; [congruence|]).
      by apply elem_of_nil in Hk.
    + rewrite Nat.ltb_irrefl, andb_false_r, Nat.eqb_refl.
      by rewrite catch_block_last.
  - destruct Hk as [Hk| ->]; [|by rewrite catch_block_last].
    unfold catch_block. by rewrite Hk.
Qed.

Lemma rounds_decided net M k :
  k ≤ M →
  retryable (net k) = false ∨ k = M →
  ∀ steps attempt le,
    k = attempt + steps →
    (∀ j, attempt ≤ j < k → retryable (net j) = true) →
    rounds net M (S (M - attempt)) attempt le
    = (verdict (net k),
       concat (map (retried net) (seq attempt steps)) ++ decided k).
Proof.
  intros HkM Hk. induction steps as [|steps IH]; intros attempt le Heq Hbefore.
  - rewrite Nat.add_0_r in Heq. subst attempt. simpl.
    by rewrite round_decides.
  - simpl.
    destruct (round_retry net M attempt le) as [le' Hround];
      [apply Hbefore; lia|lia|].
    rewrite Hround.
    replace (M - attempt) with (S (M - S attempt)) by lia.
    rewrite (IH (S attempt) le') by (try lia; intros; apply Hbefore; lia).
    by rewrite <- app_assoc.
Qed.

Lemma slackApi_rounds net (M k : nat) :
  k ≤ M →
  (∀ j, j < k → retryable (net j) = true) →
  retryable (net k) = false ∨ k = M →
  slackApi net M
  = (verdict (net k), concat (map (retried net) (seq 0 k)) ++ decided k).
Proof.
  intros HkM Hbefore Hk. unfold slackApi.
  rewrite <- (Nat.sub_0_r M) at 2.
  apply rounds_decided; [done|done|done|].
  intros j [_ Hj]. by apply Hbefore.
Qed.

(** X8.  The call is decided by the first attempt whose outcome is a
    success or a failure that is not retried, or else by the last attempt
    allowed: it returns that attempt's body or throws that attempt's error,
    having sent exactly the attempts up to it, each later one after its
    backoff wait.  In particular a permission or channel error is never
    retried and no attempt follows a success. *)
Theorem slackApi_decided net (maxRetries k : nat) :
  k ≤ maxRetries →
  (∀ j, j < k → retryable (net j) = true) →
  retryable (net k) = false ∨ k = maxRetries →
  slackApi net maxRetries
  = (verdict (net k),
     concat (map (retried net) (seq 0 k)) ++ decided k).
Proof.
  intros HkM Hbefore Hk. unfold slackApi.
  rewrite <- (Nat.sub_0_r maxRetries) at 2.
  apply rounds_decided; [done|done|done|].
  intros j [_ Hj]. by apply Hbefore.
Qed.

Lemma decisive_attempt net (M : nat) :
  ∃ k, k ≤ M ∧ (∀ j, j < k → retryable (net j) = true)
       ∧ (retryable (net k) = false ∨ k = M).
Proof.
  induction M as [|M (k & HkM & Hbefore & Hk)].
  - exists 0. split; [done|]. split; [intros; lia|by right].
  - destruct Hk as [Hk| ->].
    + exists k. split; [lia|]. split; [done|by left].
    + destruct (retryable (net M)) eqn:HM.
      * exists (S M). split; [done|]. split; [|by right].
        intros j Hj. destruct (decide (j = M)) as [->|]; [done|].
        apply Hbefore. lia.
      * exists M. split; [lia|]. split; [done|by left].
Qed.

Lemma fetches_app e1 e2 : fetches (e1 ++ e2) = fetches e1 ++ fetches e2.
Proof. unfold fetches. apply omap_app. Qed.

Lemma backoffs_app e1 e2 : backoffs (e1 ++ e2) = backoffs e1 ++ backoffs e2.
Proof. unfold backoffs. apply omap_app. Qed.

Lemma fetches_retried net a : fetches (retried net a) = [a].
Proof.
  unfold retried. rewrite fetches_app.
  destruct (0 <? a), (net a) as [data|]; simpl; try done;
    by destruct (String.eqb _ _).
Qed.

Lemma backoffs_retried net a :
  backoffs (retried net a) = if 0 <? a then [backoffTime a] else [].
Proof.
  unfold retried. rewrite backoffs_app.
  destruct (0 <? a), (net a) as [data|]; simpl; try done;
    by destruct (String.eqb _ _).
Qed.

Lemma fetches_retried_seq net a n :
  fetches (concat (map (retried net) (seq a n))) = seq a n.
Proof.
  revert a. induction n as [|n IH]; intros a; [done|]. simpl.
  by rewrite fetches_app, fetches_retried, IH.
Qed.

Lemma backoffs_retried_seq net a n :
  backoffs (concat (map (retried net) (seq a n)))
  = map backoffTime (filter (λ j, 0 < j) (seq a n)).
Proof.
  revert a. induction n as [|n IH]; intros a; [done|]. simpl.
  rewrite backoffs_app, backoffs_retried, IH.
  destruct a; [done|]. by rewrite filter_cons_True by lia.
Qed.

Lemma filter_pos_seq a n :
  filter (λ j, 0 < j) (seq (S a) n) = seq (S a) n.
Proof.
  revert a. induction n as [|n IH]; intros a; [done|]. simpl.
  rewrite filter_cons_True by lia. by rewrite IH.
Qed.

Lemma backoffTime_le a : (backoffTime a ≤ 10000)%N.
Proof. unfold backoffTime. apply N.le_min_r. Qed.

(** X9.  Whatever the network does, a call sends at least one and at
    most [maxRetries + 1] requests, numbered from 0 upwards; before the
    request number [j > 0] it waits [min(1000 * 2^(j-1), 10000)]
    milliseconds and never waits otherwise, except after a [rate_limited]
    response; no backoff wait is longer than 10 seconds. *)
Theorem slackApi_bounded net (maxRetries : nat) :
  ∃ k, k ≤ maxRetries
       ∧ fst (slackApi net maxRetries) = verdict (net k)
       ∧ fetches (snd (slackApi net maxRetries)) = seq 0 (S k)
       ∧ backoffs (snd (slackApi net maxRetries))
         = map backoffTime (seq 1 k)
       ∧ Forall (λ ms, (ms ≤ 10000)%N) (backoffs (snd (slackApi net maxRetries))).
Proof.
  destruct (decisive_attempt net maxRetries) as (k & HkM & Hbefore & Hk).
  exists k. rewrite (slackApi_rounds net maxRetries k HkM Hbefore Hk).
  cbn [fst snd]. split; [done|]. split; [done|].
  assert (Hb : backoffs (concat (map (retried net) (seq 0 k)) ++ decided k)
               = map backoffTime (seq 1 k)).
  { rewrite backoffs_app, backoffs_retried_seq. unfold decided.
    destruct k as [|k]; [done|].
    change (seq 0 (S k)) with (0 :: seq 1 k).
    rewrite filter_cons_False by lia. rewrite filter_pos_seq.
    rewrite (seq_S k 1), map_app. reflexivity. }
  split.
  - rewrite fetches_app, fetches_retried_seq. unfold decided.
    rewrite seq_S. f_equal. by destruct k.
  - split; [exact Hb|]. rewrite Hb. apply Forall_forall.
    intros ms (a & <- & _)%list_elem_of_In%in_map_iff. apply backoffTime_le.
Qed.
End SlackRetries.

Lemma slackApi_decided_witness :
  SlackClient.slackApi (Payload := unit)
    (λ attempt,
       match attempt with
       | 0 => SlackClient.Responded (SlackClient.mkData false "rate_limited" (Some 2%N) tt)
       | 1 => SlackClient.Failed "fetch failed"
       | 2 => SlackClient.Responded (SlackClient.mkData false "missing_scope" None tt)
       | _ => SlackClient.Responded (SlackClient.mkData true "" None tt)
       end) 3
  = (Throw "Slack API error: missing_scope",
     [ SlackClient.Fetch 0; SlackClient.RateLimitWait 2000;
       SlackClient.Backoff 1000; SlackClient.Fetch 1;
       SlackClient.Backoff 2000; SlackClient.Fetch 2 ]).
Proof.
  rewrite (slackApi_decided _ 3 2).
  - reflexivity.
  - lia.
  - intros [|[|j]] Hj; [reflexivity|reflexivity|lia].
  - left. reflexivity.
Defined.


(** ** QA status from job results *)

Section JobResults.
Import PrReviewChecker.

(** X10.  On any event other than [pull_request_review] the status is
    decided by the QA job result alone: the pull request is not fetched
    and the secret scanning result plays no part.  The status is [success]
    only for the result [success], [pending] only for [skipped] or a
    missing or empty result, and [failed] for everything else; it is never
    [running]. *)
Theorem determineQAStatus_job_result
    (pulls_get pulls_get' : Completion (list string)) (eventName : string)
    (qaResult secretScanningResult secretScanningResult' : option string) :
  eventName ≠ "pull_request_review" →
  determineQAStatus pulls_get eventName qaResult secretScanningResult
  = determineQAStatus pulls_get' eventName qaResult secretScanningResult'
  ∧ ∃ qaStatus,
      determineQAStatus pulls_get eventName qaResult secretScanningResult
      = Return qaStatus
      ∧ qaStatus ∈ ["success"; "failed"; "pending"]
      ∧ (qaStatus = "success" ↔ qaResult = Some "success")
      ∧ (qaStatus = "pending"
         ↔ qaResult ∈ [Some "skipped"; Some ""; None]).
Proof.
  intros Hev. unfold determineQAStatus.
  destruct (String.eqb_spec eventName "pull_request_review") as [|_]; [done|].
  split; [done|]. eexists. split; [reflexivity|].
  destruct qaResult as [q|].
  2: { simpl. split; [by_computation|]. split; [by split|].
       split; [intros _; by_computation|done]. }
  unfold not_given, truthy.
  destruct (decide (q = "success")) as [->|Hs].
  { simpl. split; [by_computation|]. split; [by split|]. split; [done|].
    intros Hin. exfalso. revert Hin. by_computation. }
  rewrite (bool_decide_eq_false_2 (Some q = Some "success")) by congruence.
  destruct (decide (q = "failure")) as [->|Hf].
  { simpl. split; [by_computation|]. split; [by split|]. split; [done|].
    intros Hin. exfalso. revert Hin. by_computation. }
  rewrite (bool_decide_eq_false_2 (Some q = Some "failure")) by congruence.
  destruct (decide (q = "cancelled")) as [->|Hc].
  { simpl. split; [by_computation|]. split; [by split|]. split; [done|].
    intros Hin. exfalso. revert Hin. by_computation. }
  rewrite (bool_decide_eq_false_2 (Some q = Some "cancelled")) by congruence.
  destruct (decide (q = "skipped")) as [->|Hk].
  { simpl. split; [by_computation|]. split; [by split|].
    split; [intros _; by_computation|done]. }
  rewrite (bool_decide_eq_false_2 (Some q = Some "skipped")) by congruence.
  destruct (String.eqb_spec q "") as [->|He]; simpl.
  { split; [by_computation|]. split; [by split|].
    split; [intros _; by_computation|done]. }
  split; [by_computation|]. split; [split; [done|congruence]|].
  split; [done|]. intros Hin.
  repeat (apply elem_of_cons in Hin as [Hin|Hin]; [congruence|]).
  by apply elem_of_nil in Hin.
Qed.

Lemma determineQAStatus_job_result_witness :
  determineQAStatus (Throw "Not Found") "pull_request" (Some "timed_out")
                    (Some "failure")
  = determineQAStatus (Return ["qa:success"]) "pull_request" (Some "timed_out")
                      None.
Proof.
  apply (determineQAStatus_job_result (Throw "Not Found")
           (Return ["qa:success"]) "pull_request" (Some "timed_out")
           (Some "failure") None).
  by_computation.
Defined.
End JobResults.

(** ** Auto-merge: when the remote side is consulted *)

Section AutoMergeRemote.
Import AutoMergeManager.

(** X11.  For a bot author, and whenever approval is missing, the QA
    status is not [success] or the pull request is a draft, the controller
    completes the same way and prints the same lines whatever the remote
    side would answer: it neither fetches the pull request nor sends the
    mutation.  Otherwise its behaviour depends on the remote side only
    through the fetch and through the mutation for the fetched node id
    with the one value [mergeMethodMap[mergeMethod] || "SQUASH"].  That
    value is [MERGE], [SQUASH] or [REBASE] for the three methods; for a
    name inherited from [Object.prototype], such as [constructor], it is
    the inherited value and not a string; for every other method it is
    [SQUASH]. *)
Theorem manageAutoMerge_remote_use
    (remote remote' : Remote) (prNumber prAuthor prAuthorType : string)
    (hasApproval : bool) (qaStatus : string) (isDraft : bool)
    (mergeMethod : string) :
  (prAuthorType = "Bot" ∨ hasApproval = false ∨ qaStatus ≠ "success"
   ∨ isDraft = true →
   manageAutoMerge remote prNumber prAuthor prAuthorType hasApproval
     qaStatus isDraft mergeMethod
   = manageAutoMerge remote' prNumber prAuthor prAuthorType hasApproval
       qaStatus isDraft mergeMethod)
  ∧ (pulls_get remote = pulls_get remote' →
     (∀ node_id,
        graphql remote node_id (mergeMethodSent mergeMethod)
        = graphql remote' node_id (mergeMethodSent mergeMethod)) →
     manageAutoMerge remote prNumber prAuthor prAuthorType hasApproval
       qaStatus isDraft mergeMethod
     = manageAutoMerge remote' prNumber prAuthor prAuthorType hasApproval
         qaStatus isDraft mergeMethod)
  ∧ mergeMethodSent "merge" = Enum "MERGE"
  ∧ mergeMethodSent "squash" = Enum "SQUASH"
  ∧ mergeMethodSent "rebase" = Enum "REBASE"
  ∧ (mergeMethod ∈ OBJECT_PROTOTYPE →
     mergeMethodSent mergeMethod = Inherited mergeMethod)
  ∧ (mergeMethod ∉ ["merge"; "rebase"] ++ OBJECT_PROTOTYPE →
     mergeMethodSent mergeMethod = Enum "SQUASH").
Proof.
  split; [|split; [|split; [|split; [|split; [|split]]]]]; try reflexivity.
  - intros Hskip. unfold manageAutoMerge.
    destruct (String.eqb_spec prAuthorType "Bot") as [|Hbot]; [done|].
    destruct Hskip as [?|[->|[Hqa| ->]]]; [done|done| |].
    + destruct (String.eqb_spec qaStatus "success") as [|_]; [done|].
      by rewrite andb_false_r.
    + by rewrite andb_false_r.
  - intros Hget Hgql. unfold manageAutoMerge, try_block.
    destruct (String.eqb prAuthorType "Bot"); [done|].
    destruct (hasApproval && String.eqb qaStatus "success" && negb isDraft);
      [|done].
    rewrite <- Hget. destruct (pulls_get remote) as [node_id|]; [|done].
    by rewrite <- Hgql.
  - intros Hin. unfold mergeMethodSent, mergeMethodMap.
    rewrite (proj2 (includes_true _ _) Hin).
    unfold OBJECT_PROTOTYPE in Hin.
    repeat (apply elem_of_cons in Hin as [->|Hin]; [reflexivity|]).
    by apply elem_of_nil in Hin.
  - intros Hout. unfold mergeMethodSent, mergeMethodMap.
    rewrite elem_of_app, !elem_of_cons in Hout.
    destruct (String.eqb_spec mergeMethod "merge") as [|_]; [tauto|].
    destruct (String.eqb_spec mergeMethod "squash") as [|_]; [done|].
    destruct (String.eqb_spec mergeMethod "rebase") as [|_]; [tauto|].
    rewrite (proj2 (includes_false _ _)); [done|tauto].
Qed.
End AutoMergeRemote.


(** ** The matcher *)

Section Matcher.
Import Regex RegexLoop.

Lemma run_Plus r1 s caps k :
  run (Plus r1) s caps k
  = iterate (run r1) k (S (String.length s)) true s caps.
Proof. reflexivity. Qed.

Lemma capture_other n m text caps :
  m ≠ n → capture n ((m, text) :: caps) = capture n caps.
Proof. intros Hne. simpl. by rewrite (proj2 (Nat.eqb_neq m n) Hne). Qed.

(** Whenever the matcher succeeds its result is a result of the
    continuation, called with captures that agree with the given ones on
    every group the pattern does not contain. *)
Lemma run_inv r :
  ∀ s caps k c,
    run r s caps k = Some c →
    ∃ s' caps',
      k s' caps' = Some c
      ∧ ∀ n, n ∉ groups r → capture n caps' = capture n caps.
Proof.
  induction r as [l| |r1 IH1 r2 IH2|r1 IH1 r2 IH2|r1 IH1|r1 IH1|m r1 IH1];
    intros s caps k c Hrun.
  - simpl in Hrun. destruct (String.prefix l s); [eauto|done].
  - simpl in Hrun. destruct s as [|x rest]; [done|].
    destruct (is_line_terminator (String x rest)); [done|eauto].
  - simpl in Hrun. apply IH1 in Hrun as (s1 & caps1 & Hrun & Hc1).
    apply IH2 in Hrun as (s2 & caps2 & Hrun & Hc2).
    exists s2, caps2. split; [done|]. intros n Hn. simpl in Hn.
    rewrite Hc2, Hc1; [done|..]; intros ?; apply Hn, elem_of_app; auto.
  - simpl in Hrun. destruct (run r1 s caps k) as [c1|] eqn:H1.
    + injection Hrun as ->. apply IH1 in H1 as (s1 & caps1 & Hk & Hc1).
      exists s1, caps1. split; [done|]. intros n Hn. apply Hc1.
      intros ?. apply Hn. simpl. apply elem_of_app. auto.
    + apply IH2 in Hrun as (s2 & caps2 & Hk & Hc2).
      exists s2, caps2. split; [done|]. intros n Hn. apply Hc2.
      intros ?. apply Hn. simpl. apply elem_of_app. auto.
  - simpl in Hrun.
    destruct (run r1 s caps _) as [c1|] eqn:H1.
    + injection Hrun as ->. apply IH1 in H1 as (s1 & caps1 & Hk & Hc1).
      destruct (String.length s1 =? String.length s); [done|]. eauto.
    + eauto.
  - rewrite run_Plus in Hrun. revert Hrun.
    generalize (S (String.length s)) as fuel. generalize true as first.
    intros first fuel. revert first s caps.
    induction fuel as [|fuel IHf]; intros first s caps Hrun; simpl in Hrun.
    + apply IH1 in Hrun as (s1 & caps1 & Hk & Hc1).
      destruct (negb first && _); [done|]. eauto.
    + apply IH1 in Hrun as (s1 & caps1 & Hk & Hc1).
      destruct (negb first && _); [done|].
      destruct (iterate (run r1) k fuel false s1 caps1) as [c2|] eqn:Hit.
      * injection Hk as ->. apply IHf in Hit as (s2 & caps2 & Hk & Hc2).
        exists s2, caps2. split; [done|]. intros n Hn.
        by rewrite Hc2, Hc1.
      * eauto.
  - simpl in Hrun. apply IH1 in Hrun as (s1 & caps1 & Hk & Hc1).
    eexists _, _. split; [exact Hk|]. intros n Hn. simpl in Hn.
    apply not_elem_of_cons in Hn as [Hne Hn].
    rewrite capture_other by done. by apply Hc1.
Qed.
End Matcher.


(** ** The labels of the conventional-commit labeler *)

Section LabelerShape.
Import Regex RegexLoop PrLabeler LabelerVocabulary.

Lemma drop_chars_length n s :
  String.length (drop_chars n s) ≤ String.length s.
Proof.
  revert s. induction n as [|n IH]; intros [|c s]; simpl; try lia.
  specialize (IH s). lia.
Qed.

Lemma prefix_cons_inv c l s :
  String.prefix (String c l) s = true →
  ∃ s1, s = String c s1 ∧ String.prefix l s1 = true.
Proof.
  destruct s as [|x s1]; [done|]. simpl.
  destruct (ascii_dec c x) as [->|]; [eauto|done].
Qed.

(** The text a literal consumes is the literal. *)
Lemma consumed_prefix l s :
  String.prefix l s = true →
  consumed s (drop_chars (String.length l) s) = l.
Proof.
  unfold consumed. revert s. induction l as [|c l IH]; intros s Hp.
  - simpl. rewrite Nat.sub_diag. by destruct s.
  - apply prefix_cons_inv in Hp as (s1 & -> & Hp). simpl.
    pose proof (drop_chars_length (String.length l) s1) as Hlen.
    replace (S (String.length s1)
             - String.length (drop_chars (String.length l) s1))
      with (S (String.length s1
               - String.length (drop_chars (String.length l) s1))) by lia.
    simpl. by rewrite IH.
Qed.

(** A successful match of an alternation of literals went through one
    of them. *)
Lemma alt_of_inv first others s caps k c :
  run (alt_of first others) s caps k = Some c →
  ∃ l, l ∈ first :: others ∧ String.prefix l s = true
       ∧ k (drop_chars (String.length l) s) caps = Some c.
Proof.
  unfold alt_of.
  assert (Hgen : ∀ (done_ : list string) r0,
    (∀ c, run r0 s caps k = Some c →
          ∃ l, l ∈ done_ ∧ String.prefix l s = true
               ∧ k (drop_chars (String.length l) s) caps = Some c) →
    ∀ c, run (foldl (λ acc l, Alt acc (Lit l)) r0 others) s caps k = Some c →
         ∃ l, l ∈ done_ ++ others ∧ String.prefix l s = true
              ∧ k (drop_chars (String.length l) s) caps = Some c).
  { induction others as [|o others IH]; intros done_ r0 H0 c' Hrun.
    - rewrite app_nil_r. by apply H0.
    - simpl in Hrun. replace (done_ ++ o :: others)
        with ((done_ ++ [o]) ++ others) by by rewrite <- app_assoc.
      eapply IH; [|exact Hrun]. clear c' Hrun. intros c' Hrun.
      simpl in Hrun. destruct (run r0 s caps k) as [c0|] eqn:Hr0.
      + injection Hrun as ->. destruct (H0 c' eq_refl) as (l & Hl & Hp & Hk).
        exists l. split; [apply elem_of_app; by left|done].
      + destruct (String.prefix o s) eqn:Hp; [|done].
        exists o. split; [apply elem_of_app; right; left|done]. }
  intros Hrun. apply (Hgen [first] (Lit first)); [|done].
  intros c' Hc'. simpl in Hc'.
  destruct (String.prefix first s) eqn:Hp; [|done].
  exists first. split; [left|done].
Qed.

Lemma run_Cat r1 r2 s caps k :
  run (Cat r1 r2) s caps k = run r1 s caps (λ s' caps', run r2 s' caps' k).
Proof. reflexivity. Qed.

Lemma run_Group n r1 s caps k :
  run (Group n r1) s caps k
  = run r1 s caps (λ s' caps', k s' ((n, consumed s s') :: caps')).
Proof. reflexivity. Qed.

Lemma run_Lit l s caps k :
  run (Lit l) s caps k
  = if String.prefix l s then k (drop_chars (String.length l) s) caps
    else None.
Proof. reflexivity. Qed.

(** The type label of a title the type pattern matches is one of the ten
    types. *)
Lemma type_capture prTitle caps :
  match_anchored TYPE_RE prTitle = Some caps →
  ∃ t, t ∈ type_names ∧ capture 1 caps = Some t
       ∧ String.prefix t prTitle = true.
Proof.
  unfold match_anchored, TYPE_RE. intros Hrun.
  rewrite run_Cat, run_Group in Hrun. unfold conventional_types in Hrun.
  apply alt_of_inv in Hrun as (t & Ht & Hp & Hrun). cbv beta in Hrun.
  apply run_inv in Hrun as (s1 & caps1 & Hk & Hc1).
  injection Hk as <-.
  exists t. split; [exact Ht|]. split; [|done].
  rewrite Hc1 by by_computation.
  simpl. by rewrite consumed_prefix.
Qed.

Lemma labeler_names_defined :
  Forall (λ n, n ∈ map RepoLabels.name RepoLabels.LABEL_DEFINITIONS)
         (["dependencies"; "chore"; "breaking"; "status:draft";
           "status:ready-for-review"] ++ type_names).
Proof. by_computation. Qed.

(** X12.  Whatever the title, the body and the draft flag, the labeler
    applies two or three distinct labels: first [dependencies], [chore] or
    one of the ten types, then [breaking] exactly when the breaking pattern
    matches the title or the body holds [BREAKING CHANGE:], and last the
    one label for the draft flag.  Every label it applies is defined in
    [LABEL_DEFINITIONS]. *)
Theorem analyzePRAndApplyLabels_shape (prTitle prBody : string) (pr_draft : bool) :
  let labels := analyzePRAndApplyLabels prTitle prBody pr_draft in
  let breaking :=
    bool_decide (is_Some (match_anchored BREAKING_RE prTitle))
    || str_includes prBody "BREAKING CHANGE:" in
  (∃ kind, kind ∈ "dependencies" :: "chore" :: type_names
           ∧ labels = kind :: (if breaking then ["breaking"] else [])
                        ++ [draft_label pr_draft])
  ∧ NoDup labels
  ∧ ("breaking" ∈ labels ↔ breaking = true)
  ∧ Forall (λ n, n ∈ map RepoLabels.name RepoLabels.LABEL_DEFINITIONS) labels.
Proof.
  intros labels breaking.
  assert (Hkind : ∃ kind, kind ∈ "dependencies" :: "chore" :: type_names
           ∧ labels = kind :: (if breaking then ["breaking"] else [])
                        ++ [draft_label pr_draft]).
  { unfold labels, analyzePRAndApplyLabels. fold breaking.
    case_bool_decide as Hdeps.
    - exists "dependencies". split; [left|].
      by destruct breaking, pr_draft.
    - destruct (match_anchored TYPE_RE prTitle) as [caps|] eqn:Htype.
      + apply type_capture in Htype as (t & Ht & -> & _).
        exists t. split; [by do 2 right|]. by destruct breaking, pr_draft.
      + exists "chore". split; [right; left|].
        by destruct breaking, pr_draft. }
  destruct Hkind as (kind & Hk & Hlabels). rewrite Hlabels.
  split; [eauto|].
  assert (Hcases : kind ∈ "dependencies" :: "chore" :: type_names) by done.
  unfold type_names in Hcases.
  repeat (apply elem_of_cons in Hcases as [->|Hcases]);
    [..|by apply elem_of_nil in Hcases];
    destruct breaking, pr_draft;
    (split; [by_computation|split; by_computation]).
Qed.

(** *** Titles of the form [type:], [type(scope):] and [type(deps):] *)

Lemma prefix_app l s : String.prefix l (l +:+ s) = true.
Proof.
  induction l as [|c l IH]; [by destruct s|]. rewrite string_app_cons.
  simpl. by destruct (ascii_dec c c).
Qed.

Lemma drop_chars_app l s : drop_chars (String.length l) (l +:+ s) = s.
Proof.
  induction l as [|c l IH]; [by destruct s|]. by rewrite string_app_cons.
Qed.

Lemma string_length_app (a b : string) :
  String.length (a +:+ b) = String.length a + String.length b.
Proof.
  induction a as [|c a IH]; [done|]. rewrite string_app_cons. simpl.
  by rewrite IH.
Qed.

Lemma prefix_app_inv l s :
  String.prefix l s = true → s = l +:+ drop_chars (String.length l) s.
Proof.
  revert s. induction l as [|c l IH]; intros s Hp; [by destruct s|].
  apply prefix_cons_inv in Hp as (s1 & -> & Hp).
  rewrite string_app_cons. simpl. f_equal. by apply IH.
Qed.

Lemma run_Lit_app l s caps k : run (Lit l) (l +:+ s) caps k = k s caps.
Proof. by rewrite run_Lit, prefix_app, drop_chars_app. Qed.

Lemma run_Alt r1 r2 s caps k :
  run (Alt r1 r2) s caps k
  = match run r1 s caps k with
    | Some c => Some c
    | None => run r2 s caps k
    end.
Proof. reflexivity. Qed.

Lemma run_Opt r1 s caps k :
  run (Opt r1) s caps k
  = match run r1 s caps (λ s' caps',
            if String.length s' =? String.length s then None
            else k s' caps') with
    | Some c => Some c
    | None => k s caps
    end.
Proof. reflexivity. Qed.

(** An alternation of literals of which exactly one starts the input goes
    on after that literal. *)
Lemma alt_of_select first others s caps k l :
  l ∈ first :: others →
  String.prefix l s = true →
  (∀ l', l' ∈ first :: others → String.prefix l' s = true → l' = l) →
  run (alt_of first others) s caps k
  = k (drop_chars (String.length l) s) caps.
Proof.
  intros Hl Hp Huniq. unfold alt_of.
  assert (Hgen : ∀ (done_ : list string) r0,
    (∀ l', l' ∈ done_ ++ others → String.prefix l' s = true → l' = l) →
    (if bool_decide (l ∈ done_)
     then run r0 s caps k = k (drop_chars (String.length l) s) caps
     else run r0 s caps k = None) →
    l ∈ done_ ++ others →
    run (foldl (λ acc l, Alt acc (Lit l)) r0 others) s caps k
    = k (drop_chars (String.length l) s) caps).
  { clear Hl Huniq.
    induction others as [|o others IH]; intros done_ r0 Hu H0 Hin.
    - rewrite app_nil_r in Hin. by rewrite bool_decide_eq_true_2 in H0.
    - simpl. apply (IH (done_ ++ [o])).
      + intros l' Hl'. apply Hu. by rewrite <- app_assoc in Hl'.
      + assert (Ho : String.prefix o s = true → o = l).
        { apply Hu. apply elem_of_app. right. left. }
        rewrite run_Alt, run_Lit. case_bool_decide as Hd.
        * rewrite bool_decide_eq_true_2 by (apply elem_of_app; by left).
          rewrite H0.
          destruct (k (drop_chars (String.length l) s) caps) eqn:Hk; [done|].
          destruct (String.prefix o s); [|done]. by rewrite Ho.
        * rewrite H0. case_bool_decide as Hd'.
          -- apply elem_of_app in Hd' as [?| ->%list_elem_of_singleton];
               [done|]. by rewrite Hp.
          -- destruct (String.prefix o s) eqn:Hpo; [|done].
             exfalso. apply Hd'. apply elem_of_app. right.
             rewrite Ho by done. left.
      + by rewrite <- app_assoc. }
  apply (Hgen [first] (Lit first)); [done| |done].
  rewrite run_Lit. case_bool_decide as Hd.
  - apply list_elem_of_singleton in Hd as ->. by rewrite Hp.
  - destruct (String.prefix first s) eqn:Hpf; [|done].
    exfalso. apply Hd. apply list_elem_of_singleton. symmetry.
    apply Huniq; [left|done].
Qed.

(** No type, and no dependency type, is the start of another one. *)
Lemma type_names_exclusive t l' rest :
  t ∈ type_names → l' ∈ type_names →
  String.prefix l' (t +:+ rest) = true → l' = t.
Proof.
  unfold type_names. intros Ht Hl'.
  repeat (apply elem_of_cons in Ht as [->|Ht]);
    [..|by apply elem_of_nil in Ht];
    repeat (apply elem_of_cons in Hl' as [->|Hl']);
    try (by apply elem_of_nil in Hl'); try reflexivity;
    intros Hp; vm_compute in Hp; discriminate Hp.
Qed.

Lemma dependency_types_exclusive t l' rest :
  t ∈ dependency_types → l' ∈ dependency_types →
  String.prefix l' (t +:+ rest) = true → l' = t.
Proof.
  unfold dependency_types. intros Ht Hl'.
  repeat (apply elem_of_cons in Ht as [->|Ht]);
    [..|by apply elem_of_nil in Ht];
    repeat (apply elem_of_cons in Hl' as [->|Hl']);
    try (by apply elem_of_nil in Hl'); try reflexivity;
    intros Hp; vm_compute in Hp; discriminate Hp.
Qed.

(** X13.  The dependency pattern matches exactly the titles that start
    with [chore(deps):], [fix(deps):] or [build(deps):]; for such a title
    the first label is [dependencies] and no type label is applied, not
    even [fix] or [build]. *)
Theorem dependencies_take_precedence (prTitle prBody : string) (pr_draft : bool) :
  (is_Some (match_anchored DEPS_RE prTitle)
   ↔ ∃ t, t ∈ dependency_types
          ∧ String.prefix (t +:+ "(deps):") prTitle = true)
  ∧ (is_Some (match_anchored DEPS_RE prTitle) →
     head (analyzePRAndApplyLabels prTitle prBody pr_draft)
     = Some "dependencies"
     ∧ ∀ t, t ∈ "chore" :: type_names →
            t ∉ analyzePRAndApplyLabels prTitle prBody pr_draft).
Proof.
  split.
  - unfold match_anchored, DEPS_RE. rewrite run_Cat, run_Group. split.
    + intros [caps Hrun]. apply alt_of_inv in Hrun as (t & Ht & Hp & Hrun).
      cbv beta in Hrun. rewrite run_Lit in Hrun.
      destruct (String.prefix "(deps):" _) eqn:Hd; [|done].
      exists t. split; [exact Ht|].
      rewrite (prefix_app_inv _ _ Hp). rewrite (prefix_app_inv _ _ Hd).
      rewrite <- string_app_assoc. apply prefix_app.
    + intros (t & Ht & Hp). apply prefix_app_inv in Hp.
      rewrite string_app_assoc in Hp. rewrite Hp.
      rewrite (alt_of_select _ _ _ _ _ t Ht (prefix_app _ _)).
      * rewrite drop_chars_app, run_Lit_app. eauto.
      * intros l' Hl'. by apply dependency_types_exclusive.
  - intros Hdeps.
    unfold analyzePRAndApplyLabels.
    rewrite (bool_decide_eq_true_2 _ Hdeps).
    split; [by destruct (_ || _), pr_draft|].
    intros t Ht. unfold type_names in Ht.
    repeat (apply elem_of_cons in Ht as [->|Ht]);
      [..|by apply elem_of_nil in Ht];
      destruct (_ || _), pr_draft; by_computation.
Qed.

Lemma iterate_unfold inner k fuel first s caps :
  iterate inner k fuel first s caps
  = inner s caps (λ s' caps',
      if negb first && (String.length s' =? String.length s) then None
      else
        match
          match fuel with
          | S fuel' => iterate inner k fuel' false s' caps'
          | O => None
          end
        with
        | Some c => Some c
        | None => k s' caps'
        end).
Proof. by destruct fuel. Qed.

Lemma run_Dot_cons x s caps k :
  run Dot (String x s) caps k
  = if is_line_terminator (String x s) then None else k s caps.
Proof. reflexivity. Qed.

Lemma shorter_by_one x s :
  (String.length s =? String.length (String x s)) = false.
Proof. apply Nat.eqb_neq. simpl. lia. Qed.

Lemma one_line_cons x a :
  one_line (String x a)
  = negb (is_line_terminator (String x a)) && one_line a.
Proof. reflexivity. Qed.

(** A closing parenthesis after a text completes no line terminator that
    the text has begun. *)
Lemma line_terminator_closed x a s3 :
  is_line_terminator (String x (a +:+ ")" +:+ s3))
  = is_line_terminator (String x a).
Proof.
  assert (Hnil : ∀ t, String.prefix EmptyString t = true) by by intros [|].
  unfold is_line_terminator, LINE_SEPARATOR, PARAGRAPH_SEPARATOR.
  change (")" +:+ s3) with (String ")" s3).
  destruct a as [|c1 [|c2 a]];
    rewrite ?string_app_cons, ?string_app_nil;
    cbn [String.prefix];
    repeat match goal with
           | |- context [ascii_dec ?u ?v] => destruct (ascii_dec u v)
           end;
    rewrite ?Hnil; try reflexivity; try discriminate.
Qed.

(** [.+] followed by a continuation that accepts the input after a
    non-empty run of characters without line terminator succeeds. *)
Lemma iterate_dot k caps a :
  ∀ s3 x fuel first,
    one_line (String x a) = true →
    String.length a ≤ fuel → is_Some (k (")" +:+ s3) caps) →
    is_Some (iterate (run Dot) k fuel first
               (String x (a +:+ ")" +:+ s3)) caps).
Proof.
  induction a as [|y a IH]; intros s3 x fuel first Ha Hfuel Hk;
    rewrite one_line_cons in Ha; apply andb_true_iff in Ha as [Hx Ha];
    apply negb_true_iff in Hx;
    rewrite iterate_unfold, run_Dot_cons, line_terminator_closed, Hx,
      shorter_by_one, andb_false_r.
  - destruct (match fuel with S _ => _ | O => _ end); [eauto|].
    by rewrite string_app_nil.
  - destruct fuel as [|fuel]; [simpl in Hfuel; lia|].
    rewrite string_app_cons.
    destruct (IH s3 y fuel false Ha) as [c Hc];
      [simpl in Hfuel; lia|done|].
    rewrite Hc. eauto.
Qed.

Lemma consumed_app l s : consumed (l +:+ s) s = l.
Proof.
  rewrite <- (drop_chars_app l s) at 2. apply consumed_prefix, prefix_app.
Qed.

(** The type pattern on a title that starts with a type: what is left to
    match after the type. *)
Lemma type_selected t X :
  t ∈ type_names →
  match_anchored TYPE_RE (t +:+ X)
  = run (Cat optional_scope (Lit ":")) X [(1, t)] (λ _ caps, Some caps).
Proof.
  intros Ht. unfold match_anchored, TYPE_RE.
  rewrite run_Cat, run_Group. unfold conventional_types.
  rewrite (alt_of_select _ _ _ _ _ t Ht (prefix_app _ _)).
  - by rewrite drop_chars_app, consumed_app.
  - intros l' Hl'. by apply type_names_exclusive.
Qed.

Lemma type_matched t X :
  t ∈ type_names →
  is_Some (run (Cat optional_scope (Lit ":")) X [(1, t)] (λ _ caps, Some caps)) →
  ∃ caps, match_anchored TYPE_RE (t +:+ X) = Some caps
          ∧ capture 1 caps = Some t.
Proof.
  intros Ht [caps Hrun]. exists caps. rewrite type_selected by done.
  split; [done|]. apply run_inv in Hrun as (s1 & caps1 & Hk & Hc1).
  injection Hk as <-. by rewrite Hc1 by by_computation.
Qed.

Lemma plain_title_matches caps rest :
  is_Some (run (Cat optional_scope (Lit ":")) (":" +:+ rest) caps
             (λ _ caps, Some caps)).
Proof.
  rewrite run_Cat. unfold optional_scope. rewrite run_Opt.
  destruct (run (Group 2 _) _ _ _); [eauto|].
  rewrite run_Lit_app. eauto.
Qed.

Lemma scoped_title_matches caps scope rest :
  scope ≠ "" → one_line scope = true →
  is_Some (run (Cat optional_scope (Lit ":"))
             ("(" +:+ scope +:+ "):" +:+ rest) caps (λ _ caps, Some caps)).
Proof.
  intros Hne Hline. destruct scope as [|x a]; [done|].
  rewrite run_Cat. unfold optional_scope. rewrite run_Opt.
  match goal with
  | |- is_Some match ?r with _ => _ end =>
      assert (is_Some r) as [c ->]; [|eauto]
  end.
  rewrite run_Group, run_Cat, run_Lit_app, run_Cat, run_Plus.
  rewrite string_app_cons.
  change ("):" +:+ rest) with (")" +:+ (":" +:+ rest)).
  apply iterate_dot; [done| |].
  { rewrite string_length_app. simpl. lia. }
  rewrite run_Lit_app.
  match goal with
  | |- context [String.length ?u =? String.length ?v] =>
      replace (String.length u =? String.length v) with false
  end.
  - rewrite run_Lit_app. eauto.
  - symmetry. apply Nat.eqb_neq. simpl. rewrite !string_length_app.
    simpl. lia.
Qed.

Lemma no_dependency_plain t rest :
  t ∈ type_names → match_anchored DEPS_RE (t +:+ ":" +:+ rest) = None.
Proof.
  intros Ht. destruct (match_anchored DEPS_RE _) as [caps|] eqn:Hd; [|done].
  exfalso. unfold match_anchored, DEPS_RE in Hd.
  rewrite run_Cat, run_Group in Hd.
  apply alt_of_inv in Hd as (d & Hd & Hp & Hrun).
  cbv beta in Hrun. rewrite run_Lit in Hrun.
  destruct (String.prefix "(deps):" _) eqn:Hdeps; [|done]. clear Hrun.
  unfold type_names in Ht.
  repeat (apply elem_of_cons in Ht as [->|Ht]);
    [..|by apply elem_of_nil in Ht];
    repeat (apply elem_of_cons in Hd as [->|Hd]);
    try (by apply elem_of_nil in Hd);
    first [ vm_compute in Hp; discriminate Hp
          | vm_compute in Hdeps; discriminate Hdeps ].
Qed.

(** X14.  A title that starts with one of the ten types followed by a
    colon gets that type as its first label.  So does a title whose type
    is followed by a non-empty scope in parentheses and a colon, when the
    scope holds no line terminator (line feed, carriage return, U+2028,
    U+2029), unless the dependency pattern matches the title, in which
    case the first label is [dependencies]. *)
Theorem type_label_applied (t scope rest prBody : string) (pr_draft : bool) :
  t ∈ type_names →
  head (analyzePRAndApplyLabels (t +:+ ":" +:+ rest) prBody pr_draft) = Some t
  ∧ (scope ≠ "" → one_line scope = true →
     let prTitle := t +:+ "(" +:+ scope +:+ "):" +:+ rest in
     head (analyzePRAndApplyLabels prTitle prBody pr_draft)
     = Some (if bool_decide (is_Some (match_anchored DEPS_RE prTitle))
             then "dependencies" else t)).
Proof.
  intros Ht. split.
  - unfold analyzePRAndApplyLabels.
    rewrite no_dependency_plain by done.
    rewrite (bool_decide_eq_false_2 (is_Some (@None captures)))
      by (by intros [? ?]).
    destruct (type_matched t (":" +:+ rest) Ht (plain_title_matches _ _))
      as (caps & -> & ->).
    by destruct (_ || _), pr_draft.
  - intros Hne Hline prTitle. unfold analyzePRAndApplyLabels.
    destruct (decide (is_Some (match_anchored DEPS_RE prTitle))) as [Hd|Hd].
    { rewrite !(bool_decide_eq_true_2 _ Hd). by destruct (_ || _), pr_draft. }
    rewrite !(bool_decide_eq_false_2 _ Hd).
    destruct (type_matched t ("(" +:+ scope +:+ "):" +:+ rest) Ht
                (scoped_title_matches _ _ _ Hne Hline))
      as (caps & Hm & Hc).
    unfold prTitle. rewrite Hm, Hc.
    by destruct (_ || _), pr_draft.
Qed.

Lemma type_label_applied_witness :
  head (analyzePRAndApplyLabels ("refactor" +:+ ":" +:+ " split module")
          "" false) = Some "refactor"
  ∧ head (analyzePRAndApplyLabels
            ("fix" +:+ "(" +:+ "api" +:+ "):" +:+ " handle nulls") "" true)
    = Some "fix".
Proof.
  split.
  - exact (proj1 (type_label_applied "refactor" "x" " split module" "" false
                    ltac:(by_computation))).
  - exact (proj2 (type_label_applied "fix" "api" " handle nulls" "" true
                    ltac:(by_computation)) ltac:(done) eq_refl).
Defined.
End LabelerShape.

(** ** Slack notifier: the reactions wanted for a set of labels *)

Section DesiredReactions.
Import SlackNotifier.

Lemma priority_orders :
  groupPriority !! "qa"
    = Some ["qa:failed"; "qa:success"; "qa:running"; "qa:pending"]
  ∧ groupPriority !! "status"
    = Some ["status:merged"; "status:mergeable"; "status:approved";
            "status:ready-for-review"].
Proof. split; reflexivity. Qed.

(** What the first loop collects: the reaction of every mapped label. *)
Lemma mapped_elem labels table k r acc :
  k ∈ map name labels →
  truthy_entry table k = Some r →
  r ∈ foldl (λ (acc : list string) (label : Label),
               match truthy_entry table (name label) with
               | Some r => acc ++ [r]
               | None => acc
               end) acc labels.
Proof.
  intros Hk Hr.
  assert (Hkeep : ∀ ls acc, r ∈ acc →
    r ∈ foldl (λ (acc : list string) (label : Label),
                 match truthy_entry table (name label) with
                 | Some r => acc ++ [r]
                 | None => acc
                 end) acc ls).
  { induction ls as [|l ls IH]; intros a Ha; [done|]. simpl. apply IH.
    destruct (truthy_entry table (name l)); [|done].
    apply elem_of_app. by left. }
  revert acc. induction labels as [|l labels IH]; intros acc.
  { by apply elem_of_nil in Hk. }
  simpl in Hk. apply elem_of_cons in Hk as [->|Hk]; simpl.
  - apply Hkeep. rewrite Hr. apply elem_of_app. right. by left.
  - by apply IH.
Qed.

(** The reaction selected for a group is that of a label on the pull
    request. *)
Lemma select_label labels table order r :
  select labels table order = Some r →
  ∃ k, k ∈ order ∧ k ∈ map name labels ∧ truthy_entry table k = Some r.
Proof.
  induction order as [|k order IH]; [done|]. simpl.
  destruct (has_label labels k) eqn:Hk.
  - destruct (truthy_entry table k) as [r'|] eqn:Ht.
    + intros [= ->]. exists k. split; [by left|].
      split; [by apply has_label_true|done].
    + intros H. destruct (IH H) as (k' & ? & ?). exists k'.
      split; [by right|done].
  - intros H. destruct (IH H) as (k' & ? & ?). exists k'.
    split; [by right|done].
Qed.

(** The test of the second filter never fails: a selected reaction has
    been collected by the first loop. *)
Lemma selected_is_mapped labels table order r acc :
  select labels table order = Some r →
  includes
    (foldl (λ (acc : list string) (label : Label),
              match truthy_entry table (name label) with
              | Some r => acc ++ [r]
              | None => acc
              end) acc labels) r = true.
Proof.
  intros (k & _ & Hk & Hr)%select_label. apply includes_true.
  by eapply mapped_elem.
Qed.

Lemma in_progress_labels labels :
  existsb (λ l, String.eqb (name l) "qa:running"
                || String.eqb (name l) "qa:pending") labels
  = has_label labels "qa:running" || has_label labels "qa:pending".
Proof.
  unfold has_label. induction labels as [|l labels IH]; [done|]. simpl.
  rewrite IH.
  destruct (String.eqb (name l) "qa:running"),
    (String.eqb (name l) "qa:pending"),
    (existsb (λ l, String.eqb (name l) "qa:running") labels),
    (existsb (λ l, String.eqb (name l) "qa:pending") labels); reflexivity.
Qed.

(** X15.  With the tables of the notifier the wanted reactions have a
    closed form: nothing when the pull request is merged; otherwise the
    reaction of the first label present among [qa:failed], [qa:success],
    [qa:running], [qa:pending], followed, unless QA is running or pending,
    by the reaction of the first label present among [status:mergeable],
    [status:approved], [status:ready-for-review]. *)
Theorem calculateDesiredReactions_priority (labels : list Label)
    (isPRMerged : bool) :
  let has := has_label labels in
  calculateDesiredReactions labels isPRMerged statusReactions exclusiveGroups
  = if has "status:merged" || isPRMerged then []
    else
      let qaReaction :=
        if has "qa:failed" then ["x"]
        else if has "qa:success" then ["white_check_mark"]
        else if has "qa:running" then ["runner"]
        else if has "qa:pending" then ["hourglass_flowing_sand"]
        else [] in
      let statusReaction :=
        if has "status:mergeable" then ["rocket"]
        else if has "status:approved" then ["thumbsup"]
        else if has "status:ready-for-review" then ["eyes"]
        else [] in
      if has "qa:running" || has "qa:pending" then qaReaction
      else qaReaction ++ statusReaction.
Proof.
  intros has. unfold calculateDesiredReactions.
  rewrite in_progress_labels. fold has.
  destruct (has "status:merged") eqn:Hmerged; [done|].
  destruct isPRMerged; [done|]. cbn [orb].
  unfold entries. cbn [foldl fst].
  destruct priority_orders as [-> ->]. cbn [default from_option id]. unfold id.
  set (mapped := foldl _ [] labels).
  assert (Hmapped : ∀ order r,
    select labels statusReactions order = Some r → includes mapped r = true).
  { intros order r. apply selected_is_mapped. }
  destruct (select labels statusReactions
              ["qa:failed"; "qa:success"; "qa:running"; "qa:pending"])
    as [q|] eqn:Hq;
  destruct (select labels statusReactions
              ["status:merged"; "status:mergeable"; "status:approved";
               "status:ready-for-review"]) as [s|] eqn:Hs;
  try rewrite (Hmapped _ _ Hq); try rewrite (Hmapped _ _ Hs);
  cbn [select] in Hq, Hs; fold has in Hq, Hs; rewrite Hmerged in Hs;
  destruct (has "qa:failed"), (has "qa:success"), (has "qa:running"),
    (has "qa:pending"), (has "status:mergeable"), (has "status:approved"),
    (has "status:ready-for-review");
  vm_compute in Hq, Hs; try discriminate;
  repeat match goal with H : Some _ = Some _ |- _ =>
    injection H as <- end;
  reflexivity.
Qed.

End DesiredReactions.

(** ** Slack notifier: reconciling the reactions *)

Section ReactionManager.
Import SlackNotifier SlackText SlackReactions.

(** *** Sorting *)

Lemma ascii_compare_trans a b c :
  Ascii.compare a b ≠ Gt → Ascii.compare b c ≠ Gt → Ascii.compare a c ≠ Gt.
Proof.
  unfold Ascii.compare. rewrite !N.compare_gt_iff. lia.
Qed.

Lemma string_leb_trans a b c :
  String.leb a b = true → String.leb b c = true → String.leb a c = true.
Proof.
  unfold String.leb.
  assert (H : ∀ a b c, String.compare a b ≠ Gt → String.compare b c ≠ Gt →
                       String.compare a c ≠ Gt).
  { clear. induction a as [|x a IH]; intros [|y b] [|z c]; simpl; try done.
    destruct (Ascii.compare x y) eqn:Hxy; [|destruct (Ascii.compare y z) eqn:Hyz|done].
    - apply Ascii.compare_eq_iff in Hxy as ->.
      destruct (Ascii.compare y z); [apply IH|done..].
    - apply Ascii.compare_eq_iff in Hyz as ->. by rewrite Hxy.
    - intros _ _.
      assert (Ascii.compare x z = Lt) as ->; [|done].
      revert Hxy Hyz. unfold Ascii.compare. rewrite !N.compare_lt_iff. lia.
    - done. }
  intros Hab Hbc.
  specialize (H a b c).
  destruct (String.compare a b), (String.compare b c), (String.compare a c);
    try done; exfalso; by apply H.
Qed.

Lemma insert_sorted_perm x l : insert_sorted x l ≡ₚ x :: l.
Proof.
  induction l as [|y l IH]; [done|]. simpl.
  destruct (String.leb x y); [done|]. rewrite IH. apply Permutation_swap.
Qed.

Lemma sort_perm l : sort l ≡ₚ l.
Proof.
  induction l as [|x l IH]; [done|]. simpl.
  by rewrite insert_sorted_perm, IH.
Qed.

Lemma insert_sorted_comm x y l :
  insert_sorted x (insert_sorted y l) = insert_sorted y (insert_sorted x l).
Proof.
  induction l as [|z l IH]; simpl.
  - destruct (String.leb x y) eqn:Hxy, (String.leb y x) eqn:Hyx; try done.
    + by rewrite (String.leb_antisym _ _ Hxy Hyx).
    + destruct (String.leb_total x y); congruence.
  - destruct (String.leb y z) eqn:Hyz, (String.leb x z) eqn:Hxz; simpl;
      rewrite ?Hyz, ?Hxz.
    + destruct (String.leb x y) eqn:Hxy, (String.leb y x) eqn:Hyx; try done.
      * by rewrite (String.leb_antisym _ _ Hxy Hyx).
      * destruct (String.leb_total x y); congruence.
    + destruct (String.leb x y) eqn:Hxy; [|done].
      by rewrite (string_leb_trans _ _ _ Hxy Hyz) in Hxz.
    + destruct (String.leb y x) eqn:Hyx; [|done].
      by rewrite (string_leb_trans _ _ _ Hyx Hxz) in Hyz.
    + by rewrite IH.
Qed.

(** Two arrays sort to the same array exactly when one is a rearrangement
    of the other. *)
Lemma sort_eq_iff l1 l2 : sort l1 = sort l2 ↔ l1 ≡ₚ l2.
Proof.
  split.
  - intros H. by rewrite <- (sort_perm l1), H, sort_perm.
  - induction 1 as [|x l l' _ IH|x y l|l l' l'' _ IH1 _ IH2]; simpl.
    + done.
    + by rewrite IH.
    + apply insert_sorted_comm.
    + congruence.
Qed.

(** *** The tables *)

Lemma allStatusReactions_managed r : r ∈ allStatusReactions ↔ r ∈ managed.
Proof.
  assert (allStatusReactions = list_to_set managed) as ->
    by by_computation.
  apply elem_of_list_to_set.
Qed.

Lemma statusReactions_managed k r :
  truthy_entry statusReactions k = Some r → r ∈ managed.
Proof.
  unfold truthy_entry.
  destruct (statusReactions !! k) as [r'|] eqn:Hk; [|done].
  destruct (truthy r'); [|done]. intros [= ->].
  apply elem_of_list_to_map_2 in Hk.
  repeat (apply elem_of_cons in Hk as [[= _ ->]|Hk]; [by_computation|]).
  by apply elem_of_nil in Hk.
Qed.

(** Every wanted reaction is the reaction of a label on the pull request. *)
Lemma desired_selected labels isPRMerged table groups r :
  r ∈ calculateDesiredReactions labels isPRMerged table groups →
  ∃ k, k ∈ map name labels ∧ truthy_entry table k = Some r.
Proof.
  unfold calculateDesiredReactions.
  destruct (has_label labels "status:merged" || isPRMerged).
  { by intros ?%elem_of_nil. }
  set (mapped := foldl _ [] labels).
  assert (Hfinal : r ∈ foldl
    (λ (acc : list string) (entry : string * list string),
       match select labels table (default [] (groupPriority !! entry.1)) with
       | Some selectedReaction =>
           if includes mapped selectedReaction
           then acc ++ [selectedReaction] else acc
       | None => acc
       end) [] (entries groups) →
    ∃ k, k ∈ map name labels ∧ truthy_entry table k = Some r).
  { unfold entries. cbn [foldl fst].
    destruct (select labels table (default [] (groupPriority !! "qa")))
      as [q|] eqn:Hq;
    destruct (select labels table (default [] (groupPriority !! "status")))
      as [s|] eqn:Hs;
    repeat match goal with |- context [includes mapped ?x] =>
      destruct (includes mapped x) end;
    cbn [app]; intros Hr;
    repeat (apply elem_of_cons in Hr as [<-|Hr]);
    try (by apply elem_of_nil in Hr);
    match goal with H : select _ _ _ = Some r |- _ =>
      apply select_label in H as (k & _ & ? & ?); by exists k end. }
  destruct (existsb _ labels); [|exact Hfinal].
  intros [_ Hr]%list_elem_of_filter. by apply Hfinal.
Qed.

Lemma desired_managed labels isPRMerged r :
  r ∈ calculateDesiredReactions labels isPRMerged statusReactions
        exclusiveGroups →
  r ∈ managed.
Proof.
  intros (k & _ & Hk)%desired_selected. by eapply statusReactions_managed.
Qed.

(** *** The loops *)

Section WithApi.
Variable api : SlackApi.

Lemma reset_loop_run mk l calls :
  reset_loop api mk l calls = (Return tt, calls ++ map mk l).
Proof.
  revert calls. induction l as [|x l IH]; intros calls; simpl.
  - unfold ret. by rewrite app_nil_r.
  - unfold bind at 1, try_catch, bind, call, ret.
    destruct (api calls (mk x)); rewrite IH, <- app_assoc; reflexivity.
Qed.

Lemma remove_loop_run l n errs calls :
  ∃ n' errs',
    remove_loop api l n errs calls
      = (Return (n', errs'), calls ++ map ReactionsRemove l)
    ∧ n ≤ n' ∧ length errs ≤ length errs'
    ∧ (all_benign api calls (map ReactionsRemove l) = true
       ↔ n' = n ∧ length errs' = length errs).
Proof.
  revert n errs calls. induction l as [|x l IH]; intros n errs calls.
  - exists n, errs. simpl. unfold ret. rewrite app_nil_r.
    repeat split; lia.
  - simpl. unfold bind at 1, try_catch, bind, call, ret, benign.
    destruct (api calls (ReactionsRemove x)) as [v|message].
    + destruct (IH (S n) errs (calls ++ [ReactionsRemove x]))
        as (n' & errs' & -> & ? & ? & _).
      exists n', errs'. rewrite <- app_assoc.
      split; [done|]. split; [lia|]. split; [lia|]. cbn [andb].
      split; [done|lia].
    + destruct (str_includes message "no_reaction").
      * destruct (IH n errs (calls ++ [ReactionsRemove x]))
          as (n' & errs' & -> & ? & ? & Hb).
        exists n', errs'. rewrite <- app_assoc. cbn [andb]. done.
      * destruct (IH n (errs ++ ["Failed to remove " +:+ x +:+ ": " +:+ message])
                     (calls ++ [ReactionsRemove x]))
          as (n' & errs' & -> & ? & Hlen & _).
        rewrite length_app in Hlen. simpl in Hlen.
        exists n', errs'. rewrite <- app_assoc.
        split; [done|]. split; [lia|]. split; [lia|]. cbn [andb].
      split; [done|lia].
Qed.

Lemma add_loop_run l n errs calls :
  ∃ n' errs',
    add_loop api l n errs calls
      = (Return (n', errs'), calls ++ map ReactionsAdd l)
    ∧ n ≤ n' ∧ length errs ≤ length errs'
    ∧ (all_benign api calls (map ReactionsAdd l) = true
       ↔ n' = n ∧ length errs' = length errs).
Proof.
  revert n errs calls. induction l as [|x l IH]; intros n errs calls.
  - exists n, errs. simpl. unfold ret. rewrite app_nil_r.
    repeat split; lia.
  - simpl. unfold bind at 1, try_catch, bind, call, ret, benign.
    destruct (api calls (ReactionsAdd x)) as [v|message].
    + destruct (IH (S n) errs (calls ++ [ReactionsAdd x]))
        as (n' & errs' & -> & ? & ? & _).
      exists n', errs'. rewrite <- app_assoc.
      split; [done|]. split; [lia|]. split; [lia|]. cbn [andb].
      split; [done|lia].
    + destruct (str_includes message "already_reacted").
      * destruct (IH n errs (calls ++ [ReactionsAdd x]))
          as (n' & errs' & -> & ? & ? & Hb).
        exists n', errs'. rewrite <- app_assoc. cbn [andb]. done.
      * destruct (IH n (errs ++ ["Failed to add " +:+ x +:+ ": " +:+ message])
                     (calls ++ [ReactionsAdd x]))
          as (n' & errs' & -> & ? & Hlen & _).
        rewrite length_app in Hlen. simpl in Hlen.
        exists n', errs'. rewrite <- app_assoc.
        split; [done|]. split; [lia|]. split; [lia|]. cbn [andb].
      split; [done|lia].
Qed.

Lemma all_benign_app done p q :
  all_benign api done (p ++ q)
  = all_benign api done p && all_benign api (done ++ p) q.
Proof.
  revert done. induction p as [|c p IH]; intros done; simpl.
  - by rewrite app_nil_r.
  - by rewrite IH, <- app_assoc, andb_assoc.
Qed.

Lemma verifySanity_run desired calls :
  verifySanity api desired calls
  = (Return tt,
     calls ++ ConversationsHistory ::
       match api calls ConversationsHistory with
       | Return (Some (message :: _)) =>
           let actual :=
             filter (λ r, r ∈ allStatusReactions) (reaction_names message) in
           if bool_decide (sort desired = sort actual) then []
           else map ReactionsRemove (sort actual)
                  ++ map ReactionsAdd (sort desired)
       | _ => []
       end).
Proof.
  unfold verifySanity, try_catch, bind at 1, call.
  destruct (api calls ConversationsHistory) as [[[|message rest]|]|e];
    try reflexivity.
  cbv zeta. destruct (bool_decide _); [reflexivity|].
  unfold bind. rewrite !reset_loop_run, <- !app_assoc. reflexivity.
Qed.

Lemma manage_run labels isPRMerged calls :
  manageReactionsEfficiently api labels isPRMerged calls
  = match api calls ConversationsHistory with
    | Return (Some (message :: _)) =>
        let desired :=
          calculateDesiredReactions labels isPRMerged statusReactions
            exclusiveGroups in
        let current :=
          filter (λ r, r ∈ allStatusReactions) (reaction_names message) in
        let delta := calculateDelta current desired in
        let phase :=
          map ReactionsRemove (remove delta) ++ map ReactionsAdd (add delta) in
        let done := calls ++ ConversationsHistory :: phase in
        if all_benign api (calls ++ [ConversationsHistory]) phase
        then (Return tt, done)
        else (Return tt, (verifySanity api desired done).2)
    | _ => (Return tt, calls ++ [ConversationsHistory])
    end.
Proof.
  unfold manageReactionsEfficiently, try_catch, bind at 1, call.
  destruct (api calls ConversationsHistory) as [[[|message rest]|]|e];
    try reflexivity.
  cbv zeta.
  set (desired := calculateDesiredReactions _ _ _ _).
  set (delta := calculateDelta _ _).
  unfold bind at 1.
  destruct (remove_loop_run (remove delta) 0 [] (calls ++ [ConversationsHistory]))
    as (n1 & errs1 & -> & _ & _ & Hb1).
  unfold bind at 1.
  destruct (add_loop_run (add delta) n1 errs1
              ((calls ++ [ConversationsHistory])
                 ++ map ReactionsRemove (remove delta)))
    as (n2 & errs2 & -> & Hn & Hlen & Hb2).
  rewrite all_benign_app.
  replace (((calls ++ [ConversationsHistory])
              ++ map ReactionsRemove (remove delta))
             ++ map ReactionsAdd (add delta))
    with (calls ++ ConversationsHistory ::
            map ReactionsRemove (remove delta) ++ map ReactionsAdd (add delta))
    by (by rewrite <- !app_assoc).
  destruct (all_benign api (calls ++ [ConversationsHistory])
              (map ReactionsRemove (remove delta))) eqn:H1.
  - destruct (proj1 Hb1 eq_refl) as [-> Hl1].
    destruct errs1; [|done].
    destruct (all_benign api _ (map ReactionsAdd (add delta))) eqn:H2.
    + destruct (proj1 Hb2 eq_refl) as [-> Hl2].
      destruct errs2; [|done]. reflexivity.
    + cbn [andb].
      assert ((0 <? n2) || (0 <? length errs2) = true) as ->.
      { destruct n2; [|done]. destruct errs2; [|done].
        discriminate (proj2 Hb2 (conj eq_refl eq_refl)). }
      by destruct (verifySanity api desired _) as [[[]|] ?] eqn:Hv;
        [|rewrite verifySanity_run in Hv].
  - cbn [andb].
    assert ((0 <? n2) || (0 <? length errs2) = true) as ->.
    { destruct n2 as [|n2]; [|done]. destruct errs2; [|done].
      assert (n1 = 0) as -> by lia. destruct errs1; [|simpl in Hlen; lia].
      discriminate (proj2 Hb1 (conj eq_refl eq_refl)). }
    by destruct (verifySanity api desired _) as [[[]|] ?] eqn:Hv;
      [|rewrite verifySanity_run in Hv].
Qed.

(** X16.  [manageReactionsEfficiently] never throws, whatever the Slack
    calls do: it returns normally, its first call reads the message, and
    when that read fails or finds no message it makes no other call. *)
Theorem manageReactionsEfficiently_never_throws (labels : list Label)
    (isPRMerged : bool) (calls : list Call) :
  ∃ more,
    manageReactionsEfficiently api labels isPRMerged calls
      = (Return tt, calls ++ ConversationsHistory :: more)
    ∧ match api calls ConversationsHistory with
      | Return (Some (_ :: _)) => True
      | _ => more = []
      end.
Proof.
  rewrite manage_run.
  destruct (api calls ConversationsHistory) as [[[|message rest]|]|e];
    try (by exists []).
  cbv zeta. destruct (all_benign _ _ _); [by eexists|].
  rewrite verifySanity_run. cbn [snd]. rewrite <- app_assoc. by eexists.
Qed.

(** X17.  Every reaction the manager writes is one of the seven it
    manages, and every reaction it adds, in the first pass or in the
    reset, is a wanted one; so for a merged pull request nothing is ever
    added. *)
Theorem reaction_writes_managed (labels : list Label) (isPRMerged : bool)
    (calls : list Call) :
  ∃ issued,
    (manageReactionsEfficiently api labels isPRMerged calls).2
      = calls ++ issued
    ∧ Forall (λ c, match c with
                   | ConversationsHistory => True
                   | ReactionsRemove n => n ∈ managed
                   | ReactionsAdd n =>
                       n ∈ calculateDesiredReactions labels isPRMerged
                             statusReactions exclusiveGroups
                   end) issued.
Proof.
  set (desired := calculateDesiredReactions _ _ _ _).
  set (ok := λ c, match c with
                  | ConversationsHistory => True
                  | ReactionsRemove n => n ∈ managed
                  | ReactionsAdd n => n ∈ desired
                  end).
  assert (Hrem : ∀ l, Forall (λ n, n ∈ managed) l →
                      Forall ok (map ReactionsRemove l)).
  { intros l Hl. apply Forall_forall. intros c Hc.
    apply list_elem_of_In, in_map_iff in Hc as (n & <- & Hn).
    apply list_elem_of_In in Hn.
    by apply (proj1 (Forall_forall _ _) Hl). }
  assert (Hadd : ∀ l, Forall (λ n, n ∈ desired) l →
                      Forall ok (map ReactionsAdd l)).
  { intros l Hl. apply Forall_forall. intros c Hc.
    apply list_elem_of_In, in_map_iff in Hc as (n & <- & Hn).
    apply list_elem_of_In in Hn.
    by apply (proj1 (Forall_forall _ _) Hl). }
  assert (Hfilter : ∀ m, Forall (λ n, n ∈ managed)
            (filter (λ r, r ∈ allStatusReactions) (reaction_names m))).
  { intros m. apply Forall_forall. intros n [Hn _]%list_elem_of_filter.
    by apply allStatusReactions_managed. }
  rewrite manage_run.
  destruct (api calls ConversationsHistory) as [[[|message rest]|]|e];
    try (exists [ConversationsHistory]; split; [done|];
         by repeat constructor).
  cbv zeta. fold desired.
  set (delta := calculateDelta _ desired).
  assert (Hphase : Forall ok
    (map ReactionsRemove (remove delta) ++ map ReactionsAdd (add delta))).
  { apply Forall_app. split.
    - apply Hrem, Forall_forall. intros n [Hn _]%calculateDelta_remove.
      by apply (proj1 (Forall_forall _ _) (Hfilter message)).
    - apply Hadd, Forall_forall. by intros n [Hn _]%calculateDelta_add. }
  destruct (all_benign _ _ _).
  { eexists. split; [done|]. by constructor. }
  rewrite verifySanity_run. cbn [snd].
  rewrite <- app_assoc, <- app_comm_cons. eexists. split; [reflexivity|].
  constructor; [done|]. apply Forall_app. split; [done|].
  constructor; [done|].
  destruct (api _ ConversationsHistory) as [[[|message' rest']|]|e'];
    try by constructor.
  cbv zeta. destruct (bool_decide _); [by constructor|].
  apply Forall_app. split.
  - apply Hrem. by rewrite sort_perm.
  - apply Hadd. rewrite sort_perm. by apply Forall_forall.
Qed.

(** X18.  When the message is found, the manager stops after reading it
    exactly when the managed reactions on the message are already the
    wanted ones; reactions it does not manage play no part. *)
Theorem reactions_in_sync_iff (labels : list Label) (isPRMerged : bool)
    (calls : list Call) (message : Message) (rest : list Message) :
  api calls ConversationsHistory = Return (Some (message :: rest)) →
  (manageReactionsEfficiently api labels isPRMerged calls).2
    = calls ++ [ConversationsHistory]
  ↔ ∀ r, r ∈ managed →
         (r ∈ reaction_names message
          ↔ r ∈ calculateDesiredReactions labels isPRMerged statusReactions
                  exclusiveGroups).
Proof.
  intros Hread. rewrite manage_run, Hread. cbv zeta.
  set (desired := calculateDesiredReactions _ _ _ _).
  set (current := filter _ (reaction_names message)).
  set (delta := calculateDelta current desired).
  assert (Hcurrent : ∀ r, r ∈ current ↔ r ∈ managed ∧ r ∈ reaction_names message).
  { intros r. unfold current.
    rewrite list_elem_of_filter, allStatusReactions_managed. tauto. }
  assert (Hdesired : ∀ r, r ∈ desired → r ∈ managed).
  { intros r. apply desired_managed. }
  split.
  - intros Hstop r Hr.
    assert (Hempty : remove delta = [] ∧ add delta = []).
    { destruct (all_benign _ _ _).
      - cbn [snd] in Hstop.
        apply (f_equal length) in Hstop.
        rewrite !length_app in Hstop. cbn [length] in Hstop.
        rewrite !length_app, !length_map in Hstop.
        split; apply length_zero_iff_nil; lia.
      - rewrite verifySanity_run in Hstop. cbn [snd] in Hstop.
        apply (f_equal length) in Hstop.
        rewrite !length_app in Hstop. cbn [length] in Hstop.
        rewrite !length_app in Hstop. cbn [length] in Hstop. lia. }
    destruct Hempty as [Hrem Hadd].
    pose proof (calculateDelta_remove current desired r) as H1.
    pose proof (calculateDelta_add current desired r) as H2.
    fold delta in H1, H2. rewrite Hrem in H1. rewrite Hadd in H2.
    rewrite elem_of_nil in H1, H2. rewrite Hcurrent in H1, H2.
    destruct (decide (r ∈ reaction_names message)),
      (decide (r ∈ desired)); tauto.
  - intros Hsync.
    assert (remove delta = []) as ->.
    { destruct (remove delta) as [|r l] eqn:Hrem; [done|]. exfalso.
      assert (Hr : r ∈ remove delta) by (rewrite Hrem; left).
      apply calculateDelta_remove in Hr as [Hr Hn].
      apply Hcurrent in Hr as [Hm Hr]. by apply Hn, Hsync. }
    assert (add delta = []) as ->.
    { destruct (add delta) as [|r l] eqn:Hadd; [done|]. exfalso.
      assert (Hr : r ∈ add delta) by (rewrite Hadd; left).
      apply calculateDelta_add in Hr as [Hr Hn].
      apply Hn, Hcurrent. split; [by apply Hdesired|].
      apply Hsync; [by apply Hdesired|done]. }
    reflexivity.
Qed.

(** X19.  When the message is found, the first pass issues one removal
    for every reaction to remove and then one addition for every reaction
    to add, in the order of the delta and whatever the outcome of each
    call; the message is read again afterwards unless every one of these
    writes ended in its lost-race error. *)
Theorem reactions_first_pass (labels : list Label) (isPRMerged : bool)
    (calls : list Call) (message : Message) (rest : list Message) :
  api calls ConversationsHistory = Return (Some (message :: rest)) →
  let desired :=
    calculateDesiredReactions labels isPRMerged statusReactions
      exclusiveGroups in
  let current :=
    filter (λ r, r ∈ allStatusReactions) (reaction_names message) in
  let delta := calculateDelta current desired in
  let phase :=
    map ReactionsRemove (remove delta) ++ map ReactionsAdd (add delta) in
  ∃ reset,
    (manageReactionsEfficiently api labels isPRMerged calls).2
    = calls ++ ConversationsHistory :: phase
        ++ (if all_benign api (calls ++ [ConversationsHistory]) phase
            then [] else ConversationsHistory :: reset).
Proof.
  intros Hread desired current delta phase.
  rewrite manage_run, Hread. cbv zeta.
  fold desired current delta phase.
  destruct (all_benign _ _ _).
  - exists []. by rewrite app_nil_r.
  - rewrite verifySanity_run. cbn [snd]. eexists.
    by rewrite <- app_assoc.
Qed.

(** X20.  [verifySanity] never throws and always starts by reading the
    message.  When that read throws or finds no message it makes no other
    call.  When it finds the message it writes nothing if the managed
    reactions on it are a rearrangement of the wanted ones; otherwise it
    removes every managed reaction found and then adds every wanted one,
    both in sorted order, whatever the outcome of each call. *)
Theorem verifySanity_reset (desiredReactions : list string)
    (calls : list Call) :
  ∃ reset,
    verifySanity api desiredReactions calls
      = (Return tt, calls ++ ConversationsHistory :: reset)
    ∧ match api calls ConversationsHistory with
      | Return (Some (message :: _)) =>
          let actual :=
            filter (λ r, r ∈ allStatusReactions) (reaction_names message) in
          (actual ≡ₚ desiredReactions → reset = [])
          ∧ (¬ actual ≡ₚ desiredReactions →
             reset = map ReactionsRemove (sort actual)
                       ++ map ReactionsAdd (sort desiredReactions))
      | _ => reset = []
      end.
Proof.
  rewrite verifySanity_run. eexists. split; [done|].
  destruct (api calls ConversationsHistory) as [[[|message rest]|]|e];
    try done.
  cbv zeta.
  set (actual := filter _ (reaction_names message)).
  destruct (decide (sort desiredReactions = sort actual)) as [Heq|Hne].
  - rewrite (bool_decide_eq_true_2 _ Heq). split; [done|].
    intros Hn. destruct Hn. symmetry. by apply sort_eq_iff.
  - rewrite (bool_decide_eq_false_2 _ Hne). split; [|done].
    intros Hp. destruct Hne. symmetry. by apply sort_eq_iff.
Qed.

End WithApi.

Lemma reactions_in_sync_witness :
  (manageReactionsEfficiently
     (λ _ c, match c with
             | ConversationsHistory =>
                 Return (Some [mkMessage (Some
                   [mkReaction "eyes" (Some ["U1"]);
                    mkReaction "tada" (Some ["U2"]);
                    mkReaction "rocket" (Some [])])])
             | _ => Throw "no_reaction"
             end)
     [mkLabel "status:ready-for-review"] false []).2
  = [ConversationsHistory].
Proof.
  eapply (proj2 (reactions_in_sync_iff _ _ false [] _ [] eq_refl)).
  intros r Hr.
  repeat (apply elem_of_cons in Hr as [->|Hr]; [by_computation|]).
  by apply elem_of_nil in Hr.
Defined.

Lemma reactions_first_pass_witness :
  ∃ reset,
    (manageReactionsEfficiently
       (λ _ c, match c with
               | ConversationsHistory =>
                   Return (Some [mkMessage (Some
                     [mkReaction "x" (Some ["U1"])])])
               | ReactionsRemove _ => Throw "no_reaction"
               | ReactionsAdd _ => Return None
               end)
       [mkLabel "qa:success"] false []).2
    = [ConversationsHistory; ReactionsRemove "x";
       ReactionsAdd "white_check_mark"; ConversationsHistory] ++ reset.
Proof.
  edestruct (reactions_first_pass
               (λ _ c, match c with
                       | ConversationsHistory =>
                           Return (Some [mkMessage (Some
                             [mkReaction "x" (Some ["U1"])])])
                       | ReactionsRemove _ => Throw "no_reaction"
                       | ReactionsAdd _ => Return None
                       end)
               [mkLabel "qa:success"] false [] _ [] eq_refl)
    as [reset Hrun].
  exists reset. rewrite Hrun. vm_compute. reflexivity.
Defined.

Lemma verifySanity_reset_witness :
  verifySanity
    (λ _ c, match c with
            | ConversationsHistory =>
                Return (Some [mkMessage (Some
                  [mkReaction "x" (Some ["U1"]);
                   mkReaction "eyes" (Some ["U2"])])])
            | _ => Throw "ratelimited"
            end)
    ["white_check_mark"; "rocket"] []
  = (Return tt,
     [ConversationsHistory; ReactionsRemove "eyes"; ReactionsRemove "x";
      ReactionsAdd "rocket"; ReactionsAdd "white_check_mark"]).
Proof.
  destruct (verifySanity_reset
              (λ _ c, match c with
                      | ConversationsHistory =>
                          Return (Some [mkMessage (Some
                            [mkReaction "x" (Some ["U1"]);
                             mkReaction "eyes" (Some ["U2"])])])
                      | _ => Throw "ratelimited"
                      end)
              ["white_check_mark"; "rocket"] [])
    as (reset & -> & _ & Hreset).
  rewrite Hreset; [reflexivity|].
  intros Hp.
  assert (Hx : "x" ∈ ["white_check_mark"; "rocket"]).
  { rewrite <- Hp. by_computation. }
  revert Hx. by_computation.
Defined.

End ReactionManager.

(** ** Slack notifier: writing and reading back the timestamp comment *)

Section Timestamp.
Import Regex RegexLoop SlackTimestamp.

Lemma ts_char_inv c :
  is_ts_char c = true ↔
  String c EmptyString
    ∈ ["0"; "1"; "2"; "3"; "4"; "5"; "6"; "7"; "8"; "9"; "."].
Proof. unfold is_ts_char. apply bool_decide_eq_true. Qed.

(** [[0-9.]] on an input that starts with one of its characters. *)
Lemma ts_char_step c rest caps k :
  is_ts_char c = true → run TS_CHAR (String c rest) caps k = k rest caps.
Proof.
  intros Hc%ts_char_inv. unfold TS_CHAR.
  rewrite (alt_of_select _ _ _ _ _ (String c EmptyString)).
  - reflexivity.
  - exact Hc.
  - exact (prefix_app (String c EmptyString) rest).
  - intros l' Hl' Hp.
    repeat (apply elem_of_cons in Hl' as [->|Hl'];
            [by apply prefix_cons_inv in Hp as (? & [= ->] & _)|]).
    by apply elem_of_nil in Hl'.
Qed.

(** [[0-9.]] on an input that does not start with one of its characters. *)
Lemma ts_char_stop s caps k :
  match s with
  | String c _ => is_ts_char c = false
  | EmptyString => True
  end →
  run TS_CHAR s caps k = None.
Proof.
  intros Hs. destruct (run TS_CHAR s caps k) as [c0|] eqn:Hrun; [|done].
  exfalso. apply alt_of_inv in Hrun as (l & Hl & Hp & _).
  destruct s as [|c rest].
  - repeat (apply elem_of_cons in Hl as [->|Hl]; [by vm_compute in Hp|]).
    by apply elem_of_nil in Hl.
  - apply not_true_iff_false in Hs. apply Hs, ts_char_inv.
    repeat (apply elem_of_cons in Hl as [->|Hl];
            [apply prefix_cons_inv in Hp as (? & [= ->] & _);
             by_computation|]).
    by apply elem_of_nil in Hl.
Qed.

(** [[0-9.]+] runs over a whole text of digits and dots when the
    continuation accepts what follows it. *)
Lemma iterate_ts k caps ts :
  ∀ s2 c fuel first,
    is_ts_char c = true → ts_text ts = true →
    String.length ts ≤ fuel →
    match s2 with
    | String c _ => is_ts_char c = false
    | EmptyString => True
    end →
    is_Some (k s2 caps) →
    iterate (run TS_CHAR) k fuel first (String c (ts +:+ s2)) caps
    = k s2 caps.
Proof.
  induction ts as [|y ts IH]; intros s2 c fuel first Hc Hts Hfuel Hs2 Hk;
    rewrite iterate_unfold, ts_char_step, shorter_by_one, andb_false_r
      by done.
  - rewrite string_app_nil. destruct fuel as [|fuel]; [done|].
    by rewrite iterate_unfold, ts_char_stop.
  - simpl in Hts. apply andb_true_iff in Hts as [Hy Hts].
    destruct fuel as [|fuel]; [simpl in Hfuel; lia|].
    rewrite string_app_cons.
    rewrite (IH s2 y fuel false Hy Hts) by (simpl in Hfuel; lia || done).
    by destruct Hk as [c0 ->].
Qed.

Lemma str_includes_head hay needle :
  String.prefix needle hay = true → str_includes hay needle = true.
Proof. intros H. destruct hay; cbn [str_includes]; by rewrite H. Qed.

Lemma search_head r str caps :
  match_anchored r str = Some caps → search r str = Some caps.
Proof. intros H. destruct str; cbn [search]; by rewrite H. Qed.

Lemma commentBody_shape ts :
  commentBody ts
  = "<!-- slack-ts:" +:+ ts +:+ " -->" +:+ newline
      +:+ "To view in Slack, search for: " +:+ ts.
Proof. unfold commentBody. by rewrite !string_app_assoc. Qed.

(** X21.  The comment written once the message is sent is recognised by
    later runs, which read the same timestamp back from it, provided the
    timestamp is a non-empty text of digits and dots. *)
Theorem slack_ts_round_trip (ts : string) :
  ts ≠ EmptyString → ts_text ts = true →
  str_includes (commentBody ts) TS_MARKER = true
  ∧ readSlackTs (commentBody ts) = Some ts.
Proof.
  intros Hne Hts. rewrite commentBody_shape. split.
  - apply str_includes_head, prefix_app.
  - destruct ts as [|c ts]; [done|]. simpl in Hts.
    apply andb_true_iff in Hts as [Hc Hts].
    unfold readSlackTs.
    assert (Hrun : match_anchored SLACK_TS_RE
              ("<!-- slack-ts:" +:+ String c ts +:+ " -->" +:+ newline
                 +:+ "To view in Slack, search for: " +:+ String c ts)
            = Some [(1, String c ts)]).
    { unfold match_anchored, SLACK_TS_RE.
      rewrite run_Cat, run_Lit_app, run_Cat, run_Group, run_Plus.
      rewrite string_app_cons.
      rewrite iterate_ts; try done.
      - rewrite run_Lit_app. rewrite <- string_app_cons.
        by rewrite consumed_app.
      - cbn [String.length]. rewrite (string_length_app ts). lia. }
    by rewrite (search_head _ _ _ Hrun).
Qed.

Lemma slack_ts_round_trip_witness :
  readSlackTs (commentBody "1718031234.567890") = Some "1718031234.567890".
Proof.
  apply (slack_ts_round_trip "1718031234.567890"); [done|reflexivity].
Defined.

(** Whatever [[0-9.]+] runs over is a non-empty text of digits and dots,
    and the continuation accepted what follows it. *)
Lemma iterate_ts_inv k caps0 :
  ∀ fuel first s caps,
    iterate (run TS_CHAR) k fuel first s caps = Some caps0 →
    ∃ t s', s = t +:+ s' ∧ t ≠ EmptyString ∧ ts_text t = true
            ∧ k s' caps = Some caps0.
Proof.
  induction fuel as [|fuel IH]; intros first s caps;
    rewrite iterate_unfold; unfold TS_CHAR;
    intros (l & Hl & Hp & Hk)%alt_of_inv;
    assert (∃ ch rest, l = String ch EmptyString ∧ s = String ch rest
                       ∧ is_ts_char ch = true) as (ch & rest & -> & -> & Hch)
      by (repeat (apply elem_of_cons in Hl as [->|Hl];
                  [apply prefix_cons_inv in Hp as (rest & -> & _);
                   by eexists _, rest|]);
          by apply elem_of_nil in Hl);
    change (drop_chars (String.length (String ch EmptyString))
              (String ch rest)) with rest in Hk;
    rewrite shorter_by_one, andb_false_r in Hk.
  - exists (String ch EmptyString), rest.
    split; [done|]. split; [done|]. split; [simpl; by rewrite Hch|exact Hk].
  - destruct (iterate _ k fuel false rest caps) as [c1|] eqn:Hmore.
    + injection Hk as ->.
      apply (IH false rest caps) in Hmore as (t & s' & -> & Hne & Ht & Hk').
      exists (String ch t), s'. rewrite string_app_cons. simpl.
      by rewrite Hch, Ht.
    + exists (String ch EmptyString), rest.
      split; [done|]. split; [done|]. split; [simpl; by rewrite Hch|exact Hk].
Qed.

Lemma search_inv r :
  ∀ str caps,
    search r str = Some caps →
    ∃ pre s, str = pre +:+ s ∧ match_anchored r s = Some caps.
Proof.
  induction str as [|c str IH]; intros caps; cbn [search].
  - destruct (match_anchored r EmptyString) as [caps'|] eqn:Hm; [|done].
    intros [= <-]. by exists EmptyString, EmptyString.
  - destruct (match_anchored r (String c str)) as [caps'|] eqn:Hm.
    + intros [= <-]. by exists EmptyString, (String c str).
    + intros (pre & s & -> & Hs)%IH. exists (String c pre), s.
      by rewrite string_app_cons.
Qed.

(** X25.  Whatever the comment, a timestamp read from it is a non-empty
    text of digits and dots that stands in the comment between the marker
    and the closing [ -->]. *)
Theorem readSlackTs_sound (body ts : string) :
  readSlackTs body = Some ts →
  ts ≠ EmptyString ∧ ts_text ts = true
  ∧ ∃ pre rest, body = pre +:+ TS_MARKER +:+ ts +:+ " -->" +:+ rest.
Proof.
  unfold readSlackTs.
  destruct (search SLACK_TS_RE body) as [caps|] eqn:Hsearch; [|done].
  apply search_inv in Hsearch as (pre & s & -> & Hm).
  unfold match_anchored, SLACK_TS_RE in Hm.
  rewrite run_Cat, run_Lit in Hm.
  destruct (String.prefix "<!-- slack-ts:" s) eqn:Hp; [|done].
  apply prefix_app_inv in Hp. rewrite Hp. clear Hp.
  set (s1 := drop_chars _ s) in *.
  rewrite run_Cat, run_Group, run_Plus in Hm.
  apply iterate_ts_inv in Hm as (t & s' & Hs1 & Hne & Ht & Hk).
  rewrite run_Lit in Hk.
  destruct (String.prefix " -->" s') eqn:Hp'; [|done].
  injection Hk as <-. rewrite Hs1, consumed_app. simpl.
  intros [= <-]. split; [done|]. split; [done|].
  exists pre, (drop_chars (String.length " -->") s').
  by rewrite <- (prefix_app_inv _ _ Hp').
Qed.

Lemma readSlackTs_sound_witness :
  ∃ pre rest,
    "Posted. <!-- slack-ts:1718031234.567890 --> (bot)"
    = pre +:+ TS_MARKER +:+ "1718031234.567890" +:+ " -->" +:+ rest.
Proof.
  apply (readSlackTs_sound
           "Posted. <!-- slack-ts:1718031234.567890 --> (bot)"
           "1718031234.567890").
  vm_compute. reflexivity.
Defined.

End Timestamp.

(** ** Slack notifier: sending the message *)

Section SendMessage.
Import SlackNotifier SlackTimestamp SlackPrNotifier.
Context {Blocks : Type}.
Variable remote : Remote Blocks.
Variable messageBlocks simplifiedBlocks : Blocks.
Variable isMerged isAbandoned : bool.
Variable slackTs : option string.

Local Abbreviation call_of isNew blocks :=
  (if isNew then ChatPostMessage blocks else ChatUpdate slackTs blocks).

Local Abbreviation result_of isNew completion :=
  (match completion with
   | Return posted => Return (if isNew then Some posted else None)
   | Throw message => Throw message
   end).

Lemma send_run (isNew : bool) blocks calls :
  send remote slackTs isNew blocks calls
  = (result_of isNew (chat remote calls (call_of isNew blocks)),
     calls ++ [call_of isNew blocks]).
Proof.
  destruct isNew; unfold send, bind, request, ret;
    by destruct (chat remote calls _).
Qed.

Lemma send_loop_unfold fuel (isNew : bool) retryCount :
  send_loop remote messageBlocks simplifiedBlocks isMerged isAbandoned slackTs
    (S fuel) isNew retryCount
  = if retryCount <=? maxRetries then
      try_catch (send remote slackTs isNew messageBlocks)
        (λ message,
           if str_includes message "invalid_blocks"
              && (retryCount <? maxRetries)
           then
             bind (wait (1000 * N.of_nat (S retryCount))) (λ _,
               send_loop remote messageBlocks simplifiedBlocks isMerged
                 isAbandoned slackTs fuel isNew (S retryCount))
           else if str_includes message "invalid_blocks" then
             send remote slackTs isNew
               (fallbackBlocks messageBlocks simplifiedBlocks isMerged
                  isAbandoned)
           else throw message)
    else ret None.
Proof. reflexivity. Qed.

(** One round of the loop, by the outcome of its request. *)
Lemma send_loop_round fuel (isNew : bool) retryCount calls :
  retryCount ≤ maxRetries →
  send_loop remote messageBlocks simplifiedBlocks isMerged isAbandoned slackTs
    (S fuel) isNew retryCount calls
  = match chat remote calls (call_of isNew messageBlocks) with
    | Return posted =>
        (Return (if isNew then Some posted else None),
         calls ++ [call_of isNew messageBlocks])
    | Throw message =>
        if str_includes message "invalid_blocks" then
          if retryCount <? maxRetries then
            send_loop remote messageBlocks simplifiedBlocks isMerged
              isAbandoned slackTs fuel isNew (S retryCount)
              (calls ++ [call_of isNew messageBlocks;
                         Wait (1000 * N.of_nat (S retryCount))])
          else
            send remote slackTs isNew
              (fallbackBlocks messageBlocks simplifiedBlocks isMerged
                 isAbandoned)
              (calls ++ [call_of isNew messageBlocks])
        else (Throw message, calls ++ [call_of isNew messageBlocks])
    end.
Proof.
  intros Hle. rewrite send_loop_unfold.
  rewrite (proj2 (Nat.leb_le _ _) Hle).
  unfold try_catch. rewrite send_run.
  destruct (chat remote calls _) as [posted|message]; [done|].
  destruct (str_includes message "invalid_blocks"); [|done].
  cbn [andb]. destruct (retryCount <? maxRetries); [|done].
  unfold bind, wait. by rewrite <- app_assoc.
Qed.

(** X22.  [sendMessage] sends the message, and sends it again after one
    and then after two seconds, as long as the request throws an error that
    mentions [invalid_blocks]; when the third request throws such an error
    too it sends the fallback blocks at once.  It stops at the first
    request that returns or throws another error, and at the fallback
    request in any case; its outcome is the outcome of the request it
    stops at.  Three rounds of the loop are always enough. *)
Theorem sendMessage_schedule (isNew : bool) (calls : list (Call Blocks))
    (fuel : nat) :
  let first := call_of isNew messageBlocks in
  let fallback :=
    call_of isNew
      (fallbackBlocks messageBlocks simplifiedBlocks isMerged isAbandoned) in
  let invalid_blocks (calls : list (Call Blocks)) :=
    match chat remote calls first with
    | Return _ => false
    | Throw message => str_includes message "invalid_blocks"
    end in
  let calls1 := calls ++ [first; Wait 1000] in
  let calls2 := calls1 ++ [first; Wait 2000] in
  let calls3 := calls2 ++ [first] in
  let run :=
    sendMessage remote messageBlocks simplifiedBlocks isMerged isAbandoned
      slackTs isNew calls in
  send_loop remote messageBlocks simplifiedBlocks isMerged isAbandoned slackTs
    (S maxRetries + fuel) isNew 0 calls = run
  ∧ run
    = if negb (invalid_blocks calls) then
        (result_of isNew (chat remote calls first), calls ++ [first])
      else if negb (invalid_blocks calls1) then
        (result_of isNew (chat remote calls1 first), calls1 ++ [first])
      else if negb (invalid_blocks calls2) then
        (result_of isNew (chat remote calls2 first), calls2 ++ [first])
      else
        (result_of isNew (chat remote calls3 fallback), calls3 ++ [fallback]).
Proof.
  intros first fallback invalid_blocks calls1 calls2 calls3 run.
  unfold run, sendMessage, maxRetries, invalid_blocks. cbn [Nat.add].
  rewrite !(send_loop_round _ _ 0) by (unfold maxRetries; lia).
  fold first.
  destruct (chat remote calls first) as [r1|e1]; [done|].
  destruct (str_includes e1 "invalid_blocks"); [|done].
  cbn [Nat.ltb Nat.leb maxRetries negb].
  change (1000 * N.of_nat 1)%N with 1000%N. fold calls1.
  rewrite !(send_loop_round _ _ 1) by (unfold maxRetries; lia).
  fold first.
  destruct (chat remote calls1 first) as [r2|e2]; [done|].
  destruct (str_includes e2 "invalid_blocks"); [|done].
  cbn [Nat.ltb Nat.leb maxRetries negb].
  change (1000 * N.of_nat 2)%N with 2000%N. fold calls2.
  rewrite !(send_loop_round _ _ 2) by (unfold maxRetries; lia).
  fold first.
  destruct (chat remote calls2 first) as [r3|e3]; [done|].
  destruct (str_includes e3 "invalid_blocks"); [|done].
  cbn [Nat.ltb Nat.leb maxRetries negb].
  rewrite send_run. by fold fallback calls3.
Qed.

End SendMessage.

(** ** Slack notifier: the main flow *)

Section Notifier.
Import SlackNotifier SlackTimestamp SlackPrNotifier.
Context {Blocks : Type}.
Variable remote : Remote Blocks.
Variable buildBlocks :
  bool → bool → bool → option string → list Label → Blocks.
Variable simplifiedBlocks : Blocks.

(** The reaction manager never throws. *)
Lemma manage_returns (api : SlackReactions.SlackApi) labels isPRMerged calls :
  ∃ more,
    SlackReactions.manageReactionsEfficiently api labels isPRMerged calls
    = (Return tt, calls ++ more).
Proof.
  rewrite manage_run.
  destruct (api calls _) as [[[|message rest]|]|e]; try by eexists.
  cbv zeta. destruct (SlackReactions.all_benign _ _ _); [by eexists|].
  rewrite verifySanity_run. cbn [snd]. rewrite <- app_assoc. by eexists.
Qed.

Lemma manageReactions_run slackTs labels isPRMerged calls :
  ∃ done,
    manageReactions remote slackTs labels isPRMerged calls
    = (Return tt, calls ++ map (Reaction slackTs) done).
Proof.
  unfold manageReactions. cbv zeta.
  edestruct manage_returns as [more ->]. by exists more.
Qed.

(** What [sendMessage] issues: requests for the one message and waits. *)
Lemma sendMessage_calls messageBlocks isMerged isAbandoned slackTs
    (isNew : bool) calls :
  ∃ issued,
    (sendMessage remote messageBlocks simplifiedBlocks isMerged isAbandoned
       slackTs isNew calls).2 = calls ++ issued
    ∧ Forall (λ e, match e with
                   | ChatPostMessage _ => isNew = true
                   | ChatUpdate ts _ => isNew = false ∧ ts = slackTs
                   | Wait _ => True
                   | _ => False
                   end) issued.
Proof.
  unfold sendMessage, maxRetries.
  rewrite (send_loop_round _ _ _ _ _ _ _ _ 0) by (unfold maxRetries; lia).
  destruct (chat remote calls _) as [r1|e1].
  { eexists. split; [done|]. by destruct isNew; repeat constructor. }
  destruct (str_includes e1 "invalid_blocks").
  2:{ eexists. split; [done|]. by destruct isNew; repeat constructor. }
  cbn [Nat.ltb Nat.leb maxRetries].
  rewrite (send_loop_round _ _ _ _ _ _ _ _ 1) by (unfold maxRetries; lia).
  destruct (chat remote _ _) as [r2|e2].
  { eexists. split; [by rewrite <- app_assoc|].
    by destruct isNew; repeat constructor. }
  destruct (str_includes e2 "invalid_blocks").
  2:{ eexists. split; [by rewrite <- app_assoc|].
      by destruct isNew; repeat constructor. }
  cbn [Nat.ltb Nat.leb maxRetries].
  rewrite (send_loop_round _ _ _ _ _ _ _ _ 2) by (unfold maxRetries; lia).
  destruct (chat remote _ _) as [r3|e3].
  { eexists. split; [by rewrite <- !app_assoc|].
    by destruct isNew; repeat constructor. }
  destruct (str_includes e3 "invalid_blocks").
  2:{ eexists. split; [by rewrite <- !app_assoc|].
      by destruct isNew; repeat constructor. }
  cbn [Nat.ltb Nat.leb maxRetries]. rewrite send_run. cbn [snd].
  eexists. split; [by rewrite <- !app_assoc|].
  by destruct isNew; repeat constructor.
Qed.

(** The exported function up to the end of its four reads. *)
Lemma notify_reads env calls :
  given (SLACK_BOT_TOKEN env) = true → given (SLACK_CHANNEL_ID env) = true →
  notify remote buildBlocks simplifiedBlocks env calls
  = match repos_get remote calls with
    | Throw e => handler e (calls ++ [ReposGet])
    | Return isPrivateRepo =>
        match listLabelsOnIssue remote (calls ++ [ReposGet]) with
        | Throw e => handler e (calls ++ [ReposGet; ListLabelsOnIssue])
        | Return data =>
            let isPRMerged :=
              match pulls_get remote (calls ++ [ReposGet; ListLabelsOnIssue]) with
              | Return merged => merged
              | Throw _ => false
              end in
            match listComments remote
                    (calls ++ [ReposGet; ListLabelsOnIssue; PullsGet]) with
            | Throw e => handler e (calls ++ reads)
            | Return comments =>
                try_catch
                  (proceed remote buildBlocks simplifiedBlocks env
                     isPrivateRepo (default [] data) isPRMerged comments)
                  handler (calls ++ reads)
            end
        end
    end.
Proof.
  intros Htoken Hchannel. unfold notify. rewrite Htoken, Hchannel.
  cbn [negb orb].
  unfold try_catch at 1, bind at 1, request at 1.
  destruct (repos_get remote calls) as [isPrivateRepo|e]; [|done].
  unfold bind at 1, request at 1.
  destruct (listLabelsOnIssue remote _) as [data|e];
    [|by rewrite <- app_assoc].
  unfold bind at 1, try_catch at 1, request at 1.
  rewrite <- !app_assoc. cbn [app].
  destruct (pulls_get remote _) as [merged|e]; [|unfold ret at 1];
    unfold bind at 1, request at 1; rewrite <- ?app_assoc; cbn [app];
    (destruct (listComments remote _) as [comments|e'];
     [|by rewrite <- ?app_assoc]);
    rewrite <- ?app_assoc; reflexivity.
Qed.

Lemma handler_calls e (t : list (Call Blocks)) :
  (handler e t).2 = t.
Proof. unfold handler. by destruct (str_includes e "not_authed"). Qed.

Lemma handler_policy e (t : list (Call Blocks)) :
  match (handler e t).1 with
  | Return _ => True
  | Throw message => str_includes message "not_authed" = false
  end.
Proof. unfold handler. by destruct (str_includes e "not_authed") eqn:He. Qed.

Lemma try_handler_calls (m : M Blocks unit) (t : list (Call Blocks)) :
  (try_catch m handler t).2 = (m t).2.
Proof.
  unfold try_catch. destruct (m t) as [[?|e] t']; [done|].
  unfold handler. by destruct (str_includes e "not_authed").
Qed.

(** What every call after the four reads satisfies, [t0] being the calls
    made up to the end of the reads and [slackTs0] the timestamp found in
    the comments. *)
Local Abbreviation disciplined t0 slackTs0 :=
  (λ c : Call Blocks,
     match c with
     | CreateComment b => b = LOCK_BODY ∧ given slackTs0 = false
     | DeleteComment i =>
         given slackTs0 = false
         ∧ createComment remote t0 LOCK_BODY = Return i
     | UpdateComment i b =>
         given slackTs0 = false
         ∧ createComment remote t0 LOCK_BODY = Return i
         ∧ ∃ sent, truthy sent = true ∧ b = commentBody sent
     | ChatPostMessage _ =>
         given slackTs0 = false
         ∧ ∃ lockId currentComments,
             createComment remote t0 LOCK_BODY = Return lockId
             ∧ listComments remote (t0 ++ [CreateComment LOCK_BODY])
               = Return currentComments
             ∧ find (λ c, has_marker c && negb (id c =? lockId)%N)
                 currentComments = None
     | ChatUpdate ts _ => ts = slackTs0 ∧ given slackTs0 = true
     | Reaction ts _ => truthy ts = true
     | _ => True
     end).

Lemma createMessage_calls (P : Call Blocks → Prop) messageBlocks isMerged
    isAbandoned slackTs t0 :
  P (CreateComment LOCK_BODY) → P ListComments → (∀ ms, P (Wait ms)) →
  (∀ i, createComment remote t0 LOCK_BODY = Return i → P (DeleteComment i)) →
  (∀ i sent,
     createComment remote t0 LOCK_BODY = Return i → truthy sent = true →
     P (UpdateComment i (commentBody sent))) →
  (∀ lockId currentComments blocks,
     createComment remote t0 LOCK_BODY = Return lockId →
     listComments remote (t0 ++ [CreateComment LOCK_BODY])
     = Return currentComments →
     find (λ c, has_marker c && negb (id c =? lockId)%N) currentComments
     = None →
     P (ChatPostMessage blocks)) →
  ∃ more,
    (createMessage remote simplifiedBlocks messageBlocks isMerged isAbandoned
       slackTs t0).2 = t0 ++ more
    ∧ Forall P more.
Proof.
  intros Hcreate Hlisting Hwait Hdelete Hupdate Hpost.
  unfold createMessage, bind at 1, request at 1.
  destruct (createComment remote t0 LOCK_BODY) as [lockId|e] eqn:Hlock.
  2:{ eexists. split; [done|]. by repeat constructor. }
  specialize (Hdelete lockId eq_refl).
  specialize (λ sent, Hupdate lockId sent eq_refl).
  specialize (Hpost lockId).
  unfold bind at 1, request at 1.
  destruct (listComments remote _) as [currentComments|e] eqn:Hlist.
  2:{ eexists. split; [by rewrite <- app_assoc|]. by repeat constructor. }
  destruct (find _ currentComments) as [existing|] eqn:Hfind.
  - unfold bind, request, ret.
    destruct (deleteComment remote _ lockId);
      [destruct (comment_ts existing)|];
      (eexists; split; [by rewrite <- !app_assoc|]; by repeat constructor).
  - unfold bind at 1.
    destruct (sendMessage_calls messageBlocks isMerged isAbandoned slackTs
                true ((t0 ++ [CreateComment LOCK_BODY]) ++ [ListComments]))
      as (sent & Hsent & Hall).
    assert (Hsent_ok : Forall P sent).
    { eapply Forall_impl; [exact Hall|]. intros c Hc.
      destruct c; try done.
      - by apply (Hpost currentComments).
      - by destruct Hc. }
    destruct (sendMessage _ _ _ _ _ _ _ _) as [[result|e] t].
    2:{ cbn [snd] in *. subst t. eexists.
        split; [by rewrite <- !app_assoc|].
        by repeat (constructor; [done|]). }
    cbn [snd] in Hsent. subst t.
    assert (Hclean : ∃ more,
      (bind (try_catch
               (request (DeleteComment lockId)
                  (λ calls0, deleteComment remote calls0 lockId))
               (λ _, ret tt)) (λ _, ret slackTs)
         (((t0 ++ [CreateComment LOCK_BODY]) ++ [ListComments]) ++ sent)).2
      = t0 ++ more
      ∧ Forall P more).
    { unfold bind, try_catch, request, ret.
      destruct (deleteComment remote _ lockId);
        (eexists; split; [by rewrite <- !app_assoc|]);
        repeat (constructor; [done|]);
        (apply Forall_app; split; [done|by repeat constructor]). }
    destruct result as [[[sent_ts|]]|]; cbn [ts]; try exact Hclean.
    destruct (truthy sent_ts) eqn:Htruthy; [|exact Hclean].
    unfold bind, request, ret.
    destruct (updateComment remote _ lockId _);
      (eexists; split; [by rewrite <- !app_assoc|]);
      repeat (constructor; [done|]);
      (apply Forall_app; split; [done|]);
      repeat constructor; eauto.
Qed.

Lemma proceed_discipline env isPrivateRepo labels isPRMerged comments t0 :
  ∃ more,
    (proceed remote buildBlocks simplifiedBlocks env isPrivateRepo labels
       isPRMerged comments t0).2 = t0 ++ more
    ∧ Forall (disciplined t0 (existingSlackTs comments)) more.
Proof.
  unfold proceed. cbv zeta.
  set (slackTs0 := existingSlackTs comments).
  match goal with |- ∃ more, _ ∧ Forall ?Q more => set (P := Q) end.
  destruct (bool_decide _); [exists []; by rewrite app_nil_r|].
  destruct (has_label labels "status:draft");
    [exists []; by rewrite app_nil_r|].
  destruct (negb (given slackTs0) && _);
    [exists []; by rewrite app_nil_r|].
  set (messageBlocks := buildBlocks _ _ _ _ _).
  set (isMerged := has_label labels "status:merged" || isPRMerged).
  set (isAbandoned := bool_decide _).
  assert (Hreact : ∀ slackTs t, ∃ more,
    (match slackTs with
     | Some found =>
         if truthy found
         then manageReactions remote found labels isPRMerged
         else ret tt
     | None => ret tt
     end t).2 = t ++ more
    ∧ Forall P more).
  { intros [found|] t; [|exists []; by rewrite app_nil_r].
    destruct (truthy found) eqn:Hfound; [|exists []; by rewrite app_nil_r].
    destruct (manageReactions_run found labels isPRMerged t) as [done ->].
    eexists. split; [done|]. apply Forall_forall. intros c Hc.
    by apply list_elem_of_In, in_map_iff in Hc as (r & <- & _). }
  unfold bind at 1.
  destruct (given slackTs0) eqn:Hgiven; cbn [negb].
  - unfold bind at 1.
    destruct (sendMessage_calls messageBlocks isMerged isAbandoned slackTs0
                false t0) as (sent & Hsent & Hall).
    assert (Hsent_ok : Forall P sent).
    { eapply Forall_impl; [exact Hall|]. intros c Hc.
      destruct c; try done. by destruct Hc. }
    destruct (sendMessage _ _ _ _ _ _ _ _) as [[result|e] t];
      cbn [snd] in Hsent; subst t; [|by exists sent].
    unfold ret at 1.
    destruct (Hreact slackTs0 (t0 ++ sent)) as (more & -> & Hmore).
    exists (sent ++ more). split; [by rewrite app_assoc|].
    by apply Forall_app.
  - destruct (createMessage_calls P messageBlocks isMerged isAbandoned
                slackTs0 t0) as (created & Hcreated & Hall); try done.
    { intros i sent Hi Hsent. unfold P. split; [done|]. split; [done|].
      by exists sent. }
    { intros lockId currentComments blocks ? ? ?. unfold P.
      split; [done|]. by exists lockId, currentComments. }
    destruct (createMessage _ _ _ _ _ _ _) as [[slackTs|e] t];
      cbn [snd] in Hcreated; subst t; [|by exists created].
    destruct (Hreact slackTs (t0 ++ created)) as (more & -> & Hmore).
    exists (created ++ more). split; [by rewrite app_assoc|].
    by apply Forall_app.
Qed.

Lemma proceed_gated env isPrivateRepo labels isPRMerged comments t :
  PR_AUTHOR_TYPE env = Some "Bot"
  ∨ has_label labels "status:draft" = true
  ∨ given (existingSlackTs comments) = false
    ∧ has_label labels "status:merged" || isPRMerged = true →
  proceed remote buildBlocks simplifiedBlocks env isPrivateRepo labels
    isPRMerged comments t = (Return tt, t).
Proof.
  intros Hgate. unfold proceed. cbv zeta.
  case_bool_decide as Hbot; [done|].
  destruct (has_label labels "status:draft"); [done|].
  destruct Hgate as [?|[?|[-> ->]]]; done.
Qed.

(** X23.  The notifier never fails the run with an error that mentions
    [not_authed], and without both Slack credentials it makes no call at
    all.  It goes beyond its four reads only when the credentials are set,
    the author is not a bot, the labels read do not include
    [status:draft], and a timestamp was found in the comments or the pull
    request is not merged. *)
Theorem notify_gates (env : Env) (calls : list (Call Blocks)) :
  let run := notify remote buildBlocks simplifiedBlocks env calls in
  match run.1 with
  | Return _ => True
  | Throw message => str_includes message "not_authed" = false
  end
  ∧ ∃ issued,
      run.2 = calls ++ issued
      ∧ (given (SLACK_BOT_TOKEN env) && given (SLACK_CHANNEL_ID env) = false
         → issued = [])
      ∧ (issued `prefix_of` reads
         ∨ ∃ data comments,
             reads `prefix_of` issued
             ∧ given (SLACK_BOT_TOKEN env) = true
             ∧ given (SLACK_CHANNEL_ID env) = true
             ∧ PR_AUTHOR_TYPE env ≠ Some "Bot"
             ∧ listLabelsOnIssue remote (calls ++ [ReposGet]) = Return data
             ∧ has_label (default [] data) "status:draft" = false
             ∧ listComments remote
                 (calls ++ [ReposGet; ListLabelsOnIssue; PullsGet])
               = Return comments
             ∧ (given (existingSlackTs comments) = true
                ∨ has_label (default [] data) "status:merged" = false
                  ∧ pulls_get remote (calls ++ [ReposGet; ListLabelsOnIssue])
                    ≠ Return true)).
Proof.
  intros run. split.
  { unfold run, notify.
    destruct (negb _ || negb _); [done|]. unfold try_catch at 1.
    destruct (bind _ _ calls) as [[?|e] t]; [done|]. apply handler_policy. }
  unfold run.
  destruct (given (SLACK_BOT_TOKEN env)) eqn:Htoken.
  2:{ unfold notify. rewrite Htoken. exists []. rewrite app_nil_r.
      split; [done|]. split; [done|]. left. apply prefix_nil. }
  destruct (given (SLACK_CHANNEL_ID env)) eqn:Hchannel.
  2:{ unfold notify. rewrite Htoken, Hchannel. exists []. rewrite app_nil_r.
      split; [done|]. split; [done|]. left. apply prefix_nil. }
  rewrite notify_reads by done. cbn [andb].
  destruct (repos_get remote calls) as [isPrivateRepo|e].
  2:{ rewrite handler_calls. exists [ReposGet]. split; [done|].
      split; [done|]. left.
      by exists [ListLabelsOnIssue; PullsGet; ListComments]. }
  destruct (listLabelsOnIssue remote _) as [data|e] eqn:Hdata.
  2:{ rewrite handler_calls. exists [ReposGet; ListLabelsOnIssue].
      split; [done|]. split; [done|]. left.
      by exists [PullsGet; ListComments]. }
  cbv zeta.
  destruct (listComments remote _) as [comments|e] eqn:Hcomments.
  2:{ rewrite handler_calls. exists reads. split; [done|].
      split; [done|]. by left. }
  rewrite try_handler_calls.
  set (labels := default [] data).
  set (isPRMerged := match pulls_get remote _ with
                     | Return merged => merged
                     | Throw _ => false
                     end).
  destruct (decide (PR_AUTHOR_TYPE env = Some "Bot")) as [Hbot|Hbot].
  { rewrite proceed_gated by by left. exists reads. split; [done|].
    split; [done|]. by left. }
  destruct (has_label labels "status:draft") eqn:Hdraft.
  { rewrite proceed_gated by (right; by left). exists reads.
    split; [done|]. split; [done|]. by left. }
  destruct (given (existingSlackTs comments)) eqn:Hts.
  { destruct (proceed_discipline env isPrivateRepo labels isPRMerged comments
                (calls ++ reads)) as (more & -> & _).
    exists (reads ++ more). split; [by rewrite app_assoc|].
    split; [done|]. right. exists data, comments.
    split; [by exists more|]. repeat split; try done. by left. }
  destruct (has_label labels "status:merged" || isPRMerged) eqn:Hmerged.
  { rewrite proceed_gated by (right; right; by rewrite Hts, Hmerged).
    exists reads. split; [done|]. split; [done|]. by left. }
  destruct (proceed_discipline env isPrivateRepo labels isPRMerged comments
              (calls ++ reads)) as (more & -> & _).
  exists (reads ++ more). split; [by rewrite app_assoc|].
  split; [done|]. right. exists data, comments.
  split; [by exists more|]. repeat split; try done. right.
  apply orb_false_iff in Hmerged as [Hlabel Hflag]. split; [done|].
  intros Htrue. unfold isPRMerged in Hflag. by rewrite Htrue in Hflag.
Qed.

(** X24.  Every comment the notifier writes is its own lock comment: it
    creates at most the lock, and deletes or updates only the comment
    whose id that creation returned, the update carrying the timestamp
    body.  All of this, and posting a new message, happens only when no
    timestamp was found in the comments; a message is posted only after
    the second listing showed no timestamp comment other than the lock.
    When a timestamp was found the only message request is the update of
    that message, and reactions are managed only for a non-empty
    timestamp. *)
Theorem notify_call_discipline (env : Env) (calls : list (Call Blocks)) :
  let t0 := calls ++ reads in
  let slackTs0 :=
    match listComments remote
            (calls ++ [ReposGet; ListLabelsOnIssue; PullsGet]) with
    | Return comments => existingSlackTs comments
    | Throw _ => None
    end in
  ∃ issued,
    (notify remote buildBlocks simplifiedBlocks env calls).2 = calls ++ issued
    ∧ Forall (disciplined t0 slackTs0) issued.
Proof.
  intros t0 slackTs0.
  match goal with |- ∃ issued, _ ∧ Forall ?Q issued => set (P := Q) end.
  assert (Hreads : ∀ l, l `prefix_of` reads → Forall P l).
  { intros l [k Hk]. apply Forall_forall. intros c Hc.
    assert (Hin : c ∈ reads) by (rewrite Hk; apply elem_of_app; by left).
    unfold reads in Hin.
    repeat (apply elem_of_cons in Hin as [->|Hin]; [done|]).
    by apply elem_of_nil in Hin. }
  destruct (given (SLACK_BOT_TOKEN env)) eqn:Htoken.
  2:{ unfold notify. rewrite Htoken. exists []. rewrite app_nil_r.
      split; [done|constructor]. }
  destruct (given (SLACK_CHANNEL_ID env)) eqn:Hchannel.
  2:{ unfold notify. rewrite Htoken, Hchannel. exists [].
      rewrite app_nil_r. split; [done|constructor]. }
  rewrite notify_reads by done.
  destruct (repos_get remote calls) as [isPrivateRepo|e].
  2:{ rewrite handler_calls. exists [ReposGet]. split; [done|].
      apply Hreads. by exists [ListLabelsOnIssue; PullsGet; ListComments]. }
  destruct (listLabelsOnIssue remote _) as [data|e].
  2:{ rewrite handler_calls. exists [ReposGet; ListLabelsOnIssue].
      split; [done|]. apply Hreads. by exists [PullsGet; ListComments]. }
  cbv zeta. unfold P, slackTs0.
  destruct (listComments remote _) as [comments|e].
  2:{ rewrite handler_calls. exists reads. split; [done|]. by apply Hreads. }
  rewrite try_handler_calls.
  edestruct proceed_discipline as (more & -> & Hmore).
  exists (reads ++ more). split; [by rewrite app_assoc|].
  apply Forall_app. split; [by apply Hreads|exact Hmore].
Qed.

End Notifier.

(** ** Slack notifier: the status line *)

Section StatusLine.
Import SlackNotifier SlackStatusLine.

Lemma find_none_iff labels l :
  List.find (active labels) l = None
  ↔ Forall (λ m, has_label labels (label m) = false) l.
Proof.
  induction l as [|m l IH]; simpl.
  - split; [constructor|done].
  - fold (active labels m). destruct (active labels m) eqn:Hm.
    + split; [done|]. intros H. apply Forall_cons in H as [H _].
      unfold active in Hm. congruence.
    + rewrite IH. split; [by constructor|]. by intros [_ ?]%Forall_cons.
Qed.

Lemma filter_nil_iff labels l :
  List.filter (active labels) l = []
  ↔ Forall (λ m, has_label labels (label m) = false) l.
Proof.
  induction l as [|m l IH]; simpl.
  - split; [constructor|done].
  - fold (active labels m). destruct (active labels m) eqn:Hm.
    + split; [done|]. intros H. apply Forall_cons in H as [H _].
      unfold active in Hm. congruence.
    + rewrite IH. split; [by constructor|]. by intros [_ ?]%Forall_cons.
Qed.

Lemma find_ext_eq (f g : Mapping → bool) l :
  (∀ m, f m = g m) → List.find f l = List.find g l.
Proof.
  intros Hfg. induction l as [|m l IH]; [done|]. simpl.
  by rewrite Hfg, IH.
Qed.

Lemma ends_with_space_nonempty s : s +:+ " " ≠ EmptyString.
Proof. by destruct s. Qed.

(** X26.  The status line is empty exactly when the pull request carries
    none of the labels of the three tables, and it depends on the labels
    only through which names are present: their order, repetitions and
    other labels do not change it. *)
Theorem statusString_empty_iff (labels : list Label) :
  (statusString labels = EmptyString
   ↔ Forall (λ m, has_label labels (label m) = false)
            (statusLabels ++ priorityLabels ++ categoryLabels))
  ∧ ∀ labels',
      (∀ n, has_label labels' n = has_label labels n) →
      statusString labels' = statusString labels.
Proof.
  split.
  - rewrite !Forall_app. unfold statusString, statusTexts.
    rewrite <- (find_none_iff labels statusLabels),
      <- (find_none_iff labels priorityLabels),
      <- (filter_nil_iff labels categoryLabels).
    destruct (List.find (active labels) statusLabels) as [m1|];
      [split; [|by intros [? _]]|].
    { simpl. by intros ?%ends_with_space_nonempty. }
    destruct (List.find (active labels) priorityLabels) as [m2|];
      [split; [|by intros (_ & ? & _)]|].
    { simpl. by intros ?%ends_with_space_nonempty. }
    destruct (List.filter (active labels) categoryLabels) as [|m3 l];
      [done|split; [|by intros (_ & _ & ?)]].
    simpl. by intros ?%ends_with_space_nonempty.
  - intros labels' Hsame.
    assert (Hactive : ∀ m, active labels' m = active labels m).
    { intros m. apply Hsame. }
    unfold statusString, statusTexts.
    by rewrite !(find_ext_eq _ _ _ Hactive), (List.filter_ext _ _ Hactive).
Qed.

End StatusLine.
